(** * Pology: PO catalogs, rule files and text resolvers

    A shallow embedding of the parts of Pology that the verified
    properties are about:

    - [Py]       the Python string primitives the sources rely on;
    - [Message]  [pology.file.message]: message entries, derived
                 attributes, line rendering and merging;
    - [Catalog]  [pology.catalog]: the PO parser with its line cache and
                 [Catalog.sync];
    - [Resolve]  [pology.misc.resolve]: entities, alternatives directives
                 and accelerator markers;
    - [Rules]    [pology.misc.rules]: the rule-line tokenizer and the
                 identifier bookkeeping of [loadRulesFromFile].

    Characters are 8-bit ([ascii]); the character classes cover the ASCII
    range.  Positions are integers ([Z]) because the sources compute with
    [-1] as "not found" and with Python's negative slice bounds. *)

From Stdlib Require Import ZArith Ascii String List Lia Bool.
From stdpp Require Import base gmap strings list.

Local Open Scope Z_scope.

(** ** Python string primitives *)

Module Py.

Definition ord (c : ascii) : nat := nat_of_ascii c.

Definition in_range (lo hi : nat) (c : ascii) : bool :=
  Nat.leb lo (ord c) && Nat.leb (ord c) hi.

Definition isdigit (c : ascii) : bool := in_range 48 57 c.
Definition isupper (c : ascii) : bool := in_range 65 90 c.
Definition islower (c : ascii) : bool := in_range 97 122 c.
Definition isalpha (c : ascii) : bool := isupper c || islower c.
Definition isalnum (c : ascii) : bool := isalpha c || isdigit c.

(** [unicode.isspace] on the first 128 code points. *)
Definition isspace (c : ascii) : bool := in_range 9 13 c || in_range 28 32 c.

Definition upper (c : ascii) : ascii :=
  if islower c then ascii_of_nat (ord c - 32) else c.
Definition lower (c : ascii) : ascii :=
  if isupper c then ascii_of_nat (ord c + 32) else c.

Fixpoint str_map (f : ascii -> ascii) (s : string) : string :=
  match s with
  | EmptyString => EmptyString
  | String c s' => String (f c) (str_map f s')
  end.

Fixpoint str_all (f : ascii -> bool) (s : string) : bool :=
  match s with
  | EmptyString => true
  | String c s' => f c && str_all f s'
  end.

(** The longest prefix of characters in a class, and what follows it. *)
Fixpoint span (f : ascii -> bool) (s : string) : string * string :=
  match s with
  | EmptyString => (EmptyString, EmptyString)
  | String c s' =>
      if f c then let '(a, b) := span f s' in (String c a, b)
      else (EmptyString, s)
  end.

(** [bool(s)]: a string is true when it is not empty. *)
Definition truthy (s : string) : bool :=
  match s with EmptyString => false | _ => true end.

(** [s.isalnum()], [s.isspace()]: all characters, and at least one. *)
Definition str_isalnum (s : string) : bool := truthy s && str_all isalnum s.
Definition str_isspace (s : string) : bool := truthy s && str_all isspace s.

Definition len (s : string) : Z := Z.of_nat (String.length s).

(** A slice bound: negative bounds count from the end, and every bound is
    clamped to [0 .. len s]. *)
Definition bound (s : string) (i : Z) : Z :=
  if i <? 0 then Z.max 0 (len s + i) else Z.min i (len s).

(** [s[a:b]], [s[a:]] and [s[:b]]. *)
Definition slice (s : string) (a b : Z) : string :=
  substring (Z.to_nat (bound s a)) (Z.to_nat (bound s b - bound s a)) s.
Definition slice_from (s : string) (a : Z) : string := slice s a (len s).
Definition slice_to (s : string) (b : Z) : string := slice s 0 b.

(** [s[i]]; [None] stands for IndexError. *)
Definition index (s : string) (i : Z) : option ascii :=
  let j := if i <? 0 then len s + i else i in
  if j <? 0 then None else String.get (Z.to_nat j) s.

(** [l[i]] for a list and [0 <= i]. *)
Definition index_list {A : Type} (l : list A) (i : Z) : option A :=
  if i <? 0 then None else l !! Z.to_nat i.

Definition startswith (s p : string) : bool := String.prefix p s.
Definition endswith (s p : string) : bool :=
  String.eqb (slice_from s (Z.max 0 (len s - len p))) p && (len p <=? len s).

(** [find_in sub s i]: the first position of [sub] in [s], where [s] starts
    at absolute position [i]; [-1] when there is none. *)
Fixpoint find_in (sub s : string) (i : Z) : Z :=
  if String.prefix sub s then i
  else match s with
       | EmptyString => -1
       | String _ s' => find_in sub s' (i + 1)
       end.

(** [s.find(sub, start)]. *)
Definition find (s sub : string) (start : Z) : Z :=
  let st := if start <? 0 then Z.max 0 (len s + start) else start in
  if len s <? st then -1 else find_in sub (slice_from s st) st.

Fixpoint lstrip (s : string) : string :=
  match s with
  | EmptyString => EmptyString
  | String c s' => if isspace c then lstrip s' else s
  end.

Fixpoint rstrip (s : string) : string :=
  match s with
  | EmptyString => EmptyString
  | String c s' =>
      match rstrip s' with
      | EmptyString => if isspace c then EmptyString else String c EmptyString
      | r => String c r
      end
  end.

Definition strip (s : string) : string := lstrip (rstrip s).

(** [s.split(sep)] for a non-empty separator; [skip] counts the characters
    of a separator that is being passed over. *)
Fixpoint split_aux (sep s : string) (skip : nat) : list string :=
  match s with
  | EmptyString => [EmptyString]
  | String c s' =>
      match skip with
      | S k => split_aux sep s' k
      | O =>
          if String.prefix sep s
          then EmptyString :: split_aux sep s' (String.length sep - 1)
          else match split_aux sep s' 0 with
               | h :: t => String c h :: t
               | [] => [String c EmptyString]
               end
      end
  end.

Definition split (s sep : string) : list string := split_aux sep s 0.

(** [s.split(sep, 1)]. *)
Definition split1 (s sep : string) : list string :=
  let p := find s sep 0 in
  if p <? 0 then [s] else [slice_to s p; slice_from s (p + len sep)].

(** [sep.join(l)]. *)
Definition join (sep : string) (l : list string) : string := String.concat sep l.

Fixpoint digits_value (s : string) (acc : Z) : Z :=
  match s with
  | EmptyString => acc
  | String c s' => digits_value s' (10 * acc + Z.of_nat (ord c - 48))
  end.

(** [int(s)] for decimal literals with optional surrounding blanks and
    sign; [None] stands for ValueError. *)
Definition int (s : string) : option Z :=
  let t := strip s in
  let '(neg, d) :=
    match t with
    | String "-" d => (true, d)
    | String "+" d => (false, d)
    | _ => (false, t)
    end in
  if truthy d && str_all isdigit d
  then Some (if neg then - digits_value d 0 else digits_value d 0)
  else None.

(** [str(n)] for a non-negative [n]. *)
Definition digit_char (d : Z) : ascii := ascii_of_nat (48 + Z.to_nat d).

Fixpoint str_of_Z_aux (fuel : nat) (n : Z) (acc : string) : string :=
  match fuel with
  | O => acc
  | S k =>
      let acc' := String (digit_char (n mod 10)) acc in
      if n / 10 =? 0 then acc' else str_of_Z_aux k (n / 10) acc'
  end.

Definition str_of_Z (n : Z) : string :=
  if n <? 0 then String "-" (str_of_Z_aux (Z.to_nat (Z.log2 (- n)) + 1) (- n) EmptyString)
  else str_of_Z_aux (Z.to_nat (Z.log2 n) + 1) n EmptyString.

(** The line feed, the double quote and the backslash. *)
Definition nl : string := String (ascii_of_nat 10) EmptyString.
Definition dq : string := String (ascii_of_nat 34) EmptyString.
Definition bs : string := String (ascii_of_nat 92) EmptyString.

(** Exceptions, and results of code that can raise. *)
Inductive exn :=
| StandardError (msg : string)
| IndexError
| KeyError
| TypeError
| IdentError (ident : option string) (prevLine : Z)
| CatalogSyntaxError (msg : string) (line : Z)
| PologyError (msg : string)
| NotModelled (what : string).

Inductive result (A : Type) :=
| Ok (a : A)
| Raise (e : exn).
Arguments Ok {A} a.
Arguments Raise {A} e.

#[global] Instance result_ret : MRet result := fun A a => Ok a.

#[global] Instance result_bind : MBind result :=
  fun A B f r =>
    match r with
    | Ok a => f a
    | Raise e => Raise e
    end.

End Py.
(** ** Message entries ([pology.file.message]) *)

Module Message.
Import Py.

(** The two entry classes: [Message] (monitored) and [MessageUnsafe]. *)
Inductive MessageType := MessageMonitored | MessageUnsafe.

(** The interface variables of [Message_base]. *)
Record Body := mkBody {
  manual_comment : list string;
  auto_comment : list string;
  source : list (string * Z);
  flag : gset string;
  obsolete : bool;
  msgctxt_previous : option string;
  msgid_previous : option string;
  msgid_plural_previous : option string;
  msgctxt : option string;
  msgid : string;
  msgid_plural : option string;
  msgstr : list string;
  refline : Z;
  refentry : Z
}.

(** An entry: its variables, the modification counters, the line caches
    [_lines_<name>] (keyed by [<name>]) and the two marks a catalog puts on
    it. *)
Record Message := mkMessage {
  kind : MessageType;
  body : Body;
  modcount : nat;
  attr_modcount : gmap string nat;
  lines : gmap string (list string);
  committed : bool;
  remove_on_sync : bool
}.

Definition set_manual_comment (v : list string) (b : Body) : Body :=
  mkBody v (auto_comment b) (source b) (flag b) (obsolete b)
    (msgctxt_previous b) (msgid_previous b) (msgid_plural_previous b)
    (msgctxt b) (msgid b) (msgid_plural b) (msgstr b) (refline b) (refentry b).

Definition set_flag (v : gset string) (b : Body) : Body :=
  mkBody (manual_comment b) (auto_comment b) (source b) v (obsolete b)
    (msgctxt_previous b) (msgid_previous b) (msgid_plural_previous b)
    (msgctxt b) (msgid b) (msgid_plural b) (msgstr b) (refline b) (refentry b).

Definition set_msgctxt_previous (v : option string) (b : Body) : Body :=
  mkBody (manual_comment b) (auto_comment b) (source b) (flag b) (obsolete b)
    v (msgid_previous b) (msgid_plural_previous b)
    (msgctxt b) (msgid b) (msgid_plural b) (msgstr b) (refline b) (refentry b).

Definition set_msgid_previous (v : option string) (b : Body) : Body :=
  mkBody (manual_comment b) (auto_comment b) (source b) (flag b) (obsolete b)
    (msgctxt_previous b) v (msgid_plural_previous b)
    (msgctxt b) (msgid b) (msgid_plural b) (msgstr b) (refline b) (refentry b).

Definition set_msgid_plural_previous (v : option string) (b : Body) : Body :=
  mkBody (manual_comment b) (auto_comment b) (source b) (flag b) (obsolete b)
    (msgctxt_previous b) (msgid_previous b) v
    (msgctxt b) (msgid b) (msgid_plural b) (msgstr b) (refline b) (refentry b).

Definition set_msgid_plural (v : option string) (b : Body) : Body :=
  mkBody (manual_comment b) (auto_comment b) (source b) (flag b) (obsolete b)
    (msgctxt_previous b) (msgid_previous b) (msgid_plural_previous b)
    (msgctxt b) (msgid b) v (msgstr b) (refline b) (refentry b).

Definition set_msgstr (v : list string) (b : Body) : Body :=
  mkBody (manual_comment b) (auto_comment b) (source b) (flag b) (obsolete b)
    (msgctxt_previous b) (msgid_previous b) (msgid_plural_previous b)
    (msgctxt b) (msgid b) (msgid_plural b) v (refline b) (refentry b).

Definition with_body (f : Body -> Body) (m : Message) : Message :=
  mkMessage (kind m) (f (body m)) (modcount m) (attr_modcount m) (lines m)
    (committed m) (remove_on_sync m).

Definition with_lines (l : gmap string (list string)) (m : Message) : Message :=
  mkMessage (kind m) (body m) (modcount m) (attr_modcount m) l
    (committed m) (remove_on_sync m).

Definition with_committed (c : bool) (m : Message) : Message :=
  mkMessage (kind m) (body m) (modcount m) (attr_modcount m) (lines m)
    c (remove_on_sync m).

Definition with_remove_on_sync (r : bool) (m : Message) : Message :=
  mkMessage (kind m) (body m) (modcount m) (attr_modcount m) (lines m)
    (committed m) r.

Definition reset_modcount (m : Message) : Message :=
  mkMessage (kind m) (body m) 0%nat ∅ (lines m) (committed m) (remove_on_sync m).

(** Modelled from the spec: the change counters of the monitored container
    kit ([pology.misc.monitored], not part of the sources at hand).  A
    value-changing assignment to the attribute [att] of a monitored entry,
    or to an element of the container held there, increments the counter of
    [att] and the entry's own counter; [MessageUnsafe] counts nothing. *)
Definition bump (att : string) (m : Message) : Message :=
  match kind m with
  | MessageMonitored =>
      mkMessage (kind m) (body m) (S (modcount m))
        (<[att := S (default 0%nat (attr_modcount m !! att))]> (attr_modcount m))
        (lines m) (committed m) (remove_on_sync m)
  | MessageUnsafe => m
  end.

Fixpoint bump_n (n : nat) (att : string) (m : Message) : Message :=
  match n with
  | O => m
  | S k => bump_n k att (bump att m)
  end.

(** [self.<att> = v] for the optional single fields. *)
Definition assign_msgctxt_previous (v : option string) (m : Message) : Message :=
  let m' := with_body (set_msgctxt_previous v) m in
  if decide (msgctxt_previous (body m) = v) then m' else bump "msgctxt_previous" m'.

Definition assign_msgid_previous (v : option string) (m : Message) : Message :=
  let m' := with_body (set_msgid_previous v) m in
  if decide (msgid_previous (body m) = v) then m' else bump "msgid_previous" m'.

Definition assign_msgid_plural_previous (v : option string) (m : Message) : Message :=
  let m' := with_body (set_msgid_plural_previous v) m in
  if decide (msgid_plural_previous (body m) = v) then m'
  else bump "msgid_plural_previous" m'.

Definition assign_msgid_plural (v : option string) (m : Message) : Message :=
  let m' := with_body (set_msgid_plural v) m in
  if decide (msgid_plural (body m) = v) then m' else bump "msgid_plural" m'.

(** [self.flag.add(x)] and [self.flag.remove(x)] (for a member [x]). *)
Definition flag_add (x : string) (m : Message) : Message :=
  let m' := with_body (set_flag ({[x]} ∪ flag (body m))) m in
  if decide (x ∈ flag (body m)) then m' else bump "flag" m'.

Definition flag_remove (x : string) (m : Message) : Message :=
  bump "flag" (with_body (set_flag (flag (body m) ∖ {[x]})) m).

(** [o is not None]. *)
Definition is_set {A : Type} (o : option A) : bool :=
  match o with Some _ => true | None => false end.

(** *** Derived attributes ([Message_base.__getattr__]) *)

Definition fuzzy (m : Message) : bool :=
  bool_decide ("fuzzy" ∈ flag (body m)).

Definition translated (m : Message) : bool :=
  if fuzzy m then false else existsb Py.truthy (msgstr (body m)).

Definition untranslated (m : Message) : bool :=
  if fuzzy m then false else negb (existsb Py.truthy (msgstr (body m))).

(** The values [Message_base.get] can hand to [_compose]. *)
Inductive Value :=
| VNone
| VBool (b : bool)
| VStr (s : string)
| VList (l : list string).

Definition of_option (o : option string) : Value :=
  match o with Some s => VStr s | None => VNone end.

(** [self.get(ivar)] on the attributes that are composed; an attribute the
    entry does not have reads as [None]. *)
Definition get (ivar : string) (m : Message) : Value :=
  if String.eqb ivar "msgctxt" then of_option (msgctxt (body m))
  else if String.eqb ivar "msgid" then VStr (msgid (body m))
  else if String.eqb ivar "msgid_plural" then of_option (msgid_plural (body m))
  else if String.eqb ivar "msgstr" then VList (msgstr (body m))
  else if String.eqb ivar "fuzzy" then VBool (fuzzy m)
  else if String.eqb ivar "obsolete" then VBool (obsolete (body m))
  else if String.eqb ivar "manual_comment" then VList (manual_comment (body m))
  else if String.eqb ivar "msgctxt_previous" then of_option (msgctxt_previous (body m))
  else if String.eqb ivar "msgid_previous" then of_option (msgid_previous (body m))
  else if String.eqb ivar "msgid_plural_previous"
       then of_option (msgid_plural_previous (body m))
  else VNone.

Definition chr (n : nat) : string := String (ascii_of_nat n) EmptyString.

Definition compose_value (v : Value) : string :=
  match v with
  | VNone => chr 0
  | VBool b => if b then "1" else "0"
  | VList l => Py.join (chr 2) l
  | VStr s => s
  end.

Definition _compose (fields : list string) (m : Message) : string :=
  Py.join (chr 4) (map (fun field => compose_value (get field m)) fields).

Definition key (m : Message) : string := _compose ["msgctxt"; "msgid"] m.

Definition fmt (m : Message) : string :=
  _compose ["msgctxt"; "msgid"; "msgid_plural"; "msgstr"; "fuzzy"; "obsolete"] m.

Definition inv (m : Message) : string :=
  _compose ["msgctxt"; "msgid"; "msgid_plural"; "msgstr"; "fuzzy"; "obsolete";
            "manual_comment"; "msgctxt_previous"; "msgid_previous";
            "msgid_plural_previous"] m.

(** [format]: the first flag, in the iteration order of the set, that
    contains [-format]. *)
Definition format (m : Message) : string :=
  match filter (fun fl => bool_decide (0 <= Py.find fl "-format" 0))
               (elements (flag (body m))) with
  | fl :: _ => fl
  | [] => EmptyString
  end.

(** [state]: the coded translation state. *)
Definition state (m : Message) : string :=
  if negb (obsolete (body m)) then
    if fuzzy m then "F" else if translated m then "T" else "U"
  else
    if fuzzy m then "OF" else if translated m then "OT" else "OU".

(** *** Assignment to [fuzzy] ([Message_base.__setattr__]) *)

Definition set_fuzzy (val : bool) (m : Message) : Message :=
  if val then flag_add "fuzzy" m
  else
    let m1 := if fuzzy m then flag_remove "fuzzy" m else m in
    let m2 := assign_msgctxt_previous None m1 in
    let m3 := assign_msgid_previous None m2 in
    assign_msgid_plural_previous None m3.

(** *** Merging ([_overwrite_list], [merge]) *)

(** The number of element operations of [_overwrite_list] that change the
    list: differing elements in the common range, then one per append or
    pop. *)
Fixpoint overwrite_changes (self_list other_list : list string) : nat :=
  match self_list, other_list with
  | x :: s, y :: o =>
      ((if decide (x = y) then 0 else 1) + overwrite_changes s o)%nat
  | [], o => length o
  | s, [] => length s
  end.

Definition overwrite_manual_comment (other m : Message) : Message :=
  let n := overwrite_changes (manual_comment (body m)) (manual_comment (body other)) in
  bump_n n "manual_comment"
    (with_body (set_manual_comment (manual_comment (body other))) m).

Definition overwrite_msgstr (other m : Message) : Message :=
  let n := overwrite_changes (msgstr (body m)) (msgstr (body other)) in
  bump_n n "msgstr" (with_body (set_msgstr (msgstr (body other))) m).

Definition copy_previous (other m : Message) : Message :=
  assign_msgid_plural_previous (msgid_plural_previous (body other))
    (assign_msgid_previous (msgid_previous (body other))
      (assign_msgctxt_previous (msgctxt_previous (body other)) m)).

Definition when (c : bool) (f : Message -> Message) (m : Message) : Message :=
  if c then f m else m.

(** [self.merge(other)]: the returned flag and the entry as it is left. *)
Definition merge (self other : Message) : result (bool * Message) :=
  if negb (String.eqb (key self) (key other))
  then Raise (StandardError "cannot merge messages with different keys")
  else if obsolete (body self) || obsolete (body other)
  then Ok (false, self)
  else
    let modcount_before := modcount self in
    let oplural := msgid_plural (body other) in
    let self' :=
      if negb (is_set (msgid_plural (body self))) && is_set oplural then
        let m1 := when (negb (bool_decide (manual_comment (body other) = [])))
                       (overwrite_manual_comment other) self in
        let m2 := when (fuzzy other) (copy_previous other) m1 in
        let m3 := assign_msgid_plural oplural m2 in
        let m4 := overwrite_msgstr other m3 in
        set_fuzzy (fuzzy other) m4
      else if (translated self && translated other)
              || (fuzzy self && fuzzy other)
              || (untranslated self && untranslated other) then
        let m1 := when (bool_decide (manual_comment (body self) = []))
                       (overwrite_manual_comment other) self in
        when (is_set oplural) (assign_msgid_plural oplural) m1
      else if fuzzy self && translated other then
        let m1 := overwrite_manual_comment other self in
        if negb (is_set (msgid_plural (body m1))) || is_set oplural then
          let m2 := when (is_set oplural) (assign_msgid_plural oplural) m1 in
          let m3 := overwrite_msgstr other m2 in
          when (bool_decide (msgid_plural (body m3) = oplural)) (set_fuzzy false) m3
        else m1
      else if untranslated self && (translated other || fuzzy other) then
        let m1 := overwrite_manual_comment other self in
        if negb (is_set (msgid_plural (body m1))) || is_set oplural then
          let m2 := when (fuzzy other) (copy_previous other) m1 in
          let m3 := when (is_set oplural) (assign_msgid_plural oplural) m2 in
          let m4 := overwrite_msgstr other m3 in
          set_fuzzy (fuzzy other) m4
        else m1
      else self in
    Ok (bool_decide (modcount_before < modcount self')%nat, self').

(** What [merge] leaves alone in an entry: everything but the manual
    comments, the previous-fields, [msgid_plural], [msgstr], the [fuzzy]
    flag and the change counters, which do not go down. *)
Definition merge_frame (a b : Message) : Prop :=
  kind b = kind a
  /\ msgctxt (body b) = msgctxt (body a)
  /\ msgid (body b) = msgid (body a)
  /\ obsolete (body b) = obsolete (body a)
  /\ auto_comment (body b) = auto_comment (body a)
  /\ source (body b) = source (body a)
  /\ refline (body b) = refline (body a)
  /\ refentry (body b) = refentry (body a)
  /\ lines b = lines a
  /\ committed b = committed a
  /\ remove_on_sync b = remove_on_sync a
  /\ flag (body b) ∖ {["fuzzy"]} = flag (body a) ∖ {["fuzzy"]}
  /\ (modcount a <= modcount b)%nat
  /\ (kind a = MessageUnsafe -> modcount b = modcount a).

(** *** Line images ([_renew_lines_bymod], [_renew_lines], [to_lines]) *)

Definition _Message_single_fields : list string :=
  ["msgctxt_previous"; "msgid_previous"; "msgid_plural_previous";
   "msgctxt"; "msgid"; "msgid_plural"].

Definition _Message_mandatory_fields : list string := ["msgid"; "msgstr"].

(** The cache [_lines_<name>]; a cache that was never filled is empty. *)
Definition cache (name : string) (m : Message) : list string :=
  default [] (lines m !! name).

Definition set_cache (name : string) (l : list string) (m : Message) : Message :=
  with_lines (<[name := l]> (lines m)) m.

(** [getattr(self, att)] for the single fields. *)
Definition single_field (att : string) (m : Message) : option string :=
  if String.eqb att "msgctxt_previous" then msgctxt_previous (body m)
  else if String.eqb att "msgid_previous" then msgid_previous (body m)
  else if String.eqb att "msgid_plural_previous" then msgid_plural_previous (body m)
  else if String.eqb att "msgctxt" then msgctxt (body m)
  else if String.eqb att "msgid" then Some (msgid (body m))
  else if String.eqb att "msgid_plural" then msgid_plural (body m)
  else None.

Section Rendering.

(** The wrapping and escaping functions of [pology.misc.wrap] and
    [pology.misc.escape], which are not part of the sources at hand:
    [wrapf fname text prefix], [wrap_comment ctype text],
    [wrap_comment_unwrap ctype text] and [escape text]. *)
Variable wrapf : string -> string -> string -> list string.
Variable wrap_comment : string -> string -> list string.
Variable wrap_comment_unwrap : string -> string -> list string.
Variable escape : string -> string.

Definition is_empty {A : Type} (l : list A) : bool :=
  match l with [] => true | _ => false end.

(** Whether the element [name] is rendered anew. *)
Definition renewed (mod_ : string -> bool) (force : bool) (name : string)
    (m : Message) : bool :=
  mod_ name || is_empty (cache name m) || force.

Definition srcref (src : string * Z) : string :=
  if 0 <? snd src then fst src +:+ ":" +:+ str_of_Z (snd src) else fst src.

(** The flags with [fuzzy] moved to the front. *)
Definition flags_fuzzy_first (flags : list string) : list string :=
  fold_left (fun flst fl => if String.eqb fl "fuzzy" then fl :: flst else flst ++ [fl])
            flags [].

Definition renew_single (mod_ : string -> bool) (force : bool)
    (prefix_curr prefix_prev : string) (m : Message) (att : string) : Message :=
  if renewed mod_ force att m then
    let msgsth := single_field att m in
    if is_set msgsth || bool_decide (att ∈ _Message_mandatory_fields) then
      let text := default EmptyString msgsth in
      let '(fname, pfx) :=
        if endswith att "_previous"
        then (slice att 0 (- len "_previous"), prefix_prev)
        else (att, prefix_curr) in
      set_cache att (wrapf fname (escape text) pfx) m
    else set_cache att [] m
  else m.

(** [msgstr[i]] lines for the elements from index [i] on. *)
Fixpoint msgstr_lines (prefix_curr : string) (i : Z) (l : list string) : list string :=
  match l with
  | [] => []
  | s :: l' =>
      wrapf ("msgstr[" +:+ str_of_Z i +:+ "]") (escape s) prefix_curr
      ++ msgstr_lines prefix_curr (i + 1) l'
  end.

(** [last l != x] where [l[-1]] raises on an empty list. *)
Definition ensure_last_line (l : list string) : result (list string) :=
  match last l with
  | None => Raise IndexError
  | Some x => if String.eqb x nl then Ok l else Ok (l ++ [nl])
  end.

Definition _renew_lines_bymod (mod_ : string -> bool) (force : bool) (m : Message)
    : result Message :=
  let obs := obsolete (body m) in
  let prefix_curr := if obs then "#~ " else EmptyString in
  let prefix_prev := if obs then "#~| " else "#| " in
  let m :=
    if renewed mod_ force "manual_comment" m
    then set_cache "manual_comment"
           (concat (map (wrap_comment_unwrap EmptyString) (manual_comment (body m)))) m
    else m in
  let m :=
    if renewed mod_ force "auto_comment" m
    then set_cache "auto_comment"
           (concat (map (wrap_comment_unwrap ".") (auto_comment (body m)))) m
    else m in
  let m :=
    if renewed mod_ force "source" m then
      let srcrefs := map srcref (source (body m)) in
      set_cache "source"
        (if is_empty srcrefs then [] else wrap_comment ":" (join " " srcrefs)) m
    else m in
  let m :=
    if renewed mod_ force "flag" m then
      let flst := flags_fuzzy_first (elements (flag (body m))) in
      set_cache "flag"
        (if is_empty flst then [] else wrap_comment "," (join ", " flst)) m
    else m in
  let m := fold_left (renew_single mod_ force prefix_curr prefix_prev)
             _Message_single_fields m in
  (* msgstr must be renewed if the plurality of the message changed. *)
  let new_plurality :=
    match cache "msgstr" m with
    | [] => false
    | first :: _ =>
        let indexed := 0 <=? find first "msgstr[" 0 in
        (negb (is_set (msgid_plural (body m))) && indexed)
        || (is_set (msgid_plural (body m)) && negb indexed)
    end in
  let m :=
    if mod_ "msgstr" || is_empty (cache "msgstr" m) || new_plurality || force then
      let msgstr_ := if is_empty (msgstr (body m)) then [EmptyString] else msgstr (body m) in
      set_cache "msgstr"
        (if is_set (msgid_plural (body m))
         then msgstr_lines prefix_curr 0 msgstr_
         else wrapf "msgstr" (escape (default EmptyString (head msgstr_))) prefix_curr) m
    else m in
  (* Marshal the lines into proper order. *)
  let lins :=
    cache "manual_comment" m ++ cache "auto_comment" m
    ++ (if obs then [] else cache "source" m)
    ++ cache "flag" m
    ++ cache "msgctxt_previous" m ++ cache "msgid_previous" m
    ++ cache "msgid_plural_previous" m
    ++ cache "msgctxt" m ++ cache "msgid" m ++ cache "msgid_plural" m
    ++ cache "msgstr" m in
  lins ← ensure_last_line lins;
  Ok (set_cache "all" lins m).

Definition counted (att : string) (m : Message) : bool :=
  negb (Nat.eqb (default 0%nat (attr_modcount m !! att)) 0).

(** [Message._renew_lines] and [MessageUnsafe._renew_lines]. *)
Definition _renew_lines (force : bool) (m : Message) : result Message :=
  match kind m with
  | MessageMonitored =>
      if negb (counted "obsolete" m)
      then _renew_lines_bymod (fun att => counted att m) force m
      else _renew_lines_bymod (fun _ => true) force m
  | MessageUnsafe =>
      _renew_lines_bymod (fun _ => negb (Nat.eqb (modcount m) 0)) force m
  end.

(** [to_lines]: the lines, and the entry with its caches as they are
    left. *)
Definition to_lines (force : bool) (m : Message) : result (list string * Message) :=
  if force || negb (Nat.eqb (modcount m) 0) || is_empty (cache "all" m) then
    m' ← _renew_lines force m;
    Ok (cache "all" m', m')
  else Ok (cache "all" m, m).

Definition to_string (force : bool) (m : Message) : result (string * Message) :=
  '(l, m') ← to_lines force m;
  Ok (join EmptyString l, m').

End Rendering.

(** *** Sample entries *)

Definition sample_body (ctxt : option string) (id : string) (obs : bool) : Body :=
  mkBody [] [] [] ∅ obs None (Some "old") None ctxt id None ["tr"] (-1) (-1).

Definition sample (ctxt : option string) (id : string) (obs : bool) : Message :=
  mkMessage MessageMonitored (sample_body ctxt id obs) 0 ∅ ∅ true false.

End Message.

(** ** Text resolvers ([pology.misc.resolve]) *)

Module Resolve.
Import Py.

Definition DEFAULT_ALTHEAD : string := "~@".

(** *** The pattern [_entity_tail_rx]

    One character of the class [\w_:], then any number of characters of
    the class [\w\d._:-] (together group 1), then a semicolon. *)

Definition word_char (c : ascii) : bool := isalnum c || Ascii.eqb c "_".

Definition tail_first (c : ascii) : bool := word_char c || Ascii.eqb c ":".

Definition tail_rest (c : ascii) : bool :=
  word_char c || isdigit c || Ascii.eqb c "." || Ascii.eqb c "_"
  || Ascii.eqb c ":" || Ascii.eqb c "-".

(** [_entity_tail_rx.match(s)]: the name (group 1) and the text after the
    closing semicolon.  The semicolon is not in the class of the starred
    part, so only its longest run can be followed by the semicolon. *)
Definition entity_tail (s : string) : option (string * string) :=
  match s with
  | String c s' =>
      if tail_first c then
        match span tail_rest s' with
        | (name, String ";" rest) => Some (String c name, rest)
        | _ => None
        end
      else None
  | EmptyString => None
  end.

(** [_entity_tail_rx.match(text, pos)]: the name and the end of the match. *)
Definition entity_tail_at (text : string) (pos : Z) : option (string * Z) :=
  if len text <? pos then None
  else match entity_tail (slice_from text pos) with
       | Some (name, _) => Some (name, pos + len name + 1)
       | None => None
       end.

(** *** [first_to_case] *)

Record CaseState := mkCaseState {
  cs_i : Z;
  cs_remalts : Z;
  cs_checkcase : bool;
  cs_intag : bool;
  cs_ncchanged : Z;
  cs_textcc : string;
  cs_altsep : ascii
}.

(** One round of the loop body for the character [c] at [i]; [inl] is the
    text returned by a [break], [inr] the state at the end of the round. *)
Definition first_to_case_step (text : string) (upper_case : bool) (nalts : Z)
    (althead : string) (st : CaseState) (c : ascii) : string + CaseState :=
  let i0 := cs_i st in
  let alt_hlen := len althead in
  let finish (i remalts : Z) (checkcase intag cchange : bool) (altsep : ascii) :=
    let i' := i + 1 in
    let cseg := slice text i0 i' in
    let ncchanged := if cchange then cs_ncchanged st + 1 else cs_ncchanged st in
    let textcc :=
      if cchange
      then cs_textcc st +:+ str_map (if upper_case then upper else lower) cseg
      else cs_textcc st +:+ cseg in
    if (0 <? ncchanged) && (remalts =? 0)
    then inl (textcc +:+ slice_from text i')
    else inr (mkCaseState i' remalts checkcase intag ncchanged textcc altsep) in
  if Ascii.eqb c "<" then
    finish i0 (cs_remalts st) (cs_checkcase st) true false (cs_altsep st)
  else if Ascii.eqb c ">" then
    finish i0 (cs_remalts st) (cs_checkcase st) false false (cs_altsep st)
  else if negb (cs_intag st) && negb (nalts =? 0) && (cs_remalts st =? 0)
          && String.eqb (slice text i0 (i0 + alt_hlen)) althead then
    let i := i0 + 2 in
    if len text <=? i then inl text
    else match index text i with
         | Some altsep => finish i nalts true (cs_intag st) false altsep
         | None => inl text
         end
  else if negb (cs_intag st) && negb (cs_remalts st =? 0)
          && Ascii.eqb c (cs_altsep st) then
    finish i0 (cs_remalts st - 1) true (cs_intag st) false (cs_altsep st)
  else if negb (cs_intag st) && cs_checkcase st && isalpha c then
    finish i0 (cs_remalts st) false (cs_intag st) true (cs_altsep st)
  else
    finish i0 (cs_remalts st) (cs_checkcase st) (cs_intag st) false (cs_altsep st).

(** The loop [while i < tlen]; [i] grows in every round, so [len text]
    rounds are enough. *)
Fixpoint first_to_case_loop (rounds : nat) (text : string) (upper_case : bool)
    (nalts : Z) (althead : string) (st : CaseState) : string :=
  match rounds with
  | O => cs_textcc st
  | S k =>
      if cs_i st <? len text then
        match index text (cs_i st) with
        | Some c =>
            match first_to_case_step text upper_case nalts althead st c with
            | inl r => r
            | inr st' => first_to_case_loop k text upper_case nalts althead st'
            end
        | None => cs_textcc st
        end
      else cs_textcc st
  end.

Definition first_to_case (text : string) (upper_case : bool) (nalts : Z)
    (althead : string) : string :=
  first_to_case_loop (String.length text) text upper_case nalts althead
    (mkCaseState 0 0 true false 0 EmptyString "000").

Definition first_to_upper (text : string) (nalts : Z) (althead : string) : string :=
  first_to_case text true nalts althead.

Definition first_to_lower (text : string) (nalts : Z) (althead : string) : string :=
  first_to_case text false nalts althead.

(** *** [resolve_entities] *)

Section Entities.

Variable entities : gmap string string.
Variable ignored_entities : gset string.
Variable fcap : bool.
Variable nalts : Z.
Variable althead : string.

(** The name under which an entity is looked up, with the fallback to a
    lowercased first letter when [fcap] is on. *)
Definition lookup_name (entname : string) : string :=
  if fcap && negb (bool_decide (is_Some (entities !! entname)))
  then first_to_lower entname 0 DEFAULT_ALTHEAD
  else entname.

Record Scan := mkScan {
  sc_new_text : string;
  sc_resolved : list string;
  sc_unknown : list string
}.

(** The [while True] loop of one call.  Every round removes at least the
    ampersand it found from [text], so [S (length text)] rounds are enough;
    the warnings printed for unknown entities are left out. *)
Fixpoint scan_loop (rounds : nat) (text : string) (acc : Scan) : Scan :=
  match rounds with
  | O => acc
  | S k =>
      let p := find text "&" 0 in
      if p <? 0 then
        mkScan (sc_new_text acc +:+ text) (sc_resolved acc) (sc_unknown acc)
      else
        let new_text := sc_new_text acc +:+ slice text 0 (p + 1) in
        let text := slice_from text (p + 1) in
        match entity_tail text with
        | Some (entname_orig, rest) =>
            if bool_decide (entname_orig ∈ ignored_entities) then
              scan_loop k text (mkScan new_text (sc_resolved acc) (sc_unknown acc))
            else
              let entname := lookup_name entname_orig in
              match entities !! entname with
              | Some entval0 =>
                  let entval :=
                    if fcap && negb (String.eqb entname_orig entname)
                    then first_to_upper entval0 nalts althead
                    else entval0 in
                  scan_loop k rest
                    (mkScan (slice new_text 0 (-1) +:+ entval)
                            (sc_resolved acc ++ [entname]) (sc_unknown acc))
              | None =>
                  scan_loop k text
                    (mkScan new_text (sc_resolved acc) (sc_unknown acc ++ [entname]))
              end
        | None =>
            scan_loop k text (mkScan new_text (sc_resolved acc) (sc_unknown acc))
        end
  end.

Definition scan (text : string) : Scan :=
  scan_loop (S (String.length text)) text (mkScan EmptyString [] []).

(** [resolve_entities]: one scan, then the recursive call on its result when
    anything was resolved.  [depth] bounds the nesting of the recursive
    calls; [None] means that the calls nest deeper than [depth]. *)
Fixpoint resolve_entities (depth : nat) (text : string)
    : option (string * list string * list string) :=
  match depth with
  | O => None
  | S d =>
      let s := scan text in
      if (0 <? length (sc_resolved s))%nat then
        match resolve_entities d (sc_new_text s) with
        | Some (new_text, resolved_extra, unknown_extra) =>
            Some (new_text, sc_resolved s ++ resolved_extra,
                  sc_unknown s ++ unknown_extra)
        | None => None
        end
      else Some (sc_new_text s, sc_resolved s, sc_unknown s)
  end.

End Entities.

(** *** The value graph of an entity map *)

(** The names referenced in a text: at every ampersand, the name that
    [_entity_tail_rx] matches right after it, if it matches. *)
Fixpoint references (s : string) : list string :=
  match s with
  | EmptyString => []
  | String c s' =>
      (if Ascii.eqb c "&"
       then match entity_tail s' with Some (name, _) => [name] | None => [] end
       else [])
      ++ references s'
  end.

(** The value graph has an edge from a defined entity to every defined
    entity that its value references; it is acyclic when its nodes can be
    ranked so that every edge goes down in rank. *)
Definition acyclic (entities : gmap string string) : Prop :=
  exists rank : string -> nat,
    forall n v m,
      entities !! n = Some v -> In m (references v) -> is_Some (entities !! m) ->
      (rank m < rank n)%nat.

(** Every ampersand of the text starts a complete reference. *)
Fixpoint amp_closed (s : string) : bool :=
  match s with
  | EmptyString => true
  | String c s' =>
      (if Ascii.eqb c "&"
       then match entity_tail s' with Some _ => true | None => false end
       else true)
      && amp_closed s'
  end.

Definition closed_values (entities : gmap string string) : Prop :=
  forall n v, entities !! n = Some v -> amp_closed v = true.

(** A weight for texts, used to bound the nesting of [resolve_entities]:
    every ampersand counts for the weight [W] of the entity it references
    when that entity can be resolved, for nothing when the reference is
    complete but cannot be resolved, and for [Wtop] when no reference is
    complete yet. *)
Section Weight.

Variable entities : gmap string string.
Variable ignored_entities : gset string.
Variable W : string -> nat.
Variable Wtop : nat.

Definition resolvable (name : string) : bool :=
  negb (bool_decide (name ∈ ignored_entities))
  && bool_decide (is_Some (entities !! name)).

Definition amp_weight (tail : string) : nat :=
  match entity_tail tail with
  | Some (name, _) => if resolvable name then W name else 0%nat
  | None => Wtop
  end.

Fixpoint weight (s : string) : nat :=
  match s with
  | EmptyString => 0%nat
  | String c s' => ((if Ascii.eqb c "&" then amp_weight s' else 0) + weight s')%nat
  end.

End Weight.

Fixpoint count_amp (s : string) : nat :=
  match s with
  | EmptyString => 0%nat
  | String c s' => ((if Ascii.eqb c "&" then 1 else 0) + count_amp s')%nat
  end.

(** The text before the first ampersand and the text after it. *)
Fixpoint cut_amp (s : string) : option (string * string) :=
  match s with
  | EmptyString => None
  | String c s' =>
      if Ascii.eqb c "&" then Some (EmptyString, s')
      else match cut_amp s' with
           | Some (pre, tail) => Some (String c pre, tail)
           | None => None
           end
  end.

(** *** [resolve_alternatives] *)

Section Alternatives.

Variable select : positive.
Variable total : nat.
(** [fmtstr], as the function [alt ↦ fmtstr % alt], and [condf]. *)
Variable fmtstr : option (string -> string).
Variable condf : option (list string -> bool).
Variable althead : string.

(** The [for i in range(total)] loop: the position reached, the
    alternatives collected, and whether it stopped for want of a
    separator. *)
Fixpoint collect_alts (n : nat) (text sep : string) (p : Z) (alts : list string)
    : Z * list string * bool :=
  match n with
  | O => (p, alts, false)
  | S k =>
      let pp := p + 1 in
      let p' := find text sep pp in
      if p' <? 0 then (p', alts, true)
      else collect_alts k text sep p' (alts ++ [slice text pp p'])
  end.

Record AltState := mkAltState {
  as_p : Z;
  as_new_text : string;
  as_nresolved : Z;
  as_malformed : bool
}.

(** The [while True] loop; [None] when it is still running after [rounds]
    rounds. *)
Fixpoint alt_loop (rounds : nat) (text : string) (st : AltState) : option AltState :=
  match rounds with
  | O => None
  | S k =>
      let alt_hlen := len althead in
      let pp := as_p st + 1 in
      let p := find text althead pp in
      if p <? 0 then
        Some (mkAltState p (as_new_text st +:+ slice_from text pp)
                (as_nresolved st) (as_malformed st))
      else
        let ps := p in
        let new_text := as_new_text st +:+ slice text pp p in
        if len text <? p + alt_hlen + 2 then
          Some (mkAltState p new_text (as_nresolved st) true)
        else
          let p := p + alt_hlen in
          let sep := slice text p (p + 1) in
          let '(p, alts, broke) := collect_alts total text sep p [] in
          let malformed := as_malformed st || broke in
          let isel := Z.pos select - 1 in
          let admissible :=
            (isel <? Z.of_nat (length alts))
            && match condf with Some f => f alts | None => true end in
          if admissible then
            let alt :=
              match index_list alts isel with
              | Some a => a
              | None => EmptyString
              end in
            let alt := match fmtstr with Some f => f alt | None => alt end in
            alt_loop k text
              (mkAltState p (new_text +:+ alt) (as_nresolved st + 1) malformed)
          else
            alt_loop k text
              (mkAltState p (new_text +:+ slice text ps (p + 1))
                 (as_nresolved st) malformed)
  end.

(** [resolve_alternatives]: the text, the number of resolved directives and
    the malformed mark; [None] when the loop does not end in [rounds]
    rounds. *)
Definition resolve_alternatives (rounds : nat) (text : string)
    : option (string * Z * bool) :=
  match alt_loop rounds text (mkAltState (-1) EmptyString 0 false) with
  | Some st =>
      if as_malformed st then Some (text, 0, true)
      else Some (as_new_text st, as_nresolved st, false)
  | None => None
  end.

End Alternatives.

(** [resolve_alternatives_simple]: only the text, and the original one when
    a directive is malformed. *)
Definition resolve_alternatives_simple (select : positive) (total : nat)
    (fmtstr : option (string -> string)) (condf : option (list string -> bool))
    (althead : string) (rounds : nat) (text : string) : option string :=
  match resolve_alternatives select total fmtstr condf althead rounds text with
  | Some (ntext, _, malformed) => Some (if malformed then text else ntext)
  | None => None
  end.

(** *** [expand_vars] *)

(** What a call of [expand_vars] comes to: the expanded text, or the
    [NameError] it raises. *)
Inductive Expansion :=
| Expanded (text : string)
| NameError (msg : string) (column : Z).

(** The loop over the characters of a variable name: the position where
    the name ends. *)
Fixpoint name_end (rounds : nat) (text : string) (braced : bool) (p : Z) : Z :=
  match rounds with
  | O => p
  | S k =>
      if p <? len text then
        match index text p with
        | Some c =>
            if (negb braced && negb (isalnum c || Ascii.eqb c "_"))
               || (braced && Ascii.eqb c "}")
            then p
            else name_end k text braced (p + 1)
        | None => p
        end
      else p
  end.

(** The loop [while p < tlen] with the pieces collected in [ntext]; [None]
    when it is still running after [rounds] rounds. *)
Fixpoint expand_loop (rounds : nat) (text : string) (varmap : gmap string string)
    (head : string) (p : Z) (ntext : list string) : option Expansion :=
  match rounds with
  | O => None
  | S k =>
      let hlen := len head in
      let tlen := len text in
      if p <? tlen then
        let pp := p in
        let p := find text head pp in
        if p <? 0 then Some (Expanded (join EmptyString (ntext ++ [slice_from text pp])))
        else
          let ntext := ntext ++ [slice text pp p] in
          let p := p + hlen in
          if (p <? tlen) && String.eqb (slice text p (p + hlen)) head then
            expand_loop k text varmap head (p + hlen) (ntext ++ [head])
          else if p =? tlen then
            Some (NameError "trailing-off expansion directive" (p - hlen))
          else
            let braced :=
              match index text p with Some c => Ascii.eqb c "{" | None => false end in
            let p := if braced then p + 1 else p in
            let pp := p in
            let p := name_end (String.length text) text braced p in
            if braced && (p =? tlen) then
              Some (NameError "unclosed expansion directive" (pp - 1 - hlen))
            else
              let varname := slice text pp p in
              let p := if braced then p + 1 else p in
              match varmap !! varname with
              | None => Some (NameError ("unknown variable " +:+ varname) pp)
              | Some varvalue => expand_loop k text varmap head p (ntext ++ [varvalue])
              end
      else Some (Expanded (join EmptyString ntext))
  end.

(** [expand_vars(text, varmap, head)]; with a head that is not empty every
    round moves on, so [S (len text)] rounds are enough. *)
Definition expand_vars (text : string) (varmap : gmap string string) (head : string)
    : option Expansion :=
  expand_loop (S (String.length text)) text varmap head 0 [].

(** *** [remove_accelerator] *)

Definition _usual_accels : list string := ["_"; "&"; "~"; "^"].

Definition alnum_at (text : string) (i : Z) : bool :=
  match index text i with Some c => isalnum c | None => false end.

(** [while p1 >= 0 and not text[p1].isalnum(): p1 -= 1] *)
Fixpoint skip_left (rounds : nat) (text : string) (p1 : Z) : Z :=
  match rounds with
  | O => p1
  | S k => if (0 <=? p1) && negb (alnum_at text p1) then skip_left k text (p1 - 1) else p1
  end.

(** [while p2 < tlen and not text[p2].isalnum(): p2 += 1] *)
Fixpoint skip_right (rounds : nat) (text : string) (p2 : Z) : Z :=
  match rounds with
  | O => p2
  | S k =>
      if (p2 <? len text) && negb (alnum_at text p2) then skip_right k text (p2 + 1) else p2
  end.

(** A marker at [p] has just been cut out of [text]: also cut the enclosing
    [(<alnum>)] when it stands at the start or the end of the text. *)
Definition strip_parenthesized (text : string) (p : Z) : string :=
  if String.eqb (slice text (p - 1) p) "(" && String.eqb (slice text (p + 1) (p + 2)) ")"
  then
    let tlen := len text in
    let p1 := skip_left (String.length text) text (p - 2) + 1 in
    let p2 := skip_right (String.length text) text (p + 2) - 1 in
    if p1 =? 0 then lstrip (slice_to text (p - 1)) +:+ slice_from text (p2 + 1)
    else if p2 + 1 =? tlen then slice_to text p1 +:+ rstrip (slice_from text (p + 2))
    else text
  else text.

(** The [while True] loop for one marker; [None] when it is still running
    after [rounds] rounds. *)
Fixpoint accel_loop (rounds : nat) (accel : string) (text : string) (p : Z)
    : option string :=
  match rounds with
  | O => None
  | S k =>
      let alen := len accel in
      let p := find text accel p in
      if p <? 0 then Some text
      else if str_isalnum (slice text (p + alen) (p + alen + 1)) then
        match (if String.eqb accel "&" then entity_tail_at text (p + alen) else None) with
        | Some (_, e) => accel_loop k accel text e
        | None =>
            let text := slice_to text p +:+ slice_from text (p + alen) in
            Some (strip_parenthesized text p)
        end
      else
        let text :=
          if String.eqb (slice text (p + alen) (p + 2 * alen)) accel
          then slice_to text p +:+ slice_from text (p + alen)
          else text in
        accel_loop k accel text (p + alen)
  end.

Fixpoint accel_each (rounds : nat) (accels : list string) (text : string)
    : option string :=
  match accels with
  | [] => Some text
  | accel :: rest =>
      match accel_loop rounds accel text 0 with
      | Some text' => accel_each rounds rest text'
      | None => None
      end
  end.

(** [remove_accelerator(text, accels, greedy)], each marker's loop running
    for at most [rounds] rounds. *)
Definition remove_accelerator (rounds : nat) (text : string)
    (accels : option (list string)) (greedy : bool) : option string :=
  match accels with
  | None => if greedy then accel_each rounds _usual_accels text else Some text
  | Some l => accel_each rounds l text
  end.

(** *** Sample entity maps *)

(** The value of [a] references [b] only (the text [&a&b;] has no semicolon
    right after the name [a]); [b] stands for a semicolon. *)
Definition looping_entities : gmap string string :=
  {["a" := "&a&b;"; "b" := ";"]}.

Definition looping_rank (name : string) : nat :=
  if String.eqb name "a" then 1%nat else 0%nat.

Definition nested_entities : gmap string string :=
  {["a" := "x&b;"; "b" := "Y"]}.

End Resolve.

(** ** Catalogs ([pology.catalog]) *)

Module Catalog.
Import Py Message.

(** *** The parser ([_parse_po_file]) *)

(** [_MessageDict]: the fields as lists of parsed pieces, and the line
    caches (filled when [lcache] is on). *)
Record MessageDict := mkMessageDict {
  d_manual_comment : list string;
  d_auto_comment : list string;
  d_source : list (string * Z);
  d_flag : list string;
  d_obsolete : bool;
  d_msgctxt_previous : list string;
  d_msgid_previous : list string;
  d_msgid_plural_previous : list string;
  d_msgctxt : list string;
  d_msgid : list string;
  d_msgid_plural : list string;
  d_msgstr : list (list string);
  d_refline : Z;
  d_refentry : Z;
  d_lines : gmap string (list string)
}.

Definition empty_dict : MessageDict :=
  mkMessageDict [] [] [] [] false [] [] [] [] [] [] [] (-1) (-1) ∅.

Inductive FieldContext := ctx_none | ctx_msgctxt | ctx_msgid | ctx_msgid_plural | ctx_msgstr.
Inductive AgeContext := ctx_current | ctx_previous.
Inductive LifeContext := ctx_modern | ctx_obsolete.

#[global] Instance FieldContext_eq_dec : EqDecision FieldContext.
Proof. solve_decision. Defined.

(** The variables of the parser that live across lines. *)
Record Loc := mkLoc {
  lno : Z;
  tail : option string;
  msg : MessageDict;
  field_context : FieldContext;
  messages1 : list MessageDict;
  eno : Z;
  msgstr_i : Z
}.

Definition initial_loc : Loc := mkLoc 0 None empty_dict ctx_none [] 0 0.

Definition with_msg (d : MessageDict) (loc : Loc) : Loc :=
  mkLoc (lno loc) (tail loc) d (field_context loc) (messages1 loc) (eno loc)
    (msgstr_i loc).

Definition with_field_context (c : FieldContext) (loc : Loc) : Loc :=
  mkLoc (lno loc) (tail loc) (msg loc) c (messages1 loc) (eno loc) (msgstr_i loc).

(** [sep.join(lines[i:])] *)
Definition join_from (lines : list string) (i : Z) : string :=
  join EmptyString (drop (Z.to_nat i) lines).

(** [try_finish]: the entry is complete when the context leaves
    [ctx_msgstr]. *)
Definition try_finish (headonly : bool) (lines : list string) (loc : Loc) : Loc :=
  match field_context loc with
  | ctx_msgstr =>
      let nlines := Z.of_nat (length lines) in
      let msgs := messages1 loc ++ [msg loc] in
      if headonly then
        let offset := if lno loc <? nlines then 1 else 0 in
        mkLoc nlines (Some (join_from lines (lno loc - offset))) empty_dict ctx_none
          msgs (eno loc) (msgstr_i loc)
      else
        mkLoc (lno loc) (tail loc) empty_dict ctx_none msgs (eno loc) (msgstr_i loc)
  | _ => loc
  end.

(** One token of a [#:] line. *)
Definition parse_srcref (srcref : string) : string * Z :=
  match split1 srcref ":" with
  | [file; num] =>
      match int num with
      | Some n => if 0 <? n then (file, n) else (srcref, -1)
      | None => (srcref, -1)
      end
  | _ => (srcref, -1)
  end.

Definition nonempty_stripped (l : list string) : list string :=
  filter (fun s => truthy s = true) (map strip l).

Definition add_sources (line : string) (d : MessageDict) : MessageDict :=
  mkMessageDict (d_manual_comment d) (d_auto_comment d)
    (d_source d ++ map parse_srcref (nonempty_stripped (split (slice_from line 2) " ")))
    (d_flag d) (d_obsolete d)
    (d_msgctxt_previous d) (d_msgid_previous d) (d_msgid_plural_previous d)
    (d_msgctxt d) (d_msgid d) (d_msgid_plural d) (d_msgstr d)
    (d_refline d) (d_refentry d) (d_lines d).

Definition add_flags (line : string) (d : MessageDict) : MessageDict :=
  mkMessageDict (d_manual_comment d) (d_auto_comment d) (d_source d)
    (d_flag d ++ nonempty_stripped (split (slice_from line 2) ","))
    (d_obsolete d)
    (d_msgctxt_previous d) (d_msgid_previous d) (d_msgid_plural_previous d)
    (d_msgctxt d) (d_msgid d) (d_msgid_plural d) (d_msgstr d)
    (d_refline d) (d_refentry d) (d_lines d).

Definition add_auto_comment (line : string) (d : MessageDict) : MessageDict :=
  mkMessageDict (d_manual_comment d)
    (d_auto_comment d ++ [lstrip (slice_from line 2)]) (d_source d)
    (d_flag d) (d_obsolete d)
    (d_msgctxt_previous d) (d_msgid_previous d) (d_msgid_plural_previous d)
    (d_msgctxt d) (d_msgid d) (d_msgid_plural d) (d_msgstr d)
    (d_refline d) (d_refentry d) (d_lines d).

Definition add_manual_comment (line : string) (d : MessageDict) : MessageDict :=
  mkMessageDict (d_manual_comment d ++ [lstrip (slice_from line 2)])
    (d_auto_comment d) (d_source d)
    (d_flag d) (d_obsolete d)
    (d_msgctxt_previous d) (d_msgid_previous d) (d_msgid_plural_previous d)
    (d_msgctxt d) (d_msgid d) (d_msgid_plural d) (d_msgstr d)
    (d_refline d) (d_refentry d) (d_lines d).

(** The start of [msgid]: the obsolete mark and, for a current [msgid],
    the referent line and entry numbers. *)
Definition start_msgid (life : LifeContext) (age : AgeContext) (line_no entry_no : Z)
    (d : MessageDict) : MessageDict :=
  mkMessageDict (d_manual_comment d) (d_auto_comment d) (d_source d)
    (d_flag d)
    (match life with ctx_obsolete => true | ctx_modern => d_obsolete d end)
    (d_msgctxt_previous d) (d_msgid_previous d) (d_msgid_plural_previous d)
    (d_msgctxt d) (d_msgid d) (d_msgid_plural d) (d_msgstr d)
    (match age with ctx_current => line_no | ctx_previous => d_refline d end)
    (match age with ctx_current => entry_no | ctx_previous => d_refentry d end)
    (d_lines d).

(** [for i in range(len(msgstr), msgstr_i + 1): msgstr.append([])] *)
Definition pad_msgstr (i : Z) (d : MessageDict) : MessageDict :=
  let missing := Z.to_nat (i + 1 - Z.of_nat (length (d_msgstr d))) in
  mkMessageDict (d_manual_comment d) (d_auto_comment d) (d_source d)
    (d_flag d) (d_obsolete d)
    (d_msgctxt_previous d) (d_msgid_previous d) (d_msgid_plural_previous d)
    (d_msgctxt d) (d_msgid d) (d_msgid_plural d)
    (d_msgstr d ++ replicate missing [])
    (d_refline d) (d_refentry d) (d_lines d).

(** The piece [s] of a quoted line is added to the field in context. *)
Definition add_piece (age : AgeContext) (fc : FieldContext) (i : Z) (s : string)
    (d : MessageDict) : result MessageDict :=
  let build ctxt_prev id_prev plural_prev ctxt id plural str :=
    mkMessageDict (d_manual_comment d) (d_auto_comment d) (d_source d)
      (d_flag d) (d_obsolete d) ctxt_prev id_prev plural_prev ctxt id plural str
      (d_refline d) (d_refentry d) (d_lines d) in
  let same := build (d_msgctxt_previous d) (d_msgid_previous d)
                (d_msgid_plural_previous d) (d_msgctxt d) (d_msgid d)
                (d_msgid_plural d) (d_msgstr d) in
  match age, fc with
  | ctx_previous, ctx_msgctxt =>
      Ok (build (d_msgctxt_previous d ++ [s]) (d_msgid_previous d)
            (d_msgid_plural_previous d) (d_msgctxt d) (d_msgid d)
            (d_msgid_plural d) (d_msgstr d))
  | ctx_previous, ctx_msgid =>
      Ok (build (d_msgctxt_previous d) (d_msgid_previous d ++ [s])
            (d_msgid_plural_previous d) (d_msgctxt d) (d_msgid d)
            (d_msgid_plural d) (d_msgstr d))
  | ctx_previous, ctx_msgid_plural =>
      Ok (build (d_msgctxt_previous d) (d_msgid_previous d)
            (d_msgid_plural_previous d ++ [s]) (d_msgctxt d) (d_msgid d)
            (d_msgid_plural d) (d_msgstr d))
  | ctx_previous, _ => Ok same
  | ctx_current, ctx_msgctxt =>
      Ok (build (d_msgctxt_previous d) (d_msgid_previous d)
            (d_msgid_plural_previous d) (d_msgctxt d ++ [s]) (d_msgid d)
            (d_msgid_plural d) (d_msgstr d))
  | ctx_current, ctx_msgid =>
      Ok (build (d_msgctxt_previous d) (d_msgid_previous d)
            (d_msgid_plural_previous d) (d_msgctxt d) (d_msgid d ++ [s])
            (d_msgid_plural d) (d_msgstr d))
  | ctx_current, ctx_msgid_plural =>
      Ok (build (d_msgctxt_previous d) (d_msgid_previous d)
            (d_msgid_plural_previous d) (d_msgctxt d) (d_msgid d)
            (d_msgid_plural d ++ [s]) (d_msgstr d))
  | ctx_current, ctx_msgstr =>
      match index_list (d_msgstr d) i with
      | Some pieces =>
          Ok (build (d_msgctxt_previous d) (d_msgid_previous d)
                (d_msgid_plural_previous d) (d_msgctxt d) (d_msgid d)
                (d_msgid_plural d) (<[Z.to_nat i := pieces ++ [s]]> (d_msgstr d)))
      | None => Raise IndexError
      end
  | ctx_current, ctx_none => Ok same
  end.

Definition d_cache (name : string) (d : MessageDict) : list string :=
  default [] (d_lines d !! name).

Definition cache_append (name line_raw : string) (d : MessageDict) : MessageDict :=
  mkMessageDict (d_manual_comment d) (d_auto_comment d) (d_source d)
    (d_flag d) (d_obsolete d)
    (d_msgctxt_previous d) (d_msgid_previous d) (d_msgid_plural_previous d)
    (d_msgctxt d) (d_msgid d) (d_msgid_plural d) (d_msgstr d)
    (d_refline d) (d_refentry d)
    (<[name := d_cache name d ++ [line_raw]]> (d_lines d)).

Definition internal_problem (id line_no : Z) : exn :=
  PologyError ("Internal problem (" +:+ str_of_Z id +:+ ") at line " +:+ str_of_Z line_no).

(** The update of the line caches by the raw line. *)
Definition update_caches (line_raw : string) (age : AgeContext) (fc : FieldContext)
    (line_no : Z) (d : MessageDict) : result MessageDict :=
  let d := cache_append "all" line_raw d in
  if startswith line_raw "#:" then Ok (cache_append "source" line_raw d)
  else if startswith line_raw "#," then Ok (cache_append "flag" line_raw d)
  else if startswith line_raw "#." then Ok (cache_append "auto_comment" line_raw d)
  else if startswith line_raw "#"
          && negb (String.eqb (slice line_raw 1 2) "~" || String.eqb (slice line_raw 1 2) "|")
  then Ok (cache_append "manual_comment" line_raw d)
  else
    match age, fc with
    | ctx_previous, ctx_msgctxt => Ok (cache_append "msgctxt_previous" line_raw d)
    | ctx_previous, ctx_msgid => Ok (cache_append "msgid_previous" line_raw d)
    | ctx_previous, ctx_msgid_plural =>
        Ok (cache_append "msgid_plural_previous" line_raw d)
    | ctx_previous, _ => Raise (internal_problem 11 line_no)
    | ctx_current, ctx_msgctxt => Ok (cache_append "msgctxt" line_raw d)
    | ctx_current, ctx_msgid => Ok (cache_append "msgid" line_raw d)
    | ctx_current, ctx_msgid_plural => Ok (cache_append "msgid_plural" line_raw d)
    | ctx_current, ctx_msgstr => Ok (cache_append "msgstr" line_raw d)
    | ctx_current, ctx_none => Raise (internal_problem 12 line_no)
    end.

(** [s.rindex(sub)] for a one-character [sub] that occurs in [s]. *)
Fixpoint rfind_in (c : ascii) (s : string) (i : Z) (found : Z) : Z :=
  match s with
  | EmptyString => found
  | String x s' => rfind_in c s' (i + 1) (if Ascii.eqb x c then i else found)
  end.

Section Parser.

(** [unescape] of [pology.escape], which is not part of the sources at
    hand. *)
Variable unescape : string -> string.

(** [_parse_quoted(s)] for a line that contains a double quote. *)
Definition _parse_quoted (s : string) : string :=
  let quote := ascii_of_nat 34 in
  unescape (slice s (find s dq 0 + 1) (rfind_in quote s 0 (-1))).

(** The length of the run of digits at the start of a text. *)
Fixpoint digits_prefix (s : string) : Z :=
  match s with
  | String c s' => if isdigit c then 1 + digits_prefix s' else 0
  | EmptyString => 0
  end.

Variable headonly : bool.
Variable lcache : bool.
Variable lines : list string.

(** What the comment prefixes of a line decide: the rest of the line, the
    life and age contexts, whether a string may follow, and the state. *)
Definition comment_part (line : string) (loc : Loc)
    : string * LifeContext * AgeContext * bool * Loc :=
  if startswith line "#" then
    if startswith line "#~|" then
      (lstrip (slice_from line 3), ctx_modern, ctx_previous, true, loc)
    else if startswith line "#~" then
      (lstrip (slice_from line 2), ctx_obsolete, ctx_current, true, loc)
    else if startswith line "#|" then
      (lstrip (slice_from line 2), ctx_modern, ctx_previous, true, loc)
    else
      let loc := try_finish headonly lines loc in
      let d := msg loc in
      let d :=
        if startswith line "#:" then add_sources line d
        else if startswith line "#," then add_flags line d
        else if startswith line "#." then add_auto_comment line d
        else add_manual_comment line d in
      (line, ctx_modern, ctx_current, false, with_msg d loc)
  else (line, ctx_modern, ctx_current, true, loc).

Definition malformed_ordinal (line_no : Z) : exn :=
  CatalogSyntaxError "Malformed msgstr ordinal" line_no.

(** The keyword at the start of a field: the rest of the line and the
    state. *)
Definition field_start (line : string) (life : LifeContext) (age : AgeContext)
    (line_no : Z) (loc : Loc) : result (string * Loc) :=
  if startswith line "msgctxt" then
    let loc := try_finish headonly lines loc in
    Ok (lstrip (slice_from line 7), with_field_context ctx_msgctxt loc)
  else if startswith line "msgid_plural" then
    Ok (lstrip (slice_from line 12), with_field_context ctx_msgid_plural loc)
  else if startswith line "msgid" then
    let loc := try_finish headonly lines loc in
    let d := start_msgid life age line_no (eno loc) (msg loc) in
    let eno' := match age with ctx_current => eno loc + 1 | ctx_previous => eno loc end in
    Ok (lstrip (slice_from line 5),
        mkLoc (lno loc) (tail loc) d ctx_msgid (messages1 loc) eno' (msgstr_i loc))
  else if startswith line "msgstr" then
    let line := lstrip (slice_from line 6) in
    '(line, i) ←
      (if startswith line "[" then
         let line := lstrip (slice_from line 1) in
         let p := digits_prefix line in
         if p =? 0 then Raise (malformed_ordinal line_no)
         else
           let i := default 0 (int (slice_to line p)) in
           let line := lstrip (slice_from line p) in
           if startswith line "]" then Ok (lstrip (slice_from line 1), i)
           else Raise (malformed_ordinal line_no)
       else Ok (line, 0));
    Ok (line,
        mkLoc (lno loc) (tail loc) (pad_msgstr i (msg loc)) ctx_msgstr
          (messages1 loc) (eno loc) i)
  else if negb (startswith line dq) then
    Raise (CatalogSyntaxError "Unknown field name" line_no)
  else Ok (line, loc).

(** The work on one line that is not blank. *)
Definition parse_line (line_raw : string) (loc : Loc) : result Loc :=
  let line_no := lno loc in
  let '(line, life, age, string_follows, loc) := comment_part (strip line_raw) loc in
  '(line, loc) ←
    (if truthy line && string_follows then field_start line life age line_no loc
     else Ok (line, loc));
  loc ←
    (if truthy line && string_follows then
       if startswith line dq then
         d ← add_piece age (field_context loc) (msgstr_i loc) (_parse_quoted line) (msg loc);
         Ok (with_msg d loc)
       else Raise (CatalogSyntaxError "Expected string continuation" line_no)
     else Ok loc);
  if lcache then
    d ← update_caches line_raw age (field_context loc) line_no (msg loc);
    Ok (with_msg d loc)
  else Ok loc.

(** The loop [while loc.lno < nlines]; [lno] grows in every round. *)
Fixpoint parse_loop (rounds : nat) (loc : Loc) : result Loc :=
  match rounds with
  | O => Ok loc
  | S k =>
      if lno loc <? Z.of_nat (length lines) then
        match index_list lines (lno loc) with
        | None => Raise IndexError
        | Some line_raw =>
            let loc :=
              mkLoc (lno loc + 1) (tail loc) (msg loc) (field_context loc)
                (messages1 loc) (eno loc) (msgstr_i loc) in
            if truthy (strip line_raw) then
              loc' ← parse_line line_raw loc;
              parse_loop k loc'
            else parse_loop k loc
        end
      else Ok loc
  end.

(** The parsed entries with their pieces joined. *)
Definition join_or_none (x : list string) : option string :=
  match x with
  | [] => None
  | _ => Some (join EmptyString x)
  end.

Record Joined := mkJoined {
  j_dict : MessageDict;
  j_msgctxt_previous : option string;
  j_msgid_previous : option string;
  j_msgid_plural_previous : option string;
  j_msgctxt : option string;
  j_msgid : option string;
  j_msgid_plural : option string;
  j_msgstr : list (option string)
}.

Definition join_fields (d : MessageDict) : Joined :=
  mkJoined d (join_or_none (d_msgctxt_previous d)) (join_or_none (d_msgid_previous d))
    (join_or_none (d_msgid_plural_previous d)) (join_or_none (d_msgctxt d))
    (join_or_none (d_msgid d)) (join_or_none (d_msgid_plural d))
    (map join_or_none (d_msgstr d)).

(** The check for empty keys, on the entries after the first. *)
Fixpoint check_keys (first : bool) (l : list Joined) : result unit :=
  match l with
  | [] => Ok tt
  | j :: l' =>
      if negb first && bool_decide (j_msgid j = Some EmptyString)
         && negb (is_set (j_msgctxt j))
      then Raise (CatalogSyntaxError "Empty message" (d_refline (j_dict j)))
      else check_keys false l'
  end.

(** [_parse_po_file], from the decoded lines on: the joined entries and
    the tail. *)
Definition _parse_po_file : result (list Joined * option string) :=
  loc ← parse_loop (length lines) initial_loc;
  let loc := try_finish headonly lines loc in
  if is_empty (messages1 loc)
  then Raise (CatalogSyntaxError "No header" (lno loc))
  else
    let joined := map join_fields (messages1 loc) in
    _ ← check_keys true joined;
    Ok (joined, tail loc).

End Parser.



(** *** Reading the file ([_read_lines_and_encoding]) *)

Definition cr : string := String (ascii_of_nat 13) EmptyString.

(** The line ending that gives the most lines, the first of them among
    [\r\n], [\n], [\r]. *)
Definition choose_line_end (fstr : string) : string :=
  let step (best : nat * string) (clend : string) :=
    let n := length (split fstr clend) in
    if (fst best <? n)%nat then (n, clend) else best in
  snd (fold_left step [cr +:+ nl; nl; cr] (0%nat, nl)).

Definition split_lines (fstr : string) : list string :=
  let lines := map (fun x => x +:+ nl) (split fstr (choose_line_end fstr)) in
  match last lines with
  | Some l => if String.eqb l nl then removelast lines else lines
  | None => lines
  end.

Section Reading.

(** [enc_rx.search(line)], giving group 1 of the match, and
    [line.decode(enc)]: the regular expression engine and the codecs of
    Python. *)
Variable enc_search : string -> option string.
Variable decode : string -> string -> option string.

(** The charset named in the header area, if any. *)
Fixpoint find_encoding (lines : list string) : option string :=
  match lines with
  | [] => None
  | line :: rest =>
      if startswith (strip line) "#:" then None
      else match enc_search line with
           | Some g =>
               let enc := strip g in
               if negb (truthy enc) || String.eqb enc "CHARSET" then None else Some enc
           | None => find_encoding rest
           end
  end.

Fixpoint decode_lines (enc : string) (lines : list string) (line_no : Z)
    : result (list string) :=
  match lines with
  | [] => Ok []
  | line :: rest =>
      match decode enc line with
      | Some l => rest' ← decode_lines enc rest (line_no + 1); Ok (l :: rest')
      | None => Raise (CatalogSyntaxError "Text decoding failure" line_no)
      end
  end.

Definition _read_lines_and_encoding (fstr : string) : result (list string * string) :=
  let lines := split_lines fstr in
  let enc := default "UTF-8" (find_encoding lines) in
  enclines ← decode_lines enc lines 1;
  Ok (enclines, enc).

End Reading.

(** *** The catalog *)

(** Modelled from the spec: the header entry ([pology.header.Header]) and
    the change counters of [pology.monitored] are not part of the sources
    at hand.  The header is kept as an entry, and the catalog has a counter
    of its own ([own_modcount]: changes of the sequence and of the
    attributes of the catalog); the catalog's [modcount] adds up this
    counter and the counters of the header and of the entries. *)
Record Catalog := mkCatalog {
  filename : string;
  monitored : bool;
  header : Message;
  messages : list Message;
  encoding : string;
  cat_tail : option string;
  own_modcount : nat;
  msgpos : gmap string Z;
  created_from_scratch : bool
}.

Definition cat_modcount (cat : Catalog) : nat :=
  (own_modcount cat + modcount (header cat)
   + foldr (fun m n => modcount m + n) 0 (messages cat))%nat.

(** The key-position links: [_msgpos[messages[i].key] = i] for [i] going
    up. *)
Fixpoint index_keys (msgs : list Message) (i : Z) (pos : gmap string Z)
    : gmap string Z :=
  match msgs with
  | [] => pos
  | m :: rest => index_keys rest (i + 1) (<[key m := i]> pos)
  end.

(** Modelled from the spec: the constructor of the entry classes of
    [pology.message], which [_parse_po_file] calls on the parsed
    dictionaries, is not part of the sources at hand.  It takes over the
    fields and the line caches; a dictionary without [msgid] or with a
    missing [msgstr] element is outside the type of an entry. *)
Definition make_message (kind : MessageType) (j : Joined) : result Message :=
  let d := j_dict j in
  match j_msgid j, mapM id (j_msgstr j) with
  | Some id_, Some strs =>
      Ok (mkMessage kind
            (mkBody (d_manual_comment d) (d_auto_comment d) (d_source d)
               (list_to_set (d_flag d)) (d_obsolete d)
               (j_msgctxt_previous j) (j_msgid_previous j) (j_msgid_plural_previous j)
               (j_msgctxt j) id_ (j_msgid_plural j) strs
               (d_refline d) (d_refentry d))
            0%nat ∅ (d_lines d) false false)
  | _, _ => Raise TypeError
  end.

Fixpoint make_messages (kind : MessageType) (l : list Joined) : result (list Message) :=
  match l with
  | [] => Ok []
  | j :: rest =>
      m ← make_message kind j;
      ms ← make_messages kind rest;
      Ok (m :: ms)
  end.

(** Modelled from the spec: [Header()], the header of a catalog that has
    none. *)
Definition empty_header (kind : MessageType) : Message :=
  mkMessage kind
    (mkBody [] [] [] ∅ false None None None None EmptyString None [EmptyString] (-1) (-1))
    0%nat ∅ ∅ false false.

Definition falsy (o : option string) : bool :=
  match o with Some s => negb (truthy s) | None => true end.

Section Loading.

Variable enc_search : string -> option string.
Variable decode : string -> string -> option string.
Variable unescape : string -> string.

(** [Catalog(filename, monitored=..., headonly=...)] for a file that
    exists, with the bytes [fstr]. *)
Definition load (filename : string) (fstr : string) (monitored headonly : bool)
    : result Catalog :=
  let kind := if monitored then MessageMonitored else MessageUnsafe in
  '(lines, enc) ← _read_lines_and_encoding enc_search decode fstr;
  '(joined, t) ← _parse_po_file unescape headonly monitored lines;
  m ← make_messages kind joined;
  match m with
  | [] => Raise IndexError
  | m0 :: rest =>
      let '(hdr, msgs) :=
        if falsy (msgctxt (body m0)) && negb (truthy (msgid (body m0)))
        then (with_committed true m0, rest)
        else (empty_header kind, m) in
      let msgs := map (fun x => with_remove_on_sync false (with_committed true x)) msgs in
      Ok (mkCatalog filename monitored hdr msgs enc t 0%nat (index_keys msgs 0 ∅) false)
  end.

End Loading.

(** [cat.filename = name]: a change of the catalog, not of its entries. *)
Definition set_filename (name : string) (cat : Catalog) : Catalog :=
  mkCatalog name (monitored cat) (header cat) (messages cat) (encoding cat)
    (cat_tail cat)
    (if String.eqb (filename cat) name then own_modcount cat else S (own_modcount cat))
    (msgpos cat) (created_from_scratch cat).

(** [_assert_headonly] *)
Definition _assert_headonly (cat : Catalog) : result unit :=
  if match cat_tail cat with Some t => truthy t | None => false end
  then Raise (PologyError "Trying to access catalog messages in header-only mode.")
  else Ok tt.

(** [remove_on_sync(ident)] for a position. *)
Definition remove_on_sync_at (ip : Z) (cat : Catalog) : result Catalog :=
  _ ← _assert_headonly cat;
  let n := Z.of_nat (length (messages cat)) in
  let i := if ip <? 0 then ip + n else ip in
  if (i <? 0) || (n <=? i) then Raise IndexError
  else
    Ok (mkCatalog (filename cat) (monitored cat) (header cat)
          (alter (with_remove_on_sync true) (Z.to_nat i) (messages cat))
          (encoding cat) (cat_tail cat) (S (own_modcount cat)) (msgpos cat)
          (created_from_scratch cat)).

(** [sync_map]: pending removals are executed, obsolete entries go to the
    end, and the key-position links are rebuilt. *)
Definition sync_map_list (msgs : list Message) : list Message :=
  let kept := filter (fun m => remove_on_sync m = false) msgs in
  filter (fun m => obsolete (body m) = false) kept
  ++ filter (fun m => obsolete (body m) = true) kept.

Definition sync_map (cat : Catalog) : Catalog :=
  let newlst := sync_map_list (messages cat) in
  mkCatalog (filename cat) (monitored cat) (header cat) newlst (encoding cat)
    (cat_tail cat) (own_modcount cat) (index_keys newlst 0 ∅)
    (created_from_scratch cat).

(** The first run of digits in a text ([re.search(r"\d+", s)]). *)
Fixpoint first_digits (s : string) : option string :=
  match s with
  | EmptyString => None
  | String c s' =>
      if isdigit c then Some (String c (fst (span isdigit s')))
      else first_digits s'
  end.

(** [while obstop > 0 and messages[obstop - 1].obsolete: obstop -= 1] *)
Fixpoint obstop_loop (rounds : nat) (msgs : list Message) (obstop : nat) : nat :=
  match rounds with
  | O => obstop
  | S k =>
      match obstop with
      | O => obstop
      | S o =>
          match msgs !! o with
          | Some m => if obsolete (body m) then obstop_loop k msgs o else obstop
          | None => obstop
          end
      end
  end.

(** The frontier: the position from which the entries at the end of the
    list are all obsolete. *)
Definition obsolete_frontier (msgs : list Message) : nat :=
  obstop_loop (length msgs) msgs (length msgs).

(** The order after the reinsertion of the obsolete entries that stand
    before the frontier: the entries that stay (those not obsolete, and
    those marked for removal, which are passed over), then the obsolete
    ones from before the frontier, then the obsolete run at the end. *)
Definition stays (m : Message) : bool :=
  remove_on_sync m || negb (obsolete (body m)).

Definition hoist_obsolete (msgs : list Message) : list Message :=
  let k := obsolete_frontier msgs in
  let front := take k msgs in
  filter (fun m => stays m = true) front
  ++ filter (fun m => stays m = false) front
  ++ drop k msgs.

(** The order in which [sync] writes. *)
Definition written_order (noobsend : bool) (msgs : list Message) : list Message :=
  if noobsend then msgs else hoist_obsolete msgs.




Section Sync.

Variable wrapf : string -> string -> string -> list string.
Variable wrap_comment : string -> string -> list string.
Variable wrap_comment_unwrap : string -> string -> list string.
Variable escape : string -> string.
(** [line.encode(enc)] *)
Variable encode : string -> string -> option string.
(** [Header.get_field_value] *)
Variable get_field_value : Message -> string -> option string.

(** [nplurals] *)
Definition nplurals (cat : Catalog) : Z :=
  match get_field_value (header cat) "Plural-Forms" with
  | None => 1
  | Some plforms =>
      if negb (truthy plforms) then 1
      else match first_digits (default EmptyString (head (split plforms ";"))) with
           | Some digits => default 1 (int digits)
           | None => 1
           end
  end.

(** The fitting of clean plural entries to the number of plurals. *)
Definition fit_plural (n : Z) (m : Message) : Message :=
  if is_set (msgid_plural (body m))
     && negb (Z.of_nat (length (msgstr (body m))) =? n)
     && forallb (fun s => negb (truthy s)) (msgstr (body m))
  then bump "msgstr" (with_body (set_msgstr (replicate (Z.to_nat n) EmptyString)) m)
  else m.

(** [l.pop(i)] followed by [l.insert(k, x)] with the popped [x]. *)
Definition move (i k : nat) (l : list Message) : list Message :=
  match l !! i with
  | Some x => let l' := delete i l in take k l' ++ x :: drop k l'
  | None => l
  end.

(** The loop [while i < nmsgs] of [sync].  A round either moves on to the
    next position or lowers [obstop], so twice the number of entries is
    enough rounds. *)
Fixpoint sync_loop (rounds : nat) (force noobsend : bool) (nmsgs obsins : nat)
    (msgs : list Message) (i obstop : nat) (flines : list string)
    : result (list Message * list string) :=
  match rounds with
  | O =>
      if (i <? nmsgs)%nat then Raise (NotModelled "more rounds") else Ok (msgs, flines)
  | S k =>
      if (i <? nmsgs)%nat then
        match msgs !! i with
        | None => Raise IndexError
        | Some m =>
            if remove_on_sync m then
              sync_loop k force noobsend nmsgs obsins msgs (S i) obstop flines
            else if negb noobsend && obsolete (body m) && (i <? obstop)%nat then
              sync_loop k force noobsend nmsgs obsins (move i (obsins - 1) msgs)
                i (obstop - 1) flines
            else
              '(lins, m') ← to_lines wrapf wrap_comment wrap_comment_unwrap escape
                              (force || negb (committed m)) m;
              let flines := flines ++ lins in
              flines ← ensure_last_line flines;
              sync_loop k force noobsend nmsgs obsins (<[i := m']> msgs)
                (S i) obstop flines
        end
      else Ok (msgs, flines)
  end.

(** The entries written one after the other, in the order of the list:
    what the loop comes down to once the order is settled. *)
Fixpoint write_in_order (force : bool) (msgs : list Message) (flines : list string)
    : result (list Message * list string) :=
  match msgs with
  | [] => Ok ([], flines)
  | m :: rest =>
      if remove_on_sync m then
        '(rest', flines') ← write_in_order force rest flines;
        Ok (m :: rest', flines')
      else
        '(lins, m') ← to_lines wrapf wrap_comment wrap_comment_unwrap escape
                        (force || negb (committed m)) m;
        flines ← ensure_last_line (flines ++ lins);
        '(rest', flines') ← write_in_order force rest flines;
        Ok (m' :: rest', flines')
  end.

(** The removal of the empty lines at the end. *)
Fixpoint drop_trailing_blank (flines : list string) : list string :=
  match flines with
  | [] => []
  | l :: rest =>
      match drop_trailing_blank rest with
      | [] => if String.eqb l nl then [] else [l]
      | rest' => l :: rest'
      end
  end.

Definition add_tail (t : option string) (flines : list string) : list string :=
  match t with
  | Some t' =>
      if truthy t' then
        let fl := flines ++ map (fun x => x +:+ nl) (split t' nl) in
        if endswith t' nl then removelast fl else fl
      else drop_trailing_blank flines
  | None => drop_trailing_blank flines
  end.

Fixpoint encode_lines (enc : string) (flines : list string) (line_no : Z)
    : result (list string) :=
  match flines with
  | [] => Ok []
  | line :: rest =>
      match encode enc line with
      | Some l => rest' ← encode_lines enc rest (line_no + 1); Ok (l :: rest')
      | None => Raise (CatalogSyntaxError "Text encoding failure" line_no)
      end
  end.

(** [sync(force, noobsend, fitplural)]: whether the file was written, the
    catalog as it is left, and the lines written (to the file of the
    catalog or to [writefh]). *)
Definition sync (force noobsend fitplural : bool) (cat : Catalog)
    : result (bool * Catalog * option (list string)) :=
  if negb (truthy (strip (filename cat)))
  then Raise (PologyError "Trying to sync unnamed catalog.")
  else
    let msgs0 :=
      if fitplural then map (fit_plural (nplurals cat)) (messages cat)
      else messages cat in
    let cat :=
      mkCatalog (filename cat) (monitored cat) (header cat) msgs0 (encoding cat)
        (cat_tail cat) (own_modcount cat) (msgpos cat) (created_from_scratch cat) in
    let force := force || negb (monitored cat) in
    if negb force && Nat.eqb (cat_modcount cat) 0 then Ok (false, cat, None)
    else
      let msgs := with_remove_on_sync false (header cat) :: messages cat in
      let nmsgs := length msgs in
      let obstop := obsolete_frontier msgs in
      '(msgs, flines) ← sync_loop (2 * nmsgs) force noobsend nmsgs obstop msgs
                           0 obstop [];
      let flines := add_tail (cat_tail cat) flines in
      match msgs with
      | [] => Raise IndexError
      | hdr :: rest =>
          let rest := sync_map_list rest in
          enclines ← encode_lines (encoding cat) flines 1;
          let cat' :=
            mkCatalog (filename cat) (monitored cat)
              (with_committed true (reset_modcount hdr))
              (map (fun m => with_committed true (reset_modcount m)) rest)
              (encoding cat) (cat_tail cat) 0%nat (index_keys rest 0 ∅) false in
          Ok (true, cat', Some enclines)
      end.

End Sync.

(** An entry with only a [msgid] and a one-element [msgstr]. *)
Definition entry (id_ : string) (obs : bool) : Message :=
  mkMessage MessageMonitored
    (mkBody [] [] [] ∅ obs None None None None id_ None ["x"] (-1) (-1))
    0 ∅ ∅ true false.

(** *** [obspos], [remove] *)

(** [obspos]: the position of the first of the obsolete entries that end
    the catalog. *)
Definition obspos (cat : Catalog) : nat := obsolete_frontier (messages cat).

(** [l[i]] for a list, with Python's negative positions. *)
Definition py_nth {A : Type} (l : list A) (i : Z) : option A :=
  let n := Z.of_nat (length l) in
  let j := if i <? 0 then i + n else i in
  if j <? 0 then None else l !! Z.to_nat j.

(** What [remove] and its siblings take for [ident]: a position or an
    entry. *)
Inductive Ident :=
| ByPos (ip : Z)
| ByMsg (msg : Message).

(** [for i in range(start, start + n): _msgpos[messages[i].key] = i - 1] *)
Fixpoint relink (n : nat) (msgs : list Message) (i : Z) (pos : gmap string Z)
    : result (gmap string Z) :=
  match n with
  | O => Ok pos
  | S k =>
      match py_nth msgs i with
      | Some m => relink k msgs (i + 1) (<[key m := i - 1]> pos)
      | None => Raise IndexError
      end
  end.

(** [remove(ident)] *)
Definition remove (ident : Ident) (cat : Catalog) : result Catalog :=
  _ ← _assert_headonly cat;
  let msgs := messages cat in
  let n := Z.of_nat (length msgs) in
  '(ip, k) ← match ident with
             | ByPos ip =>
                 match py_nth msgs ip with
                 | Some m => Ok (ip, key m)
                 | None => Raise IndexError
                 end
             | ByMsg msg =>
                 match msgpos cat !! key msg with
                 | Some ip => Ok (ip, key msg)
                 | None => Raise KeyError
                 end
             end;
  pos ← relink (Z.to_nat (n - (ip + 1))) msgs (ip + 1) (msgpos cat);
  let j := if ip <? 0 then ip + n else ip in
  if (j <? 0) || (n <=? j) then Raise IndexError
  else
    match pos !! k with
    | None => Raise KeyError
    | Some _ =>
        Ok (mkCatalog (filename cat) (monitored cat) (header cat)
              (delete (Z.to_nat j) msgs) (encoding cat) (cat_tail cat)
              (S (own_modcount cat)) (delete k pos) (created_from_scratch cat))
    end.

(** A catalog of three entries with the key-position links of the
    constructor. *)
Definition three_entries : Catalog :=
  let msgs := [entry "M1" false; entry "M2" true; entry "M3" false] in
  mkCatalog "demo.po" true (empty_header MessageMonitored) msgs "UTF-8" None 0%nat
    (index_keys msgs 0 ∅) false.

(** *** Sample files and helpers *)

Definition po_line (keyword text : string) : string :=
  keyword +:+ " " +:+ dq +:+ text +:+ dq +:+ nl.

(** A header and one entry, separated by two empty lines. *)
Definition po_double_blank : string :=
  po_line "msgid" EmptyString +:+ po_line "msgstr" "Project-Id-Version: demo"
  +:+ nl +:+ nl
  +:+ po_line "msgid" "open" +:+ po_line "msgstr" "ouvrir".

(** A header, an obsolete entry and a live one, in normal layout. *)
Definition po_obsolete_first : string :=
  po_line "msgid" EmptyString +:+ po_line "msgstr" "Project-Id-Version: demo"
  +:+ nl
  +:+ po_line "#~ msgid" "gone" +:+ po_line "#~ msgstr" "parti"
  +:+ nl
  +:+ "#: main.c:7" +:+ nl
  +:+ po_line "msgid" "open" +:+ po_line "msgstr" "ouvrir".

(** Stand-ins for the functions that are parameters of the model: a
    one-line wrapper, the identity for escapes and codecs, and a header
    without charset and Plural-Forms fields. *)
Definition one_line_wrapf (fname text prefix : string) : list string :=
  [prefix +:+ po_line fname text].
Definition one_line_comment (ctype text : string) : list string :=
  ["#" +:+ ctype +:+ " " +:+ text +:+ nl].
Definition same_text (s : string) : string := s.
Definition same_bytes (enc line : string) : option string := Some line.
Definition no_charset (line : string) : option string := None.
Definition no_field (h : Message) (name : string) : option string := None.

Definition sample_load (name fstr : string) : result Catalog :=
  load no_charset same_bytes same_text name fstr true false.

Definition sample_sync (force noobsend : bool) (cat : Catalog)
    : result (bool * Catalog * option (list string)) :=
  sync one_line_wrapf one_line_comment one_line_comment same_text same_bytes no_field
    force noobsend false cat.

(** The catalog of [po_obsolete_first]. *)
Definition sample_catalog : Catalog :=
  match sample_load "demo.po" po_obsolete_first with
  | Ok cat => cat
  | Raise _ =>
      mkCatalog "demo.po" true (empty_header MessageMonitored) [] "UTF-8" None 0%nat ∅ true
  end.

(** What writing [sample_catalog] under another name gives: the catalog
    as it is left, and the lines written. *)
Definition written_catalog : Catalog :=
  match sample_sync false false (set_filename "copy.po" sample_catalog) with
  | Ok (_, cat, _) => cat
  | Raise _ => sample_catalog
  end.

Definition written_lines : option (list string) :=
  match sample_sync false false (set_filename "copy.po" sample_catalog) with
  | Ok (_, _, out) => out
  | Raise _ => None
  end.

(** [sample_catalog] with its first entry marked for removal, and what
    the next [sync] leaves of it. *)
Definition marked_catalog : Catalog :=
  match remove_on_sync_at 0 sample_catalog with
  | Ok cat => cat
  | Raise _ => sample_catalog
  end.

Definition swept_catalog : Catalog :=
  match sample_sync false false marked_catalog with
  | Ok (_, cat, _) => cat
  | Raise _ => marked_catalog
  end.

Definition swept_lines : option (list string) :=
  match sample_sync false false marked_catalog with
  | Ok (_, _, out) => out
  | Raise _ => None
  end.

End Catalog.

(** ** Rule files ([pology.misc.rules]) *)

Module Rules.
Import Py.

Definition _rule_start : string := "*".

(** A field of a rule line: its name and its value, [None] when the line
    gives none. *)
Definition field : Type := string * option string.

Definition char_at (line : string) (p : Z) : result ascii :=
  match index line p with
  | Some c => Ok c
  | None => Raise IndexError
  end.

(** [line[p].isspace()] for a position inside the line. *)
Definition space_at (line : string) (p : Z) : bool :=
  match index line p with Some c => isspace c | None => false end.

(** *** [_findEndQuote] *)

(** The loop [while epos < llen]: the position where it stops and the
    unescaped text it has assembled in [string]. *)
Fixpoint end_quote_loop (rounds : nat) (line : string) (quote : ascii)
    (epos : Z) (string_ : string) : result (Z * string) :=
  match rounds with
  | O => Ok (epos, string_)
  | S k =>
      if epos <? len line then
        c ← char_at line epos;
        if Ascii.eqb c "\" then
          let epos := epos + 1 in
          c2 ← char_at line epos;
          let string_ :=
            if negb (Ascii.eqb c2 quote) then string_ +:+ String c EmptyString
            else string_ in
          end_quote_loop k line quote (epos + 1) (string_ +:+ String c2 EmptyString)
        else if Ascii.eqb c quote then Ok (epos, string_)
        else end_quote_loop k line quote (epos + 1) (string_ +:+ String c EmptyString)
      else Ok (epos, string_)
  end.

(** The text that [_findEndQuote] assembles in its local [string]. *)
Definition unescaped_value (line : string) (pos : Z) : result string :=
  quote ← char_at line pos;
  '(_, string_) ← end_quote_loop (String.length line) line quote (pos + 1) EmptyString;
  Ok string_.

(** [_findEndQuote(line, pos)]: the position of the closing quote, which is
    all that the function returns. *)
Definition _findEndQuote (line : string) (pos : Z) : result Z :=
  quote ← char_at line pos;
  '(epos, _) ← end_quote_loop (String.length line) line quote (pos + 1) EmptyString;
  if epos =? len line
  then Raise (StandardError ("Non-terminated quoted string: " +:+ slice_from line pos))
  else Ok epos.

(** *** [_parseRuleLine] *)

(** The composition of a line out of backslash continuations. *)
Fixpoint join_continuations (rounds : nat) (lines : list string) (lno : Z)
    (line : string) : result (string * Z) :=
  match rounds with
  | O => Ok (line, lno)
  | S k =>
      if endswith line (bs +:+ nl) then
        let line := slice line 0 (-2) in
        if Z.of_nat (length lines) <=? lno then Ok (line, lno)
        else
          match index_list lines lno with
          | Some next => join_continuations k lines (lno + 1) (line +:+ next)
          | None => Raise IndexError
          end
      else Ok (line, lno)
  end.

(** [while line[p].isspace(): p += 1; if p >= llen: break] and its
    siblings over other character classes; [stop] tells what happens when
    the end of the line is reached. *)
Fixpoint advance_while (rounds : nat) (f : ascii -> bool) (line : string) (p : Z)
    (stop : result Z) : result Z :=
  match rounds with
  | O => Ok p
  | S k =>
      c ← char_at line p;
      if f c then
        let p := p + 1 in
        if len line <=? p then (match stop with Ok _ => Ok p | Raise e => Raise e end)
        else advance_while k f line p stop
      else Ok p
  end.

(** [while p < llen and line[p].isspace(): p += 1] *)
Fixpoint skip_spaces (rounds : nat) (line : string) (p : Z) : Z :=
  match rounds with
  | O => p
  | S k =>
      if p <? len line then
        match index line p with
        | Some c => if isspace c then skip_spaces k line (p + 1) else p
        | None => p
        end
      else p
  end.

(** The search for the balanced closing bracket: the position reached and
    the balance left. *)
Fixpoint balance_loop (rounds : nat) (line : string) (bropn brcls : ascii)
    (p balance : Z) : Z * Z :=
  match rounds with
  | O => (p, balance)
  | S k =>
      if 0 <? balance then
        let p := p + 1 in
        if len line <=? p then (p, balance)
        else
          match index line p with
          | Some c =>
              if Ascii.eqb c bropn then balance_loop k line bropn brcls p (balance + 1)
              else if Ascii.eqb c brcls then balance_loop k line bropn brcls p (balance - 1)
              else balance_loop k line bropn brcls p balance
          | None => (p, balance)
          end
      else (p, balance)
  end.

(** [re.match(r"^!?[a-z][\w-]*$", fname)] *)
Definition name_char (c : ascii) : bool :=
  isalnum c || Ascii.eqb c "_" || Ascii.eqb c "-".

Definition valid_field_name (fname : string) : bool :=
  let body :=
    match fname with
    | String "!" s => s
    | _ => fname
    end in
  match body with
  | String c s => islower c && str_all name_char s
  | EmptyString => false
  end.

Definition set_last (fields : list field) (f : field) : list field :=
  removelast fields ++ [f].

(** The loop [while p < llen] over the fields of the composed line. *)
Fixpoint fields_loop (rounds : nat) (line : string) (p : Z) (fields : list field)
    (in_modifiers : bool) : result (list field) :=
  match rounds with
  | O => Ok fields
  | S k =>
      let llen := len line in
      let n := String.length line in
      if negb (p <? llen) then Ok fields
      else
        p ← advance_while n isspace line p (Ok 0);
        if llen <=? p then Ok fields
        else
          c ← char_at line p;
          if Ascii.eqb c "#" then Ok fields
          else if bool_decide (fields = []) && (Ascii.eqb c "[" || Ascii.eqb c "{") then
            (* Shorthand trigger pattern. *)
            let bropn := c in
            let '(brcls, fname) :=
              if Ascii.eqb c "{" then ("}"%char, "msgid") else ("]"%char, "msgstr") in
            let p1 := p + 1 in
            let '(p, balance) := balance_loop (S n) line bropn brcls p 1 in
            if 0 <? balance then
              Raise (StandardError "Unbalanced bracket in shorthand trigger pattern")
            else
              fields_loop k line (p + 1)
                (fields ++ [(_rule_start, Some fname);
                            (slice line p1 p, Some EmptyString)]) true
          else if bool_decide (fields = []) && String.eqb (String c EmptyString) _rule_start then
            (* Verbose trigger pattern. *)
            let p := skip_spaces n line (p + 1) in
            if llen <=? p then
              Raise (StandardError "Missing match keyword in trigger pattern")
            else
              let p1 := p in
              p ← advance_while n (fun c => isalnum c || Ascii.eqb c "_") line p
                     (Raise (StandardError "Malformed trigger pattern"));
              let fname := slice line p1 p in
              p ← advance_while n isspace line p
                     (Raise (StandardError "No pattern after the trigger keyword"));
              let p1 := p + 1 in
              p ← _findEndQuote line p;
              fields_loop k line (p + 1)
                (fields ++ [(_rule_start, Some fname);
                            (slice line p1 p, Some EmptyString)]) true
          else if in_modifiers then
            (* Modifiers after the trigger pattern. *)
            let p1 := p in
            p ← advance_while n (fun c => negb (isspace c)) line p (Ok 0);
            match last fields with
            | Some (pattern, Some pmods) =>
                fields_loop k line p
                  (set_last fields (pattern, Some (pmods +:+ slice line p1 p))) in_modifiers
            | Some (_, None) => Raise TypeError
            | None => Raise IndexError
            end
          else
            (* Subdirective field. *)
            let p1 := p in
            p ← advance_while n (fun c => negb (isspace c) && negb (Ascii.eqb c "="))
                   line p (Ok 0);
            let fname := slice line p1 p in
            if negb (valid_field_name fname) then
              Raise (StandardError ("Invalid field name: " +:+ fname))
            else if (llen <=? p) || space_at line p then
              fields_loop k line p (fields ++ [(fname, None)]) in_modifiers
            else
              let p := p + 1 in (* skip equal-character *)
              if (llen <=? p) || space_at line p then
                (* [fields.append(fname, "")]: two arguments to [append] *)
                Raise TypeError
              else
                let p1 := p + 1 in
                p ← _findEndQuote line p;
                let fvalue := slice line p1 p in
                fields_loop k line (p + 1) (fields ++ [(fname, Some fvalue)]) in_modifiers
  end.

(** [_parseRuleLine(lines, lno)]: the fields and the number of the last
    line that was consumed. *)
Definition _parseRuleLine (lines : list string) (lno : Z) : result (list field * Z) :=
  match index_list lines (lno - 1) with
  | None => Raise IndexError
  | Some line0 =>
      '(line, lno) ← join_continuations (length lines) lines lno line0;
      fields ← fields_loop (S (String.length line)) line 0 [] false;
      Ok (fields, lno)
  end.

(** *** [loadRulesFromFile] *)

Definition _trigger_msgparts : list string :=
  ["msgctxt"; "msgid"; "msgstr"; "msgid_singular"; "msgid_plural";
   "msgstr_0"; "msgstr_1"; "msgstr_2"; "msgstr_3"; "msgstr_4"; "msgstr_5";
   "msgstr_6"; "msgstr_7"; "msgstr_8"; "msgstr_9"].

Definition _trigger_matchmods : list string := ["i"].

(** A rule, as the arguments [loadRulesFromFile] passes to the [Rule]
    constructor (the statistics switch and the two composed filters
    apart). *)
Record Rule := mkRule {
  r_pattern : string;
  r_msgpart : option string;
  r_hint : option string;
  r_valid : list (list field);
  r_casesens : bool;
  r_ident : option string;
  r_disabled : bool;
  r_environ : option string
}.

(** The local variables of [loadRulesFromFile] that describe the rule
    being read ... *)
Record Pending := mkPending {
  pattern : string;
  msgpart : option string;
  hint : option string;
  ident : option string;
  disabled : bool;
  casesens : bool;
  environ : option string
}.


(** ... and those that live across rules. *)
Record LoadState := mkLoadState {
  rules : list Rule;
  inRule : bool;
  inGroup : bool;
  valid : list (list field);
  pending : Pending;
  validGroup : gmap string (list (list field));
  validGroupName : string;
  identLines : gmap (option string) (Z * option string);
  globalEnviron : option string
}.




Definition with_pending (pd : Pending) (st : LoadState) : LoadState :=
  mkLoadState (rules st) (inRule st) (inGroup st) (valid st) pd
    (validGroup st) (validGroupName st) (identLines st) (globalEnviron st).

Definition outside (directive : string) : exn :=
  StandardError (directive +:+ " directive outside of rule").

(** [fields[1][0]] *)
Definition second_name (rest : list field) : result string :=
  match rest with
  | (name, _) :: _ => Ok name
  | [] => Raise IndexError
  end.

(** The [id] directive at line [lno]: the identifier is recorded with the
    file-wide environment in force, after the comparison with the record
    of its previous occurrence. *)
Definition id_directive (st : LoadState) (value : option string) (lno : Z)
    : result LoadState :=
  if negb (inRule st) then Raise (outside "id")
  else
    let pd := pending st in
    let pd' :=
      mkPending (pattern pd) (msgpart pd) (hint pd) value (disabled pd)
        (casesens pd) (environ pd) in
    let record (st : LoadState) :=
      mkLoadState (rules st) (inRule st) (inGroup st) (valid st) pd'
        (validGroup st) (validGroupName st)
        (<[value := (lno, globalEnviron st)]> (identLines st)) (globalEnviron st) in
    match identLines st !! value with
    | Some (prevLine, prevEnviron) =>
        if bool_decide (prevEnviron = globalEnviron st)
        then Raise (IdentError value prevLine)
        else Ok (record st)
    | None => Ok (record st)
    end.

(** The dispatch on the first field of a line; [lno] is the line number
    after [_parseRuleLine]. *)
Definition directive (st : LoadState) (name : string) (value : option string)
    (rest : list field) (lno : Z) : result LoadState :=
  let pd := pending st in
  if String.eqb name _rule_start then
    if negb (bool_decide (value ∈ (Some <$> _trigger_msgparts))) then
      Raise (StandardError "Unknown keyword in trigger pattern")
    else
      match rest with
      | (pat, Some mods) :: _ =>
          if negb (str_all (fun c => bool_decide (String c EmptyString ∈ _trigger_matchmods)) mods)
          then Raise (StandardError "Unknown match modifier in trigger pattern")
          else
            let pd' :=
              mkPending pat value (hint pd) (ident pd) (disabled pd)
                (find mods "i" 0 <? 0) (environ pd) in
            Ok (mkLoadState (rules st) true (inGroup st) (valid st) pd'
                  (validGroup st) (validGroupName st) (identLines st) (globalEnviron st))
      | (_, None) :: _ => Raise TypeError
      | [] => Raise IndexError
      end
  else if String.eqb name "valid" then
    if negb (inRule st) && negb (inGroup st)
    then Raise (StandardError "valid directive outside of rule or validity group")
    else
      Ok (mkLoadState (rules st) (inRule st) (inGroup st) (valid st ++ [rest]) pd
            (validGroup st) (validGroupName st) (identLines st) (globalEnviron st))
  else if String.eqb name "hint" then
    if negb (inRule st) then Raise (outside "hint")
    else
      Ok (with_pending
            (mkPending (pattern pd) (msgpart pd) value (ident pd) (disabled pd)
               (casesens pd) (environ pd)) st)
  else if String.eqb name "id" then id_directive st value lno
  else if String.eqb name "disabled" then
    if negb (inRule st) then Raise (outside "disabled")
    else
      Ok (with_pending
            (mkPending (pattern pd) (msgpart pd) (hint pd) (ident pd) true
               (casesens pd) (environ pd)) st)
  else if String.eqb name "validGroup" then
    if inGroup st then Raise (StandardError "validGroup directive inside validity group")
    else
      gname ← second_name rest;
      if inRule st then
        match validGroup st !! gname with
        | Some entries =>
            Ok (mkLoadState (rules st) (inRule st) (inGroup st) (valid st ++ entries) pd
                  (validGroup st) gname (identLines st) (globalEnviron st))
        | None => Raise KeyError
        end
      else
        Ok (mkLoadState (rules st) (inRule st) true (valid st) pd
              (validGroup st) gname (identLines st) (globalEnviron st))
  else if String.eqb name "environment" then
    if inGroup st then Raise (StandardError "environment directive inside validity group")
    else
      envName ← second_name rest;
      if inRule st then
        Ok (with_pending
              (mkPending (pattern pd) (msgpart pd) (hint pd) (ident pd) (disabled pd)
                 (casesens pd) (Some envName)) st)
      else
        Ok (mkLoadState (rules st) (inRule st) (inGroup st) (valid st) pd
              (validGroup st) (validGroupName st) (identLines st) (Some envName))
  else if startswith name "addFilter" || String.eqb name "removeFilter"
          || String.eqb name "clearFilters" || String.eqb name "include" then
    Raise (NotModelled name)
  else Raise (StandardError ("unknown directive " +:+ name)).



(** *** [_checkFields] *)

(** [_checkFields(directive, fields, knownFields, mandatoryFields, unique)].
    The two messages about unknown and missing fields are built with a
    format string that has more places than arguments, and with a [join]
    of two arguments: what is raised there is the [TypeError] of the
    message expression. *)
Definition _checkFields (directive : string) (fields : list field)
    (knownFields mandatoryFields : list string) (unique : bool) : result unit :=
  let fieldDict : gset string := list_to_set (map fst fields) in
  if unique && negb (Nat.eqb (size fieldDict) (length fields))
  then Raise (StandardError ("Duplicate fields in '" +:+ directive +:+ "' directive"))
  else
    let unknownFields := fieldDict ∖ list_to_set knownFields in
    if negb (bool_decide (unknownFields = ∅)) then Raise TypeError
    else if forallb (fun name => bool_decide (name ∈ fieldDict)) mandatoryFields
    then Ok tt
    else Raise TypeError.

(** *** Sample rule files *)

Definition ln (s : string) : string := s +:+ nl.

Definition quoted (s : string) : string := dq +:+ s +:+ dq.




End Rules.

(** * Properties of message entries *)

Module MessageProps.
Import Py Message.

Lemma truthy_nonempty (s : string) : Py.truthy s = true <-> s <> EmptyString.
Proof. destruct s; simpl; split; intros H; congruence. Qed.

Lemma existsb_truthy (l : list string) :
  existsb Py.truthy l = true <-> exists s, In s l /\ s <> EmptyString.
Proof.
  rewrite existsb_exists. split; intros (s & Hin & Hs); exists s; split; auto;
    by apply truthy_nonempty.
Qed.

Lemma not_existsb_truthy (l : list string) :
  existsb Py.truthy l = false <-> forall s, In s l -> s = EmptyString.
Proof.
  induction l as [|x l IH]; simpl.
  - split; [intros _ s [] | done].
  - rewrite orb_false_iff, IH. split.
    + intros [Hx Hl] s [<- | Hin]; [by destruct x | auto].
    + intros H. split; [rewrite (H x); auto | auto].
Qed.

Lemma fuzzy_spec (m : Message) : fuzzy m = true <-> "fuzzy" ∈ flag (body m).
Proof. unfold fuzzy. apply bool_decide_eq_true. Qed.

Lemma body_bump att m : body (bump att m) = body m.
Proof. unfold bump. by destruct (kind m). Qed.

Lemma body_assign_msgctxt_previous v m :
  body (assign_msgctxt_previous v m) = set_msgctxt_previous v (body m).
Proof. unfold assign_msgctxt_previous. case_decide; by rewrite ?body_bump. Qed.

Lemma body_assign_msgid_previous v m :
  body (assign_msgid_previous v m) = set_msgid_previous v (body m).
Proof. unfold assign_msgid_previous. case_decide; by rewrite ?body_bump. Qed.

Lemma body_assign_msgid_plural_previous v m :
  body (assign_msgid_plural_previous v m) = set_msgid_plural_previous v (body m).
Proof. unfold assign_msgid_plural_previous. case_decide; by rewrite ?body_bump. Qed.

Lemma body_flag_add x m : body (flag_add x m) = set_flag ({[x]} ∪ flag (body m)) (body m).
Proof. unfold flag_add. case_decide; by rewrite ?body_bump. Qed.

Lemma body_flag_remove x m :
  body (flag_remove x m) = set_flag (flag (body m) ∖ {[x]}) (body m).
Proof. unfold flag_remove. by rewrite body_bump. Qed.

Lemma body_set_fuzzy_false (m : Message) :
  body (set_fuzzy false m) =
  set_msgid_plural_previous None
    (set_msgid_previous None
      (set_msgctxt_previous None
        (set_flag (flag (body m) ∖ {["fuzzy"]}) (body m)))).
Proof.
  unfold set_fuzzy.
  rewrite body_assign_msgid_plural_previous, body_assign_msgid_previous,
    body_assign_msgctxt_previous.
  destruct (fuzzy m) eqn:Hf.
  - by rewrite body_flag_remove.
  - apply bool_decide_eq_false in Hf.
    replace (flag (body m) ∖ {["fuzzy"]}) with (flag (body m)) by set_solver.
    by destruct (body m).
Qed.

(** C2.  [fuzzy] reads as membership of the flag [fuzzy]; assigning [True]
    adds that flag; assigning [False] removes it and sets the three
    previous-fields to [None]. *)
Theorem fuzzy_flag_and_assignment (m : Message) :
  (fuzzy m = true <-> "fuzzy" ∈ flag (body m))
  /\ flag (body (set_fuzzy true m)) = {["fuzzy"]} ∪ flag (body m)
  /\ fuzzy (set_fuzzy true m) = true
  /\ flag (body (set_fuzzy false m)) = flag (body m) ∖ {["fuzzy"]}
  /\ fuzzy (set_fuzzy false m) = false
  /\ msgctxt_previous (body (set_fuzzy false m)) = None
  /\ msgid_previous (body (set_fuzzy false m)) = None
  /\ msgid_plural_previous (body (set_fuzzy false m)) = None.
Proof.
  split; [apply fuzzy_spec|].
  assert (Ht : flag (body (set_fuzzy true m)) = {["fuzzy"]} ∪ flag (body m)).
  { unfold set_fuzzy. by rewrite body_flag_add. }
  assert (Hf : flag (body (set_fuzzy false m)) = flag (body m) ∖ {["fuzzy"]}).
  { by rewrite body_set_fuzzy_false. }
  split; [exact Ht|]. split.
  { apply fuzzy_spec. rewrite Ht. set_solver. }
  split; [exact Hf|]. split.
  { apply bool_decide_eq_false. rewrite Hf. set_solver. }
  rewrite body_set_fuzzy_false. done.
Qed.

(** C8.  [translated] holds exactly for a non-fuzzy entry with a non-empty
    [msgstr] element, [untranslated] exactly for a non-fuzzy entry whose
    [msgstr] elements are all empty; they never hold together, and both
    fail exactly for fuzzy entries. *)
Theorem translated_untranslated_spec (m : Message) :
  (translated m = true <->
     fuzzy m = false /\ exists s, In s (msgstr (body m)) /\ s <> EmptyString)
  /\ (untranslated m = true <->
     fuzzy m = false /\ forall s, In s (msgstr (body m)) -> s = EmptyString)
  /\ ~ (translated m = true /\ untranslated m = true)
  /\ (translated m = false /\ untranslated m = false <-> fuzzy m = true).
Proof.
  unfold translated, untranslated.
  destruct (fuzzy m) eqn:Hf.
  - repeat split; try (intros []; congruence); try congruence; intuition congruence.
  - rewrite negb_true_iff, negb_false_iff.
    rewrite <- existsb_truthy, <- not_existsb_truthy.
    destruct (existsb Py.truthy (msgstr (body m))); intuition congruence.
Qed.

(** C10.  [merge] raises when the keys differ; with equal keys and an
    obsolete entry on either side it returns [False] and leaves the target
    entry as it was. *)
Theorem merge_keys_and_obsolete (self other : Message) :
  (key self <> key other -> exists e, merge self other = Raise e)
  /\ (key self = key other ->
      obsolete (body self) = true \/ obsolete (body other) = true ->
      merge self other = Ok (false, self)).
Proof.
  unfold merge. split.
  - intros Hk. apply String.eqb_neq in Hk. rewrite Hk. simpl. eauto.
  - intros Hk Ho. apply String.eqb_eq in Hk. rewrite Hk. simpl.
    destruct Ho as [-> | ->]; [done | by rewrite orb_true_r].
Qed.

Lemma merge_keys_and_obsolete_witness :
  (exists e, merge (sample None "open" false) (sample None "close" false) = Raise e)
  /\ merge (sample None "open" true) (sample None "open" false)
     = Ok (false, sample None "open" true).
Proof.
  split.
  - apply (proj1 (merge_keys_and_obsolete _ _)). vm_compute. congruence.
  - apply (proj2 (merge_keys_and_obsolete _ _)); [reflexivity | left; reflexivity].
Defined.

End MessageProps.

(** * Facts about the string primitives *)

Module PyFacts.
Import Py.

Lemma str_app_cons (c : ascii) (a b : string) : String c a +:+ b = String c (a +:+ b).
Proof. reflexivity. Qed.

Lemma str_app_nil_l (s : string) : EmptyString +:+ s = s.
Proof. reflexivity. Qed.


Lemma str_app_assoc (a b c : string) : (a +:+ b) +:+ c = a +:+ (b +:+ c).
Proof. induction a as [|x a IH]; [done | by rewrite !str_app_cons, IH]. Qed.

Lemma str_length_app (a b : string) :
  String.length (a +:+ b) = (String.length a + String.length b)%nat.
Proof. induction a as [|x a IH]; [done | rewrite str_app_cons; simpl; by rewrite IH]. Qed.

Lemma len_app (a b : string) : len (a +:+ b) = len a + len b.
Proof. unfold len. rewrite str_length_app. lia. Qed.

Lemma len_nonneg (s : string) : 0 <= len s.
Proof. unfold len. lia. Qed.

Lemma substring_all (s : string) : substring 0 (String.length s) s = s.
Proof. induction s as [|c s IH]; simpl; [done | by rewrite IH]. Qed.

Lemma substring_prefix (a b : string) : substring 0 (String.length a) (a +:+ b) = a.
Proof.
  induction a as [|x a IH].
  - by destruct b.
  - rewrite str_app_cons. simpl. by rewrite IH.
Qed.

Lemma substring_suffix (a b : string) :
  substring (String.length a) (String.length b) (a +:+ b) = b.
Proof.
  induction a as [|x a IH]; [apply substring_all | rewrite str_app_cons; simpl; done].
Qed.

Lemma bound_inside (s : string) (i : Z) : 0 <= i <= len s -> bound s i = i.
Proof.
  intros H. unfold bound. destruct (Z.ltb_spec i 0); [lia|]. lia.
Qed.

Lemma slice_from_start (s : string) : slice_from s 0 = s.
Proof.
  pose proof (len_nonneg s).
  unfold slice_from, slice. rewrite !bound_inside by lia.
  rewrite Z.sub_0_r. unfold len. rewrite Nat2Z.id. apply substring_all.
Qed.

Lemma slice_prefix (a b : string) : slice (a +:+ b) 0 (len a) = a.
Proof.
  pose proof (len_nonneg a). pose proof (len_nonneg b).
  unfold slice. rewrite !bound_inside by (rewrite len_app; lia).
  rewrite Z.sub_0_r. unfold len. rewrite Nat2Z.id. apply substring_prefix.
Qed.

Lemma slice_from_suffix (a b : string) : slice_from (a +:+ b) (len a) = b.
Proof.
  pose proof (len_nonneg a). pose proof (len_nonneg b).
  unfold slice_from, slice. rewrite !bound_inside by (rewrite len_app; lia).
  rewrite len_app. replace (len a + len b - len a) with (len b) by lia.
  unfold len. rewrite !Nat2Z.id. apply substring_suffix.
Qed.

Lemma slice_drop_last (a : string) (c : ascii) :
  slice (a +:+ String c EmptyString) 0 (-1) = a.
Proof.
  pose proof (len_nonneg a).
  assert (Hl : len (a +:+ String c EmptyString) = len a + 1).
  { rewrite len_app. reflexivity. }
  unfold slice. rewrite bound_inside by lia.
  replace (bound (a +:+ String c EmptyString) (-1)) with (len a).
  2:{ unfold bound. change (-1 <? 0) with true. cbv iota. lia. }
  rewrite Z.sub_0_r. unfold len. rewrite Nat2Z.id. apply substring_prefix.
Qed.

End PyFacts.

(** * Properties of catalogs *)

Module CatalogProps.
Import Py PyFacts Message Catalog.

(** ** The frontier of the obsolete entries *)

Lemma obstop_loop_spec (msgs : list Message) (rounds obstop : nat) :
  (obstop <= rounds)%nat ->
  (obstop <= length msgs)%nat ->
  Forall (fun m => obsolete (body m) = true) (drop obstop msgs) ->
  let k := obstop_loop rounds msgs obstop in
  (k <= obstop)%nat
  /\ Forall (fun m => obsolete (body m) = true) (drop k msgs)
  /\ (forall j m, k = S j -> msgs !! j = Some m -> obsolete (body m) = false).
Proof.
  revert obstop. induction rounds as [|r IH]; intros obstop Hr Hl Hall; cbv zeta.
  - assert (obstop = 0%nat) as -> by lia. simpl. split; [lia|]. split; [done|]. done.
  - simpl. destruct obstop as [|o]; [split; [lia|]; split; done|].
    destruct (msgs !! o) as [m|] eqn:Hm.
    2:{ apply lookup_ge_None in Hm. lia. }
    destruct (obsolete (body m)) eqn:Ho.
    + destruct (IH o) as (H1 & H2 & H3); [lia | lia | |].
      { rewrite (drop_S _ _ _ Hm). by constructor. }
      split; [lia|]. split; [exact H2 | exact H3].
    + split; [lia|]. split; [exact Hall|].
      intros j m' [= <-] Hj. congruence.
Qed.

Lemma obsolete_frontier_spec (msgs : list Message) :
  let k := obsolete_frontier msgs in
  (k <= length msgs)%nat
  /\ Forall (fun m => obsolete (body m) = true) (drop k msgs)
  /\ (forall j m, k = S j -> msgs !! j = Some m -> obsolete (body m) = false).
Proof.
  unfold obsolete_frontier.
  destruct (obstop_loop_spec msgs (length msgs) (length msgs)) as (H1 & H2 & H3);
    [lia | lia | by rewrite drop_all |].
  done.
Qed.

(** ** The loop of [sync] *)

Section SyncLoop.

Variable wrapf : string -> string -> string -> list string.
Variable wrap_comment : string -> string -> list string.
Variable wrap_comment_unwrap : string -> string -> list string.
Variable escape : string -> string.

Local Abbreviation sync_loop := (sync_loop wrapf wrap_comment wrap_comment_unwrap escape).
Local Abbreviation write_in_order :=
  (write_in_order wrapf wrap_comment wrap_comment_unwrap escape).
Local Abbreviation to_lines := (to_lines wrapf wrap_comment wrap_comment_unwrap escape).

Lemma write_in_order_cons (force : bool) (m : Message) (rest : list Message)
    (flines : list string) :
  write_in_order force (m :: rest) flines =
  if remove_on_sync m then
    '(rest', flines') ← write_in_order force rest flines;
    Ok (m :: rest', flines')
  else
    '(lins, m') ← to_lines (force || negb (committed m)) m;
    flines ← ensure_last_line (flines ++ lins);
    '(rest', flines') ← write_in_order force rest flines;
    Ok (m' :: rest', flines').
Proof. reflexivity. Qed.

Lemma sync_loop_S (k : nat) (force noobsend : bool) (nmsgs obsins : nat)
    (msgs : list Message) (i obstop : nat) (flines : list string) :
  sync_loop (S k) force noobsend nmsgs obsins msgs i obstop flines =
  if (i <? nmsgs)%nat then
    match msgs !! i with
    | None => Raise IndexError
    | Some m =>
        if remove_on_sync m then
          sync_loop k force noobsend nmsgs obsins msgs (S i) obstop flines
        else if negb noobsend && obsolete (body m) && (i <? obstop)%nat then
          sync_loop k force noobsend nmsgs obsins (move i (obsins - 1) msgs)
            i (obstop - 1) flines
        else
          '(lins, m') ← to_lines (force || negb (committed m)) m;
          flines ← ensure_last_line (flines ++ lins);
          sync_loop k force noobsend nmsgs obsins (<[i := m']> msgs)
            (S i) obstop flines
    end
  else Ok (msgs, flines).
Proof. reflexivity. Qed.

(** Past the frontier, or when obsolete entries are left in place, the loop
    writes the remaining entries in their order. *)
Lemma sync_loop_rest (force noobsend : bool) (nmsgs obsins obstop : nat)
    (rest : list Message) :
  forall (rounds : nat) (processed : list Message) (flines : list string),
    nmsgs = (length processed + length rest)%nat ->
    (length rest <= rounds)%nat ->
    noobsend = true \/ (obstop <= length processed)%nat ->
    sync_loop rounds force noobsend nmsgs obsins (processed ++ rest)
      (length processed) obstop flines
    = '(r, f) ← write_in_order force rest flines; Ok (processed ++ r, f).
Proof.
  induction rest as [|m rest IH]; intros rounds processed flines Hn Hr Hobs.
  - simpl in Hn. assert ((length processed <? nmsgs)%nat = false) as Hlt
      by (apply Nat.ltb_ge; lia).
    destruct rounds; simpl; rewrite Hlt; done.
  - destruct rounds as [|k]; [simpl in Hr; lia|].
    simpl in Hn, Hr.
    assert ((length processed <? nmsgs)%nat = true) as Hlt by (apply Nat.ltb_lt; lia).
    assert (Hnext : processed ++ m :: rest = (processed ++ [m]) ++ rest)
      by (by rewrite <- app_assoc).
    assert (Hlen : S (length processed) = length (processed ++ [m]))
      by (rewrite length_app; simpl; lia).
    assert (Hhoist : negb noobsend && obsolete (body m)
                     && (length processed <? obstop)%nat = false).
    { destruct Hobs as [-> | Hle]; [done|].
      assert ((length processed <? obstop)%nat = false) as -> by (apply Nat.ltb_ge; lia).
      by rewrite andb_false_r. }
    rewrite sync_loop_S, write_in_order_cons.
    rewrite Hlt, list_lookup_middle by done.
    destruct (remove_on_sync m) eqn:Hrm.
    + rewrite Hnext, Hlen. rewrite IH; [| rewrite length_app; simpl; lia | lia |].
      2:{ destruct Hobs; [by left | right; rewrite length_app; simpl; lia]. }
      destruct (write_in_order force rest flines) as [[r f]|e]; simpl; [|done].
      by rewrite <- app_assoc.
    + rewrite Hhoist.
      destruct (to_lines (force || negb (committed m)) m) as [[lins m']|e]; simpl; [|done].
      destruct (ensure_last_line (flines ++ lins)) as [fl|e]; simpl; [|done].
      rewrite insert_app_r_alt by lia. rewrite Nat.sub_diag. simpl.
      assert (Hnext' : processed ++ m' :: rest = (processed ++ [m']) ++ rest)
        by (by rewrite <- app_assoc).
      assert (Hlen' : S (length processed) = length (processed ++ [m']))
        by (rewrite length_app; simpl; lia).
      rewrite Hnext', Hlen'. rewrite IH; [| rewrite length_app; simpl; lia | lia |].
      2:{ destruct Hobs; [by left | right; rewrite length_app; simpl; lia]. }
      destruct (write_in_order force rest fl) as [[r f]|e]; simpl; [|done].
      by rewrite <- app_assoc.
Qed.

Lemma move_middle (processed pending hoisted back : list Message) (x : Message) :
  move (length processed) (length processed + S (length pending) + length hoisted - 1)
    (processed ++ (x :: pending) ++ hoisted ++ back)
  = processed ++ pending ++ (hoisted ++ [x]) ++ back.
Proof.
  unfold move. rewrite <- app_comm_cons. rewrite list_lookup_middle by done.
  rewrite delete_middle.
  replace (processed ++ pending ++ hoisted ++ back)
    with ((processed ++ pending ++ hoisted) ++ back) by (by rewrite <- !app_assoc).
  rewrite take_app_length', drop_app_length' by (rewrite !length_app; lia).
  by rewrite <- !app_assoc.
Qed.

(** Before the frontier: the entries that stay are written as they come,
    the obsolete ones are set aside behind those set aside before. *)
Lemma sync_loop_front (force : bool) (pending : list Message) :
  forall (rounds : nat) (processed hoisted back : list Message) (flines : list string),
    (2 * length pending + length hoisted + length back <= rounds)%nat ->
    sync_loop rounds force false
      (length processed + length pending + length hoisted + length back)
      (length processed + length pending + length hoisted)
      (processed ++ pending ++ hoisted ++ back)
      (length processed) (length processed + length pending) flines
    = '(r, f) ← write_in_order force
                  (filter (fun m => stays m = true) pending ++ hoisted
                   ++ filter (fun m => stays m = false) pending ++ back) flines;
      Ok (processed ++ r, f).
Proof.
  induction pending as [|x pending IH]; intros rounds processed hoisted back flines Hr.
  - simpl. rewrite !Nat.add_0_r.
    apply sync_loop_rest; [rewrite length_app; lia | rewrite length_app; simpl in Hr; lia |].
    right; lia.
  - destruct rounds as [|k]; [simpl in Hr; lia|].
    simpl in Hr.
    assert ((length processed
             <? length processed + length (x :: pending) + length hoisted + length back)%nat
            = true) as Hlt by (apply Nat.ltb_lt; simpl; lia).
    assert ((length processed <? length processed + length (x :: pending))%nat = true)
      as Hfront by (apply Nat.ltb_lt; simpl; lia).
    rewrite sync_loop_S.
    change ((x :: pending) ++ hoisted ++ back) with (x :: pending ++ hoisted ++ back).
    rewrite Hlt. rewrite list_lookup_middle by done.
    assert (Hnext : forall y, processed ++ y :: pending ++ hoisted ++ back
                              = (processed ++ [y]) ++ pending ++ hoisted ++ back)
      by (intros y; by rewrite <- app_assoc).
    assert (Hlen : forall y, length (processed ++ [y]) = S (length processed))
      by (intros y; rewrite length_app; simpl; lia).
    destruct (remove_on_sync x) eqn:Hrm.
    + assert (stays x = true) as Hst by (unfold stays; by rewrite Hrm).
      rewrite filter_cons_True, filter_cons_False by (done || congruence).
      specialize (IH k (processed ++ [x]) hoisted back flines).
      rewrite Hlen in IH. rewrite Hnext.
      replace (length processed + length (x :: pending) + length hoisted + length back)%nat
        with (S (length processed) + length pending + length hoisted + length back)%nat
        by (simpl; lia).
      replace (length processed + length (x :: pending) + length hoisted)%nat
        with (S (length processed) + length pending + length hoisted)%nat by (simpl; lia).
      replace (length processed + length (x :: pending))%nat
        with (S (length processed) + length pending)%nat by (simpl; lia).
      rewrite IH by lia.
      rewrite <- app_comm_cons, write_in_order_cons, Hrm.
      destruct (write_in_order force _ flines) as [[r f]|e]; simpl; [|done].
      by rewrite <- app_assoc.
    + destruct (obsolete (body x)) eqn:Hob.
      * assert (stays x = false) as Hst by (unfold stays; by rewrite Hrm, Hob).
        rewrite filter_cons_False, filter_cons_True by (done || congruence).
        rewrite Hfront. simpl negb. cbv iota. simpl andb.
        replace (length processed + length (x :: pending) + length hoisted - 1)%nat
          with (length processed + S (length pending) + length hoisted - 1)%nat
          by (simpl; lia).
        change (x :: pending ++ hoisted ++ back) with ((x :: pending) ++ hoisted ++ back).
        rewrite move_middle.
        specialize (IH k processed (hoisted ++ [x]) back flines).
        rewrite length_app in IH. simpl in IH.
        replace (length processed + length (x :: pending) + length hoisted + length back)%nat
          with (length processed + length pending + (length hoisted + 1) + length back)%nat
          by (simpl; lia).
        replace (length processed + length (x :: pending) + length hoisted)%nat
          with (length processed + length pending + (length hoisted + 1))%nat
          by (simpl; lia).
        replace (length processed + length (x :: pending) - 1)%nat
          with (length processed + length pending)%nat by (simpl; lia).
        rewrite IH by lia.
        by rewrite <- !app_assoc.
      * assert (stays x = true) as Hst by (unfold stays; by rewrite Hrm, Hob).
        rewrite filter_cons_True, filter_cons_False by (done || congruence).
        simpl andb. cbv iota.
        rewrite <- app_comm_cons, write_in_order_cons, Hrm.
        destruct (to_lines (force || negb (committed x)) x) as [[lins x']|e]; simpl; [|done].
        destruct (ensure_last_line (flines ++ lins)) as [fl|e]; simpl; [|done].
        rewrite insert_app_r_alt by lia. rewrite Nat.sub_diag. simpl.
        specialize (IH k (processed ++ [x']) hoisted back fl).
        rewrite Hlen in IH.
        replace (processed ++ x' :: pending ++ hoisted ++ back)
          with ((processed ++ [x']) ++ pending ++ hoisted ++ back)
          by (by rewrite <- app_assoc).
        replace (length processed + S (length pending) + length hoisted + length back)%nat
          with (S (length processed) + length pending + length hoisted + length back)%nat
          by lia.
        replace (length processed + S (length pending) + length hoisted)%nat
          with (S (length processed) + length pending + length hoisted)%nat by lia.
        replace (length processed + S (length pending))%nat
          with (S (length processed) + length pending)%nat by lia.
        rewrite IH by lia.
        destruct (write_in_order force _ fl) as [[r f]|e]; simpl; [|done].
        by rewrite <- app_assoc.
Qed.

Lemma bind_ok_nil (r : result (list Message * list string)) :
  ('(l, f) ← r; Ok ([] ++ l, f)) = r.
Proof. by destruct r as [[l f]|e]. Qed.

(** With [noobsend] the entries are written in the order of the
    catalog. *)
Lemma sync_loop_noobsend (force : bool) (msgs : list Message) (obsins obstop : nat) :
  sync_loop (2 * length msgs) force true (length msgs) obsins msgs 0 obstop []
  = write_in_order force msgs [].
Proof.
  pose proof (sync_loop_rest force true (length msgs) obsins obstop msgs
                (2 * length msgs) [] []) as H.
  change ([] ++ msgs) with msgs in H.
  change (length (@nil Message)) with 0%nat in H.
  rewrite H; [apply bind_ok_nil | done | lia | by left].
Qed.

Lemma sync_loop_hoist (force : bool) (msgs : list Message) :
  sync_loop (2 * length msgs) force false (length msgs) (obsolete_frontier msgs) msgs
    0 (obsolete_frontier msgs) []
  = write_in_order force (hoist_obsolete msgs) [].
Proof.
  destruct (obsolete_frontier_spec msgs) as (Hk & _ & _). cbv zeta in Hk.
  set (k := obsolete_frontier msgs) in *.
  pose proof (sync_loop_front force (take k msgs) (2 * length msgs) [] [] (drop k msgs) [])
    as H.
  rewrite length_take, length_drop in H.
  change (length (@nil Message)) with 0%nat in H.
  change ([] ++ take k msgs ++ [] ++ drop k msgs) with (take k msgs ++ drop k msgs) in H.
  rewrite take_drop in H. rewrite !Nat.add_0_l in H.
  replace (k `min` length msgs + 0 + (length msgs - k))%nat with (length msgs) in H by lia.
  replace (k `min` length msgs + 0)%nat with k in H by lia.
  replace (k `min` length msgs)%nat with k in H by lia.
  rewrite H by lia. unfold hoist_obsolete. fold k.
  change ([] ++ filter (λ m : Message, stays m = false) (take k msgs) ++ drop k msgs)
    with (filter (λ m : Message, stays m = false) (take k msgs) ++ drop k msgs).
  apply bind_ok_nil.
Qed.

End SyncLoop.


(** ** The line cache of the parser *)

Section ParserCache.

Variable unescape : string -> string.
Variable lines : list string.

Local Abbreviation parse_line := (parse_line unescape false true lines).
Local Abbreviation parse_loop := (parse_loop unescape false true lines).












End ParserCache.

(** ** Clean entries are written from their cached lines *)

Section CleanSync.

Variable wrapf : string -> string -> string -> list string.
Variable wrap_comment : string -> string -> list string.
Variable wrap_comment_unwrap : string -> string -> list string.
Variable escape : string -> string.
Variable encode : string -> string -> option string.
Variable get_field_value : Message -> string -> option string.

Hypothesis encode_id : forall enc l, encode enc l = Some l.

Local Abbreviation to_lines := (to_lines wrapf wrap_comment wrap_comment_unwrap escape).
Local Abbreviation write_in_order :=
  (write_in_order wrapf wrap_comment wrap_comment_unwrap escape).
Local Abbreviation sync :=
  (sync wrapf wrap_comment wrap_comment_unwrap escape encode get_field_value).





Lemma Forall_filter_keep {A : Type} (P : A -> Prop) (Q : A -> Prop)
    `{forall x, Decision (Q x)} (l : list A) :
  Forall P l -> Forall P (filter Q l).
Proof.
  rewrite !Forall_forall. intros H' x Hx. apply H'.
  apply list_elem_of_filter in Hx. tauto.
Qed.





(** A monitored catalog without any change is not written. *)
Lemma sync_unmodified (noobsend : bool) (cat : Catalog) :
  truthy (strip (filename cat)) = true ->
  monitored cat = true ->
  cat_modcount cat = 0%nat ->
  sync false noobsend false cat = Ok (false, cat, None).
Proof.
  intros Hname Hmon Hmod. unfold Catalog.sync. rewrite Hname. simpl negb. cbv iota.
  assert (mkCatalog (filename cat) (monitored cat) (header cat) (messages cat)
            (encoding cat) (cat_tail cat) (own_modcount cat) (msgpos cat)
            (created_from_scratch cat) = cat) as -> by (by destruct cat).
  rewrite Hmon, Hmod. done.
Qed.



End CleanSync.

(** ** Loading *)

Section LoadFacts.

Variable enc_search : string -> option string.
Variable decode : string -> string -> option string.
Variable unescape : string -> string.

Hypothesis decode_id : forall enc l, decode enc l = Some l.




End LoadFacts.

(** ** Loading and writing back *)





End CatalogProps.
(** * Properties of the text resolvers *)

Module ResolveProps.
Import Py PyFacts Resolve.

(** On a text without the directive head the function is the identity. *)
Lemma resolve_alternatives_no_directive select total fmtstr condf althead
    (rounds : nat) (text : string) :
  find text althead 0 = -1 ->
  resolve_alternatives select total fmtstr condf althead (S rounds) text
  = Some (text, 0, false).
Proof.
  intros Hf. unfold resolve_alternatives, alt_loop.
  cbn [as_p as_new_text as_nresolved as_malformed]. change (-1 + 1) with 0.
  rewrite Hf. cbn. by rewrite slice_from_start.
Qed.

(** Whenever the function returns with the malformed mark, it returns the
    original text and no resolved directive. *)
Lemma resolve_alternatives_malformed_result select total fmtstr condf althead
    (rounds : nat) (text t : string) (n : Z) :
  resolve_alternatives select total fmtstr condf althead rounds text = Some (t, n, true) ->
  t = text /\ n = 0.
Proof.
  unfold resolve_alternatives.
  destruct (alt_loop _ _ _ _ _ _ _ _) as [st|]; [|done].
  destruct (as_malformed st); intros [= <- <-]; done.
Qed.

Lemma alt_loop_too_few (rounds : nat) (new_text : string) (malformed : bool) :
  alt_loop 1 2 None None "~@" rounds "~@/a" (mkAltState (-1) new_text 0 malformed) = None.
Proof.
  revert new_text malformed.
  induction rounds as [|k IH]; intros new_text malformed; [done|].
  cbn. apply IH.
Qed.

(** C4.  A directive that is cut short right after its head makes the
    function return the original text with no resolved directive and the
    malformed mark, and a text without directive is returned as it is; but
    on a directive with too few alternatives, as in [~@/a] with two
    alternatives expected, the function does not return at all: the loop
    starts over from the beginning of the text, whatever the number of
    rounds it is given. *)
Theorem resolve_alternatives_malformed_cases :
  (forall rounds, resolve_alternatives 1 2 None None "~@" (S rounds) "see ~@/"
                  = Some ("see ~@/", 0, true))
  /\ (forall rounds, resolve_alternatives 1 2 None None "~@" (S rounds) "plain"
                  = Some ("plain", 0, false))
  /\ (forall rounds, resolve_alternatives 1 2 None None "~@" rounds "~@/a" = None).
Proof.
  split; [|split].
  - intros rounds. reflexivity.
  - intros rounds. by apply resolve_alternatives_no_directive.
  - intros rounds. unfold resolve_alternatives. by rewrite alt_loop_too_few.
Qed.

Lemma remove_accelerator_default (rounds : nat) (text : string) :
  remove_accelerator rounds text None false = Some text.
Proof. reflexivity. Qed.



(** ** Entities: one scan *)

Lemma prefix_amp (c : ascii) (s : string) :
  String.prefix "&" (String c s) = Ascii.eqb c "&".
Proof.
  change (String.prefix "&" (String c s))
    with (if ascii_dec "&" c then String.prefix EmptyString s else false).
  destruct (ascii_dec "&" c) as [<- | Hne]; [by destruct s|].
  symmetry. apply Ascii.eqb_neq. congruence.
Qed.

Lemma find_in_amp (s : string) (i : Z) :
  find_in "&" s i = match cut_amp s with
                    | Some (pre, _) => i + len pre
                    | None => -1
                    end.
Proof.
  revert i. induction s as [|c s IH]; intros i; [done|].
  unfold find_in; fold find_in. rewrite prefix_amp. simpl.
  destruct (Ascii.eqb c "&"); [change (len EmptyString) with 0; lia|].
  rewrite IH. destruct (cut_amp s) as [[pre tail]|]; [|done].
  unfold len. simpl. lia.
Qed.

Lemma find_amp (s : string) :
  find s "&" 0 = match cut_amp s with
                 | Some (pre, _) => len pre
                 | None => -1
                 end.
Proof.
  unfold find. change (0 <? 0) with false. cbv iota.
  pose proof (len_nonneg s). destruct (Z.ltb_spec (len s) 0); [lia|].
  rewrite slice_from_start, find_in_amp.
  by destruct (cut_amp s) as [[pre tail]|].
Qed.

Lemma cut_amp_spec (s pre tail : string) :
  cut_amp s = Some (pre, tail) -> s = pre +:+ String "&" tail.
Proof.
  revert pre. induction s as [|c s IH]; intros pre; [done|]. simpl.
  destruct (Ascii.eqb c "&") eqn:E.
  - intros [= <- <-]. apply Ascii.eqb_eq in E. by subst.
  - destruct (cut_amp s) as [[p t]|]; [|done].
    intros [= <- <-]. rewrite str_app_cons. f_equal. by apply IH.
Qed.

Lemma cut_amp_none (s : string) : cut_amp s = None -> count_amp s = 0%nat.
Proof.
  induction s as [|c s IH]; [done|]. simpl.
  destruct (Ascii.eqb c "&"); [done|].
  destruct (cut_amp s) as [[p t]|]; [done|]. auto.
Qed.

Lemma cut_amp_pre (s pre tail : string) :
  cut_amp s = Some (pre, tail) -> count_amp pre = 0%nat.
Proof.
  revert pre. induction s as [|c s IH]; intros pre; [done|]. simpl.
  destruct (Ascii.eqb c "&") eqn:E.
  - by intros [= <- <-].
  - destruct (cut_amp s) as [[p t]|]; [|done].
    intros [= <- <-]. simpl. rewrite E. eauto.
Qed.

(** ** The pattern of entity names *)

Lemma span_app (f : ascii -> bool) (s a b y : string) (c : ascii) :
  span f s = (a, String c b) -> span f (s +:+ y) = (a, String c b +:+ y).
Proof.
  revert a. induction s as [|x s IH]; intros a; [done|].
  rewrite str_app_cons. simpl. destruct (f x) eqn:Hx.
  - destruct (span f s) as [a' b'] eqn:Hs. intros [= <- ->].
    by rewrite (IH a' eq_refl).
  - by intros [= <- <- <-].
Qed.

Lemma span_spec (f : ascii -> bool) (s a b : string) :
  span f s = (a, b) -> s = a +:+ b /\ str_all f a = true.
Proof.
  revert a. induction s as [|x s IH]; intros a.
  - by intros [= <- <-].
  - simpl. destruct (f x) eqn:Hx.
    + destruct (span f s) as [a' b'] eqn:Hs. intros [= <- <-].
      destruct (IH a' eq_refl) as [-> Ha]. simpl. by rewrite Hx.
    + by intros [= <- <-].
Qed.

Lemma span_before_amp (s z a r : string) :
  span tail_rest (s +:+ String "&" z) = (a, String ";" r) ->
  exists r', span tail_rest s = (a, String ";" r').
Proof.
  revert a. induction s as [|x s IH]; intros a.
  - rewrite str_app_nil_l. simpl. change (tail_rest "&") with false. done.
  - rewrite str_app_cons. simpl. destruct (tail_rest x) eqn:Hx.
    + destruct (span tail_rest (s +:+ String "&" z)) as [a' b'] eqn:Hs.
      intros [= <- ->]. destruct (IH a' eq_refl) as [r' ->]. eauto.
    + intros [= <- -> <-]. eauto.
Qed.

Lemma entity_tail_app (s y name rest : string) :
  entity_tail s = Some (name, rest) ->
  entity_tail (s +:+ y) = Some (name, rest +:+ y).
Proof.
  destruct s as [|c s]; [done|]. rewrite str_app_cons. simpl.
  destruct (tail_first c); [|done].
  destruct (span tail_rest s) as [a b] eqn:Hs.
  destruct b as [|x b]; [done|].
  rewrite (span_app _ _ _ _ _ _ Hs).
  destruct (Ascii.eqb x ";") eqn:Hx.
  - apply Ascii.eqb_eq in Hx. subst x. by intros [= <- <-].
  - intros H. exfalso. revert H. clear -Hx.
    destruct x as [[] [] [] [] [] [] [] []]; try done.
Qed.

Lemma entity_tail_before_amp (s z name r : string) :
  entity_tail (s +:+ String "&" z) = Some (name, r) ->
  exists r', entity_tail s = Some (name, r').
Proof.
  destruct s as [|c s].
  - rewrite str_app_nil_l. simpl. change (tail_first "&") with false. done.
  - rewrite str_app_cons. simpl. destruct (tail_first c); [|done].
    destruct (span tail_rest (s +:+ String "&" z)) as [a b] eqn:Hs.
    destruct b as [|x b]; [done|].
    destruct (Ascii.eqb x ";") eqn:Hx.
    + apply Ascii.eqb_eq in Hx. subst x.
      destruct (span_before_amp _ _ _ _ Hs) as [r' ->].
      intros [= <- <-]. eauto.
    + intros H. exfalso. revert H. clear -Hx.
      destruct x as [[] [] [] [] [] [] [] []]; try done.
Qed.

Lemma tail_rest_not_amp (s : string) : str_all tail_rest s = true -> count_amp s = 0%nat.
Proof.
  induction s as [|c s IH]; [done|]. simpl.
  intros [Hc Hs]%andb_true_iff.
  destruct (Ascii.eqb c "&") eqn:E; [|auto].
  apply Ascii.eqb_eq in E. subst c. done.
Qed.

Lemma entity_tail_spec (s name rest : string) :
  entity_tail s = Some (name, rest) ->
  s = name +:+ String ";" rest /\ count_amp name = 0%nat.
Proof.
  destruct s as [|c s]; [done|]. simpl.
  destruct (tail_first c) eqn:Hc; [|done].
  destruct (span tail_rest s) as [a b] eqn:Hs.
  destruct b as [|x b]; [done|].
  destruct (Ascii.eqb x ";") eqn:Hx.
  - apply Ascii.eqb_eq in Hx. subst x. intros [= <- <-].
    destruct (span_spec _ _ _ _ Hs) as [-> Ha]. split; [done|].
    simpl. rewrite (tail_rest_not_amp _ Ha).
    destruct (Ascii.eqb c "&") eqn:E; [|done].
    apply Ascii.eqb_eq in E. subst c. done.
  - intros H. exfalso. revert H. clear -Hx.
    destruct x as [[] [] [] [] [] [] [] []]; try done.
Qed.

(** ** The weight of a text goes down with every resolved entity *)

Section WeightFacts.

Variable entities : gmap string string.
Variable ignored_entities : gset string.
Variable W : string -> nat.
Variable Wtop : nat.

Local Abbreviation weight := (weight entities ignored_entities W Wtop).
Local Abbreviation amp_weight := (amp_weight entities ignored_entities W Wtop).
Local Abbreviation resolvable := (resolvable entities ignored_entities).

Hypothesis W_le_top : forall name, resolvable name = true -> (W name <= Wtop)%nat.
Hypothesis values_closed : closed_values entities.
Hypothesis value_below : forall name v,
  entities !! name = Some v -> (weight v < W name)%nat.

Lemma amp_weight_le_top (s : string) : (amp_weight s <= Wtop)%nat.
Proof.
  unfold Resolve.amp_weight. destruct (entity_tail s) as [[name rest]|]; [|lia].
  destruct (resolvable name) eqn:E; [auto | lia].
Qed.

Lemma weight_no_amp (x y : string) : count_amp x = 0%nat -> weight (x +:+ y) = weight y.
Proof.
  induction x as [|c x IH]; [done|]. rewrite str_app_cons. simpl.
  destruct (Ascii.eqb c "&"); [done|]. simpl. auto.
Qed.

Lemma weight_closed_app (v y : string) :
  amp_closed v = true -> weight (v +:+ y) = (weight v + weight y)%nat.
Proof.
  induction v as [|c v IH]; [done|]. rewrite str_app_cons. simpl.
  intros [Hc Hv]%andb_true_iff. rewrite (IH Hv).
  destruct (Ascii.eqb c "&"); [|lia].
  unfold Resolve.amp_weight.
  destruct (entity_tail v) as [[name rest]|] eqn:E; [|done].
  rewrite (entity_tail_app _ y _ _ E). lia.
Qed.

(** What the ampersands of [a] weigh can only go down when the ampersand
    that follows [a] is replaced by something else. *)
Lemma weight_replace_amp (a y z : string) :
  (weight (a +:+ y) + weight (String "&" z) <= weight (a +:+ String "&" z) + weight y)%nat.
Proof.
  induction a as [|c a IH]; [rewrite !str_app_nil_l; lia|].
  rewrite !str_app_cons.
  change (weight (String c (a +:+ y)))
    with ((if Ascii.eqb c "&" then amp_weight (a +:+ y) else 0) + weight (a +:+ y))%nat.
  change (weight (String c (a +:+ String "&" z)))
    with ((if Ascii.eqb c "&" then amp_weight (a +:+ String "&" z) else 0)
          + weight (a +:+ String "&" z))%nat.
  destruct (Ascii.eqb c "&"); [|lia].
  assert (amp_weight (a +:+ y) <= amp_weight (a +:+ String "&" z))%nat; [|lia].
  unfold Resolve.amp_weight at 2.
  destruct (entity_tail (a +:+ String "&" z)) as [[name r]|] eqn:E.
  - destruct (entity_tail_before_amp _ _ _ _ E) as [r' E'].
    unfold Resolve.amp_weight. by rewrite (entity_tail_app _ y _ _ E').
  - apply amp_weight_le_top.
Qed.

Local Abbreviation scan_loop := (scan_loop entities ignored_entities false).

Lemma scan_loop_step nalts althead (k : nat) (text : string) (acc : Scan) :
  scan_loop nalts althead (S k) text acc =
  match cut_amp text with
  | None => mkScan (sc_new_text acc +:+ text) (sc_resolved acc) (sc_unknown acc)
  | Some (pre, tail) =>
      let new_text := sc_new_text acc +:+ (pre +:+ "&") in
      match entity_tail tail with
      | Some (name, rest) =>
          if bool_decide (name ∈ ignored_entities) then
            scan_loop nalts althead k tail
              (mkScan new_text (sc_resolved acc) (sc_unknown acc))
          else
            match entities !! name with
            | Some v =>
                scan_loop nalts althead k rest
                  (mkScan (sc_new_text acc +:+ (pre +:+ v))
                     (sc_resolved acc ++ [name]) (sc_unknown acc))
            | None =>
                scan_loop nalts althead k tail
                  (mkScan new_text (sc_resolved acc) (sc_unknown acc ++ [name]))
            end
      | None =>
          scan_loop nalts althead k tail
            (mkScan new_text (sc_resolved acc) (sc_unknown acc))
      end
  end.
Proof.
  unfold Resolve.scan_loop at 1; fold (Resolve.scan_loop entities ignored_entities false).
  rewrite find_amp.
  destruct (cut_amp text) as [[pre tail]|] eqn:Hc.
  - pose proof (cut_amp_spec _ _ _ Hc) as Ht.
    pose proof (len_nonneg pre).
    destruct (Z.ltb_spec (len pre) 0); [lia|].
    assert (Hlen : len pre + 1 = len (pre +:+ "&")).
    { rewrite len_app. reflexivity. }
    rewrite Hlen. clear Hc. subst text. cbv zeta.
    replace (pre +:+ String "&" tail) with ((pre +:+ "&") +:+ tail)
      by (by rewrite str_app_assoc).
    rewrite slice_prefix, slice_from_suffix.
    destruct (entity_tail tail) as [[name rest]|]; [|done].
    destruct (bool_decide (name ∈ ignored_entities)); [done|].
    unfold lookup_name. simpl.
    destruct (entities !! name) as [v|]; [|done].
    rewrite <- !str_app_assoc. rewrite slice_drop_last. by rewrite str_app_assoc.
  - done.
Qed.

(** One scan: the weight of the result and the number of resolved entities
    together do not exceed the weight of the text; and when nothing is
    resolved the text comes out as it went in. *)
Lemma scan_loop_weight nalts althead (k : nat) :
  forall (text : string) (acc : Scan),
    (String.length text < k)%nat ->
    let r := scan_loop nalts althead k text acc in
    (weight (sc_new_text r) + length (sc_resolved r)
     <= weight (sc_new_text acc +:+ text) + length (sc_resolved acc))%nat
    /\ (length (sc_resolved acc) <= length (sc_resolved r))%nat
    /\ (length (sc_resolved r) = length (sc_resolved acc) ->
        sc_new_text r = sc_new_text acc +:+ text).
Proof.
  induction k as [|k IH]; intros text acc Hk; [lia|].
  cbv zeta. rewrite scan_loop_step.
  destruct (cut_amp text) as [[pre tail]|] eqn:Hc; [|simpl; split; [lia|done]].
  pose proof (cut_amp_spec _ _ _ Hc) as Ht.
  pose proof (cut_amp_pre _ _ _ Hc) as Hpre.
  assert (Hl : String.length text = (String.length pre + S (String.length tail))%nat).
  { rewrite Ht, str_length_app. reflexivity. }
  assert (Hsame : (sc_new_text acc +:+ (pre +:+ "&")) +:+ tail = sc_new_text acc +:+ text).
  { rewrite Ht, !str_app_assoc. reflexivity. }
  assert (Hkeep : forall u,
    let r := scan_loop nalts althead k tail
               (mkScan (sc_new_text acc +:+ (pre +:+ "&")) (sc_resolved acc) u) in
    (weight (sc_new_text r) + length (sc_resolved r)
     <= weight (sc_new_text acc +:+ text) + length (sc_resolved acc))%nat
    /\ (length (sc_resolved acc) <= length (sc_resolved r))%nat
    /\ (length (sc_resolved r) = length (sc_resolved acc) ->
        sc_new_text r = sc_new_text acc +:+ text)).
  { intros u. specialize (IH tail
      (mkScan (sc_new_text acc +:+ (pre +:+ "&")) (sc_resolved acc) u)).
    cbv zeta in IH. simpl in IH. rewrite Hsame in IH. apply IH. lia. }
  cbv zeta.
  destruct (entity_tail tail) as [[name rest]|] eqn:He; [|apply Hkeep].
  destruct (bool_decide (name ∈ ignored_entities)) eqn:Hi; [apply Hkeep|].
  destruct (entities !! name) as [v|] eqn:Hv; [|apply Hkeep].
  destruct (entity_tail_spec _ _ _ He) as [Htail Hname].
  specialize (IH rest (mkScan (sc_new_text acc +:+ (pre +:+ v))
                         (sc_resolved acc ++ [name]) (sc_unknown acc))).
  cbv zeta in IH. simpl in IH. rewrite length_app in IH. simpl in IH.
  destruct IH as (IH1 & IH2 & IH3).
  { rewrite Htail, str_length_app in Hl. simpl in Hl. lia. }
  split; [|split; [lia | intros; lia]].
  assert (Hold : weight (sc_new_text acc +:+ text)
                 = (weight ((sc_new_text acc +:+ pre) +:+ String "&" tail))%nat).
  { by rewrite Ht, str_app_assoc. }
  assert (Hnew : ((sc_new_text acc +:+ (pre +:+ v)) +:+ rest)
                 = (sc_new_text acc +:+ pre) +:+ (v +:+ rest)).
  { by rewrite !str_app_assoc. }
  rewrite Hnew in IH1.
  pose proof (weight_replace_amp (sc_new_text acc +:+ pre) (v +:+ rest) tail) as Hrep.
  rewrite (weight_closed_app v rest (values_closed _ _ Hv)) in Hrep.
  assert (Hamp : weight (String "&" tail) = (W name + weight rest)%nat).
  { assert (Hres : resolvable name = true).
    { unfold Resolve.resolvable. rewrite Hi. simpl.
      apply bool_decide_eq_true_2. rewrite Hv. eauto. }
    change (weight (String "&" tail)) with (amp_weight tail + weight tail)%nat.
    unfold Resolve.amp_weight. rewrite He, Hres.
    f_equal. rewrite Htail.
    replace (name +:+ String ";" rest) with ((name +:+ ";") +:+ rest)
      by (by rewrite str_app_assoc).
    apply weight_no_amp.
    clear -Hname. induction name as [|c n IHn]; [done|].
    rewrite str_app_cons. simpl in *. destruct (Ascii.eqb c "&"); [done|]. auto. }
  pose proof (value_below _ _ Hv). lia.
Qed.

Lemma scan_weight nalts althead (text : string) :
  let r := scan entities ignored_entities false nalts althead text in
  (weight (sc_new_text r) + length (sc_resolved r) <= weight text)%nat
  /\ (sc_resolved r = [] -> sc_new_text r = text).
Proof.
  cbv zeta. unfold scan.
  destruct (scan_loop_weight nalts althead (S (String.length text)) text
              (mkScan EmptyString [] [])) as (H1 & _ & H3); [lia|].
  cbv zeta in H1, H3.
  set (r := Resolve.scan_loop _ _ _ _ _ _ _ _) in *.
  cbn [sc_new_text sc_resolved length] in H1, H3. rewrite str_app_nil_l in H1, H3.
  split; [lia|]. intros Hr. apply H3. by rewrite Hr.
Qed.

Lemma resolve_entities_bounded nalts althead (m : nat) :
  forall text : string,
    (weight text < m)%nat ->
    exists t r u,
      (forall d, (m <= d)%nat ->
         resolve_entities entities ignored_entities false nalts althead d text
         = Some (t, r, u))
      /\ sc_resolved (scan entities ignored_entities false nalts althead t) = [].
Proof.
  induction m as [|m IH]; intros text Hm; [lia|].
  destruct (scan_weight nalts althead text) as [Hw Hfix].
  cbv zeta in Hw, Hfix.
  destruct (sc_resolved (scan entities ignored_entities false nalts althead text))
    as [|x l] eqn:Hr.
  - exists text, [], (sc_unknown (scan entities ignored_entities false nalts althead text)).
    split.
    + intros [|d] Hd; [lia|]. simpl. rewrite Hr. simpl. by rewrite (Hfix eq_refl).
    + exact Hr.
  - simpl in Hw.
    destruct (IH (sc_new_text (scan entities ignored_entities false nalts althead text)))
      as (t & r & u & Hres & Hstop); [lia|].
    exists t, ((x :: l) ++ r),
      (sc_unknown (scan entities ignored_entities false nalts althead text) ++ u).
    split; [|exact Hstop].
    intros [|d] Hd; [lia|]. simpl. rewrite Hr. simpl.
    rewrite Hres by lia. done.
Qed.

End WeightFacts.

Lemma map_bounded (f : string -> string -> nat) (m : gmap string string) :
  exists b, forall n v, m !! n = Some v -> (f n v <= b)%nat.
Proof.
  induction m as [|k x m Hk _ [b Hb]] using map_first_key_ind.
  - exists 0%nat. intros n v. by rewrite lookup_empty.
  - exists (Nat.max b (f k x)). intros n v [[-> ->] | [Hne Hn]]%lookup_insert_Some.
    + lia.
    + specialize (Hb _ _ Hn). lia.
Qed.

Lemma weight_closed_bound entities ignored_entities W Wtop (c : nat) (v : string) :
  amp_closed v = true ->
  (forall m, In m (references v) -> resolvable entities ignored_entities m = true ->
             (W m <= c)%nat) ->
  (weight entities ignored_entities W Wtop v <= count_amp v * c)%nat.
Proof.
  induction v as [|x v IH]; [simpl; lia|]. simpl.
  intros [Hx Hv]%andb_true_iff Hm.
  assert (weight entities ignored_entities W Wtop v <= count_amp v * c)%nat as Hrec.
  { apply IH; [done|]. intros m Hin. apply Hm. apply in_or_app. by right. }
  destruct (Ascii.eqb x "&"); [|lia].
  unfold amp_weight. destruct (entity_tail v) as [[name rest]|]; [|done].
  destruct (resolvable entities ignored_entities name) eqn:Hres; [|lia].
  specialize (Hm name (or_introl eq_refl) Hres). lia.
Qed.

(** C9 (as stated).  The value graph of [looping_entities] is acyclic, its
    only edge goes from [a] to [b]; yet on the text [&a;] the function
    never returns, however deep the recursive calls may nest: the scan of
    [&a;] gives [&a&b;], whose scan gives [&a;] again. *)
Lemma resolve_entities_acyclic_counterexample :
  acyclic looping_entities
  /\ forall depth,
       resolve_entities looping_entities ∅ false 0 DEFAULT_ALTHEAD depth "&a;" = None.
Proof.
  split.
  - exists looping_rank. intros n v m Hn Hin Hm. unfold looping_entities in Hn.
    apply lookup_insert_Some in Hn as [[<- <-] | [_ Hn]].
    + destruct Hin as [<- | []]. vm_compute. lia.
    + apply lookup_singleton_Some in Hn as [<- <-]. destruct Hin.
  - assert (Ha : scan looping_entities ∅ false 0 DEFAULT_ALTHEAD "&a;"
                 = mkScan "&a&b;" ["a"] []) by (vm_compute; reflexivity).
    assert (Hb : scan looping_entities ∅ false 0 DEFAULT_ALTHEAD "&a&b;"
                 = mkScan "&a;" ["b"] []) by (vm_compute; reflexivity).
    assert (Hboth : forall depth,
      resolve_entities looping_entities ∅ false 0 DEFAULT_ALTHEAD depth "&a;" = None
      /\ resolve_entities looping_entities ∅ false 0 DEFAULT_ALTHEAD depth "&a&b;" = None).
    { induction depth as [|d [IHa IHb]]; [done|].
      split.
      - change (resolve_entities looping_entities ∅ false 0 DEFAULT_ALTHEAD (S d) "&a;")
          with (let s := scan looping_entities ∅ false 0 DEFAULT_ALTHEAD "&a;" in
                if (0 <? length (sc_resolved s))%nat then
                  match resolve_entities looping_entities ∅ false 0 DEFAULT_ALTHEAD d
                          (sc_new_text s) with
                  | Some (new_text, resolved_extra, unknown_extra) =>
                      Some (new_text, sc_resolved s ++ resolved_extra,
                            sc_unknown s ++ unknown_extra)
                  | None => None
                  end
                else Some (sc_new_text s, sc_resolved s, sc_unknown s)).
        cbv zeta. rewrite Ha. simpl. by rewrite IHb.
      - change (resolve_entities looping_entities ∅ false 0 DEFAULT_ALTHEAD (S d) "&a&b;")
          with (let s := scan looping_entities ∅ false 0 DEFAULT_ALTHEAD "&a&b;" in
                if (0 <? length (sc_resolved s))%nat then
                  match resolve_entities looping_entities ∅ false 0 DEFAULT_ALTHEAD d
                          (sc_new_text s) with
                  | Some (new_text, resolved_extra, unknown_extra) =>
                      Some (new_text, sc_resolved s ++ resolved_extra,
                            sc_unknown s ++ unknown_extra)
                  | None => None
                  end
                else Some (sc_new_text s, sc_resolved s, sc_unknown s)).
        cbv zeta. rewrite Hb. simpl. by rewrite IHa. }
    intros depth. apply Hboth.
Qed.

(** C9 (amended).  Without the capitalization fallback, for every text and
    every entity map whose value graph is acyclic and in whose values
    every ampersand starts a complete reference, [resolve_entities]
    returns once the recursive calls may nest deeply enough: each call
    scans the text and calls again on the result when the scan resolved an
    entity, and the text it returns is one on which a scan resolves
    nothing. *)
Theorem resolve_entities_terminates (entities : gmap string string)
    (ignored_entities : gset string) (nalts : Z) (althead text : string) :
  acyclic entities ->
  closed_values entities ->
  exists depth t r u,
    (forall d, (depth <= d)%nat ->
       resolve_entities entities ignored_entities false nalts althead d text
       = Some (t, r, u))
    /\ sc_resolved (scan entities ignored_entities false nalts althead t) = [].
Proof.
  intros [rank Hrank] Hclosed.
  destruct (map_bounded (fun _ v => count_amp v) entities) as [B HB].
  destruct (map_bounded (fun n _ => rank n) entities) as [R HR].
  set (W := fun n => (S B ^ rank n)%nat).
  set (Wtop := (S B ^ R)%nat).
  assert (Hdef : forall name, resolvable entities ignored_entities name = true ->
                              is_Some (entities !! name)).
  { intros name [_ H]%andb_true_iff. by apply bool_decide_eq_true in H. }
  assert (Htop : forall name, resolvable entities ignored_entities name = true ->
                              (W name <= Wtop)%nat).
  { intros name [v Hv]%Hdef. apply Nat.pow_le_mono_r; [lia | eauto]. }
  assert (Hbelow : forall name v, entities !! name = Some v ->
            (weight entities ignored_entities W Wtop v < W name)%nat).
  { intros name v Hv. unfold W at 2.
    pose proof (HB _ _ Hv) as Hcount. simpl in Hcount.
    destruct (rank name) as [|r] eqn:Hr.
    - assert (weight entities ignored_entities W Wtop v <= count_amp v * 0)%nat.
      { apply weight_closed_bound; [eauto|].
        intros m Hin Hm%Hdef. specialize (Hrank _ _ _ Hv Hin Hm). lia. }
      simpl. lia.
    - assert (weight entities ignored_entities W Wtop v <= count_amp v * S B ^ r)%nat.
      { apply weight_closed_bound; [eauto|].
        intros m Hin Hm%Hdef. specialize (Hrank _ _ _ Hv Hin Hm).
        apply Nat.pow_le_mono_r; lia. }
      assert (S B ^ r <> 0)%nat by (apply Nat.pow_nonzero; lia).
      rewrite Nat.pow_succ_r'. nia. }
  exists (S (weight entities ignored_entities W Wtop text)).
  apply (resolve_entities_bounded entities ignored_entities W Wtop Htop Hclosed Hbelow).
  lia.
Qed.

Lemma resolve_entities_terminates_witness :
  exists depth t r u,
    (forall d, (depth <= d)%nat ->
       resolve_entities nested_entities ∅ false 0 DEFAULT_ALTHEAD d "p &a; q"
       = Some (t, r, u))
    /\ sc_resolved (scan nested_entities ∅ false 0 DEFAULT_ALTHEAD t) = [].
Proof.
  apply resolve_entities_terminates.
  - exists looping_rank. intros n v m Hn Hin Hm. unfold nested_entities in Hn.
    apply lookup_insert_Some in Hn as [[<- <-] | [_ Hn]].
    + destruct Hin as [<- | []]. vm_compute. lia.
    + apply lookup_singleton_Some in Hn as [<- <-]. destruct Hin.
  - intros n v Hn. unfold nested_entities in Hn.
    apply lookup_insert_Some in Hn as [[<- <-] | [_ Hn]]; [reflexivity|].
    apply lookup_singleton_Some in Hn as [<- <-]. reflexivity.
Defined.

End ResolveProps.

(** * Properties of the rule-file parser *)

Module RulesProps.
Import Py Rules.

(** C5.  The line is [hint=Qa\QbQ] followed by [\d] and the closing
    quote, where Q stands for the double quote.  The quote character is
    the double quote that follows the equal sign, and the field value that
    [_parseRuleLine] returns is the text between the quotes as it stands:
    the backslash before the escaped quote is still there, like the one
    before [d].  The text with the first backslash removed is assembled
    inside [_findEndQuote] but not returned. *)
Theorem quoted_value_keeps_backslash :
  let raw := "a" +:+ bs +:+ dq +:+ "b" +:+ bs +:+ "d" in
  let line := ln ("hint=" +:+ quoted raw) in
  _parseRuleLine [line] 1 = Ok ([("hint", Some raw)], 1)
  /\ unescaped_value line 5 = Ok ("a" +:+ dq +:+ "b" +:+ bs +:+ "d")
  /\ _findEndQuote line 5 = Ok 12.
Proof. split; [|split]; vm_compute; reflexivity. Qed.




End RulesProps.

(** * Further properties of message entries *)

Module MessageMore.
Import Py Message MessageProps Catalog.

(** ** [state] *)

(** X1.  The state code tells the three translation states apart: it is
    [T] or [OT] exactly for translated entries, [F] or [OF] exactly for
    fuzzy ones, and [U] or [OU], the code of the last branch, exactly for
    untranslated ones; it starts with [O] exactly for obsolete entries. *)
Theorem state_partition (m : Message) :
  (state m = "T" \/ state m = "OT" <-> translated m = true)
  /\ (state m = "F" \/ state m = "OF" <-> fuzzy m = true)
  /\ (state m = "U" \/ state m = "OU" <-> untranslated m = true)
  /\ String.prefix "O" (state m) = obsolete (body m).
Proof.
  unfold state, translated, untranslated.
  destruct (obsolete (body m)), (fuzzy m), (existsb truthy (msgstr (body m)));
    simpl; repeat split; intros; try done;
    repeat match goal with H : _ \/ _ |- _ => destruct H end;
    try discriminate; auto.
Qed.

(** ** [merge] *)

Lemma frame_refl (a : Message) : merge_frame a a.
Proof. unfold merge_frame. repeat split; auto. Qed.

Lemma frame_trans (a b c : Message) :
  merge_frame a b -> merge_frame b c -> merge_frame a c.
Proof.
  unfold merge_frame.
  intros (?&?&?&?&?&?&?&?&?&?&?&?&?&Hu) (Hk&?&?&?&?&?&?&?&?&?&?&?&?&Hu').
  repeat split; try congruence; try lia.
  intros Hka. rewrite Hu' by congruence. auto.
Qed.

Lemma frame_bump (att : string) (a : Message) : merge_frame a (bump att a).
Proof.
  unfold merge_frame, bump. destruct (kind a) eqn:E; simpl; rewrite ?E;
    repeat split; auto; try lia; try congruence.
Qed.

Lemma frame_bump_n (n : nat) (att : string) (a : Message) :
  merge_frame a (bump_n n att a).
Proof.
  revert a. induction n as [|n IH]; intros a; simpl; [apply frame_refl|].
  eapply frame_trans; [apply frame_bump | apply IH].
Qed.

Lemma frame_with_body (f : Body -> Body) (a : Message) :
  msgctxt (f (body a)) = msgctxt (body a) ->
  msgid (f (body a)) = msgid (body a) ->
  obsolete (f (body a)) = obsolete (body a) ->
  auto_comment (f (body a)) = auto_comment (body a) ->
  source (f (body a)) = source (body a) ->
  refline (f (body a)) = refline (body a) ->
  refentry (f (body a)) = refentry (body a) ->
  flag (f (body a)) ∖ {["fuzzy"]} = flag (body a) ∖ {["fuzzy"]} ->
  merge_frame a (with_body f a).
Proof. unfold merge_frame. simpl. intros. repeat split; auto. Qed.

Lemma frame_assign_msgctxt_previous v a : merge_frame a (assign_msgctxt_previous v a).
Proof.
  unfold assign_msgctxt_previous. cbv zeta. case_decide.
  - apply frame_with_body; reflexivity.
  - (eapply frame_trans; [|apply frame_bump]); apply frame_with_body; reflexivity.
Qed.

Lemma frame_assign_msgid_previous v a : merge_frame a (assign_msgid_previous v a).
Proof.
  unfold assign_msgid_previous. cbv zeta. case_decide.
  - apply frame_with_body; reflexivity.
  - (eapply frame_trans; [|apply frame_bump]); apply frame_with_body; reflexivity.
Qed.

Lemma frame_assign_msgid_plural_previous v a :
  merge_frame a (assign_msgid_plural_previous v a).
Proof.
  unfold assign_msgid_plural_previous. cbv zeta. case_decide.
  - apply frame_with_body; reflexivity.
  - (eapply frame_trans; [|apply frame_bump]); apply frame_with_body; reflexivity.
Qed.

Lemma frame_assign_msgid_plural v a : merge_frame a (assign_msgid_plural v a).
Proof.
  unfold assign_msgid_plural. cbv zeta. case_decide.
  - apply frame_with_body; reflexivity.
  - (eapply frame_trans; [|apply frame_bump]); apply frame_with_body; reflexivity.
Qed.

Lemma frame_set_fuzzy (val : bool) (a : Message) : merge_frame a (set_fuzzy val a).
Proof.
  unfold set_fuzzy. destruct val.
  - unfold flag_add. cbv zeta. case_decide.
    + apply frame_with_body; simpl; auto; set_solver.
    + eapply frame_trans; [|apply frame_bump].
      apply frame_with_body; simpl; auto; set_solver.
  - eapply frame_trans; [|apply frame_assign_msgid_plural_previous].
    eapply frame_trans; [|apply frame_assign_msgid_previous].
    eapply frame_trans; [|apply frame_assign_msgctxt_previous].
    destruct (fuzzy a); [|apply frame_refl].
    unfold flag_remove. eapply frame_trans; [|apply frame_bump].
    apply frame_with_body; simpl; auto; set_solver.
Qed.

Lemma frame_overwrite_manual_comment other a :
  merge_frame a (overwrite_manual_comment other a).
Proof.
  unfold overwrite_manual_comment.
  (eapply frame_trans; [|apply frame_bump_n]); apply frame_with_body; reflexivity.
Qed.

Lemma frame_overwrite_msgstr other a : merge_frame a (overwrite_msgstr other a).
Proof.
  unfold overwrite_msgstr.
  (eapply frame_trans; [|apply frame_bump_n]); apply frame_with_body; reflexivity.
Qed.

Lemma frame_copy_previous other a : merge_frame a (copy_previous other a).
Proof.
  unfold copy_previous.
  eapply frame_trans; [|apply frame_assign_msgid_plural_previous].
  eapply frame_trans; [|apply frame_assign_msgid_previous].
  apply frame_assign_msgctxt_previous.
Qed.

Lemma frame_when (c : bool) (f : Message -> Message) (a : Message) :
  (forall x, merge_frame x (f x)) -> merge_frame a (when c f a).
Proof. intros Hf. destruct c; simpl; [apply Hf | apply frame_refl]. Qed.

Ltac frame_step :=
  first [ apply frame_set_fuzzy | apply frame_overwrite_msgstr
        | apply frame_assign_msgid_plural | apply frame_copy_previous
        | apply frame_overwrite_manual_comment
        | apply frame_when; intros; frame_step ].

Ltac frame_chain :=
  repeat first [ apply frame_refl | eapply frame_trans; [|frame_step] ].

Lemma key_of_frame (a b : Message) : merge_frame a b -> key b = key a.
Proof.
  intros (_ & Hc & Hi & _). unfold key, _compose, get. simpl. by rewrite Hc, Hi.
Qed.

(** X2.  Whatever [merge] does to the target entry, it leaves its key, its
    context and [msgid], the obsolete mark, the extracted comments, the
    source references, the flags other than [fuzzy], the line caches and
    the catalog marks as they were, and no counter goes down; the returned
    flag tells whether the top counter went up, so for an unmonitored
    entry, which counts nothing, it is always [False]. *)
Theorem merge_keeps_identity (self other m' : Message) (changed : bool) :
  merge self other = Ok (changed, m') ->
  merge_frame self m'
  /\ key m' = key self
  /\ (changed = true <-> (modcount self < modcount m')%nat)
  /\ (kind self = MessageUnsafe -> changed = false).
Proof.
  unfold merge. intros H.
  destruct (negb (key self =? key other)%string); [discriminate|].
  assert (Hgoal : forall x, merge_frame self x ->
            Ok (bool_decide (modcount self < modcount x)%nat, x) = Ok (changed, m') ->
            merge_frame self m' /\ key m' = key self
            /\ (changed = true <-> (modcount self < modcount m')%nat)
            /\ (kind self = MessageUnsafe -> changed = false)).
  { intros x Hx [= <- <-]. split; [done|]. split; [by apply key_of_frame|].
    split; [apply bool_decide_eq_true|].
    intros Hk. apply bool_decide_eq_false.
    destruct Hx as (_&_&_&_&_&_&_&_&_&_&_&_&_&Hu). rewrite (Hu Hk). lia. }
  destruct (obsolete (body self) || obsolete (body other)).
  { injection H as <- <-. split; [apply frame_refl|]. split; [done|].
    split; [|done]. split; [done | lia]. }
  revert H. apply Hgoal.
  repeat match goal with
         | |- merge_frame _ (if ?c then _ else _) => destruct c
         end; frame_chain.
Qed.

Lemma merge_keeps_identity_witness :
  exists changed m',
    merge (sample None "open" false) (set_fuzzy true (sample None "open" false))
    = Ok (changed, m')
    /\ key m' = key (sample None "open" false)
    /\ (changed = true <-> (0 < modcount m')%nat).
Proof.
  destruct (merge (sample None "open" false) (set_fuzzy true (sample None "open" false)))
    as [[changed m']|e] eqn:E; [|exfalso; revert E; vm_compute; congruence].
  exists changed, m'. split; [reflexivity|].
  destruct (merge_keeps_identity _ _ _ _ E) as (_ & Hk & Hc & _).
  split; [exact Hk | exact Hc].
Defined.

Lemma with_body_same (f : Body -> Body) (m : Message) :
  f (body m) = body m -> with_body f m = m.
Proof. intros H. unfold with_body. rewrite H. by destruct m. Qed.

Lemma overwrite_changes_same (l : list string) : overwrite_changes l l = 0%nat.
Proof.
  induction l as [|x l IH]; [done|]. simpl. rewrite IH.
  by rewrite decide_True.
Qed.

Lemma three_states (m : Message) :
  translated m || fuzzy m || untranslated m = true.
Proof.
  unfold translated, untranslated.
  by destruct (fuzzy m), (existsb truthy (msgstr (body m))).
Qed.

(** X3.  Merging an entry that is not obsolete with an entry equal to it
    changes nothing and reports no change; and for an obsolete one the
    same holds by the test at the start. *)
Theorem merge_same_entry (m : Message) : merge m m = Ok (false, m).
Proof.
  unfold merge. rewrite String.eqb_refl. simpl.
  destruct (obsolete (body m)); simpl; [done|].
  assert (negb (is_set (msgid_plural (body m))) && is_set (msgid_plural (body m)) = false)
    as -> by (by destruct (msgid_plural (body m))).
  assert ((translated m && translated m) || (fuzzy m && fuzzy m)
          || (untranslated m && untranslated m) = true) as ->.
  { rewrite !andb_diag. pose proof (three_states m) as H.
    by destruct (translated m), (fuzzy m), (untranslated m). }
  assert (Hmc : overwrite_manual_comment m m = m).
  { unfold overwrite_manual_comment. rewrite overwrite_changes_same. simpl.
    apply with_body_same. by destruct (body m). }
  assert (Hpl : assign_msgid_plural (msgid_plural (body m)) m = m).
  { unfold assign_msgid_plural. rewrite decide_True by done.
    apply with_body_same. by destruct (body m). }
  unfold when. destruct (bool_decide (manual_comment (body m) = [])); rewrite ?Hmc;
    destruct (is_set (msgid_plural (body m))); rewrite ?Hpl;
    by rewrite bool_decide_eq_false_2 by lia.
Qed.

Lemma body_bump_n (n : nat) (att : string) (m : Message) :
  body (bump_n n att m) = body m.
Proof. revert m. induction n as [|n IH]; intros m; simpl; [done|]. by rewrite IH, body_bump. Qed.

Lemma body_overwrite_manual_comment (other m : Message) :
  body (overwrite_manual_comment other m)
  = set_manual_comment (manual_comment (body other)) (body m).
Proof. unfold overwrite_manual_comment. by rewrite body_bump_n. Qed.

Lemma body_overwrite_msgstr (other m : Message) :
  body (overwrite_msgstr other m) = set_msgstr (msgstr (body other)) (body m).
Proof. unfold overwrite_msgstr. by rewrite body_bump_n. Qed.

Lemma body_assign_msgid_plural v m :
  body (assign_msgid_plural v m) = set_msgid_plural v (body m).
Proof. unfold assign_msgid_plural. cbv zeta. case_decide; by rewrite ?body_bump. Qed.

Lemma frame_modcount (a b : Message) : merge_frame a b -> (modcount a <= modcount b)%nat.
Proof. by intros (_&_&_&_&_&_&_&_&_&_&_&_&H&_). Qed.

Lemma frame_kind (a b : Message) : merge_frame a b -> kind b = kind a.
Proof. by intros (H&_). Qed.

Lemma set_fuzzy_false_counts (m : Message) :
  kind m = MessageMonitored -> fuzzy m = true ->
  (modcount m < modcount (set_fuzzy false m))%nat.
Proof.
  intros Hk Hf. unfold set_fuzzy. rewrite Hf.
  assert (H1 : (modcount m < modcount (flag_remove "fuzzy" m))%nat).
  { unfold flag_remove, bump. simpl. rewrite Hk. simpl. lia. }
  pose proof (frame_modcount _ _
    (frame_assign_msgctxt_previous None (flag_remove "fuzzy" m))) as H2.
  pose proof (frame_modcount _ _
    (frame_assign_msgid_previous None
       (assign_msgctxt_previous None (flag_remove "fuzzy" m)))) as H3.
  pose proof (frame_modcount _ _
    (frame_assign_msgid_plural_previous None
       (assign_msgid_previous None
          (assign_msgctxt_previous None (flag_remove "fuzzy" m))))) as H4.
  lia.
Qed.

(** X4.  When a fuzzy entry receives a translated one with the same key
    and the same [msgid_plural], neither of them obsolete, it takes over
    the translation and the manual comments of the other entry and is
    unfuzzied: the [fuzzy] flag goes and the three previous-fields are
    cleared, so the entry ends up translated; a monitored entry reports
    the change. *)
Theorem merge_translation_into_fuzzy (self other : Message) :
  key self = key other ->
  obsolete (body self) = false -> obsolete (body other) = false ->
  fuzzy self = true -> translated other = true ->
  msgid_plural (body self) = msgid_plural (body other) ->
  exists changed m',
    merge self other = Ok (changed, m')
    /\ msgstr (body m') = msgstr (body other)
    /\ manual_comment (body m') = manual_comment (body other)
    /\ fuzzy m' = false /\ translated m' = true
    /\ msgctxt_previous (body m') = None
    /\ msgid_previous (body m') = None
    /\ msgid_plural_previous (body m') = None
    /\ (kind self = MessageMonitored -> changed = true).
Proof.
  intros Hkey Hos Hoo Hfs Hto Hpl.
  assert (Hfo : fuzzy other = false).
  { unfold translated in Hto. by destruct (fuzzy other). }
  assert (Hex : existsb truthy (msgstr (body other)) = true).
  { unfold translated in Hto. by rewrite Hfo in Hto. }
  unfold merge. rewrite Hkey, String.eqb_refl, Hos, Hoo. simpl.
  rewrite Hpl.
  assert (negb (is_set (msgid_plural (body other))) && is_set (msgid_plural (body other))
          = false) as -> by (by destruct (msgid_plural (body other))).
  assert (Hts : translated self = false) by (unfold translated; by rewrite Hfs).
  assert (Hus : untranslated self = false) by (unfold untranslated; by rewrite Hfs).
  rewrite Hts, Hus, Hfs, Hfo, Hto. simpl.
  set (m1 := overwrite_manual_comment other self).
  assert (Hm1 : msgid_plural (body m1) = msgid_plural (body other)).
  { unfold m1. rewrite body_overwrite_manual_comment. simpl. done. }
  assert (negb (is_set (msgid_plural (body m1))) || is_set (msgid_plural (body other))
          = true) as ->.
  { rewrite Hm1. by destruct (msgid_plural (body other)). }
  set (m2 := when (is_set (msgid_plural (body other)))
               (assign_msgid_plural (msgid_plural (body other))) m1).
  assert (Hb2 : body m2 = body m1).
  { unfold m2, when. destruct (is_set (msgid_plural (body other))); [|done].
    rewrite body_assign_msgid_plural. rewrite <- Hm1. by destruct (body m1). }
  set (m3 := overwrite_msgstr other m2).
  assert (Hb3 : body m3 = set_msgstr (msgstr (body other)) (body m1)).
  { unfold m3. by rewrite body_overwrite_msgstr, Hb2. }
  assert (Hp3 : msgid_plural (body m3) = msgid_plural (body other)).
  { by rewrite Hb3. }
  rewrite (bool_decide_eq_true_2 _ Hp3).
  change (when true (set_fuzzy false) m3) with (set_fuzzy false m3).
  assert (Hf3 : fuzzy m3 = true).
  { unfold fuzzy. rewrite Hb3. unfold m1.
    rewrite body_overwrite_manual_comment. exact Hfs. }
  assert (Hms : msgstr (body m3) = msgstr (body other)) by (by rewrite Hb3).
  assert (Hmc : manual_comment (body m3) = manual_comment (body other)).
  { rewrite Hb3. unfold m1. by rewrite body_overwrite_manual_comment. }
  assert (Hfr : merge_frame self m3).
  { unfold m3, m2, m1. frame_chain. }
  clearbody m3. clear Hb3 Hb2 Hm1. clear m2 m1.
  eexists _, _. split; [reflexivity|].
  pose proof (body_set_fuzzy_false m3) as Hbf.
  assert (Hff : fuzzy (set_fuzzy false m3) = false).
  { unfold fuzzy. rewrite Hbf. apply bool_decide_eq_false.
    cbn [flag set_msgid_plural_previous set_msgid_previous set_msgctxt_previous set_flag].
    set_solver. }
  split; [by rewrite Hbf|]. split; [by rewrite Hbf|]. split; [exact Hff|].
  split; [unfold translated; rewrite Hff, Hbf; cbn [msgstr set_msgid_plural_previous
            set_msgid_previous set_msgctxt_previous set_flag]; by rewrite Hms|].
  split; [by rewrite Hbf|]. split; [by rewrite Hbf|]. split; [by rewrite Hbf|].
  intros Hk. apply bool_decide_eq_true.
  pose proof (frame_modcount _ _ Hfr).
  assert (Hk3 : kind m3 = MessageMonitored) by (by rewrite (frame_kind _ _ Hfr)).
  pose proof (set_fuzzy_false_counts m3 Hk3 Hf3). lia.
Qed.

Lemma merge_translation_into_fuzzy_witness :
  exists changed m',
    merge (set_fuzzy true (sample None "open" false)) (sample None "open" false)
    = Ok (changed, m')
    /\ msgstr (body m') = ["tr"] /\ fuzzy m' = false /\ changed = true.
Proof.
  destruct (merge_translation_into_fuzzy
              (set_fuzzy true (sample None "open" false)) (sample None "open" false))
    as (changed & m' & Hm & Hs & _ & Hf & _ & _ & _ & _ & Hc);
    try (vm_compute; reflexivity).
  exists changed, m'. split; [exact Hm|]. split; [exact Hs|]. split; [exact Hf|].
  apply Hc. reflexivity.
Defined.

(** ** Rendering *)

Lemma flags_fold (l acc : list string) :
  fold_left (fun flst fl => if String.eqb fl "fuzzy" then fl :: flst else flst ++ [fl]) l acc
  = filter (fun fl => fl = "fuzzy") l ++ acc ++ filter (fun fl => fl <> "fuzzy") l.
Proof.
  revert acc. induction l as [|x l IH]; intros acc; simpl.
  - by rewrite app_nil_r.
  - rewrite IH. destruct (String.eqb x "fuzzy") eqn:E.
    + apply String.eqb_eq in E. subst x.
      rewrite filter_cons_True by done. rewrite filter_cons_False by (intros H; by apply H).
      clear IH. induction (filter (fun fl => fl = "fuzzy") l) as [|y r IHr] eqn:Ef; [done|].
      assert (y = "fuzzy") as ->.
      { assert (Hin : y ∈ filter (fun fl => fl = "fuzzy") l) by (rewrite Ef; left).
        by apply list_elem_of_filter in Hin as [? _]. }
      simpl. f_equal.
      assert (Hall : Forall (fun fl => fl = "fuzzy") r).
      { apply Forall_forall. intros z Hz.
        assert (Hin : z ∈ filter (fun fl => fl = "fuzzy") l) by (rewrite Ef; by right).
        by apply list_elem_of_filter in Hin as [? _]. }
      clear -Hall. induction Hall as [|z r -> _ IHr]; [done|]. simpl. by rewrite IHr.
    + apply String.eqb_neq in E.
      rewrite filter_cons_False by done. rewrite filter_cons_True by done.
      by rewrite <- !app_assoc.
Qed.

(** X5.  The flag line lists the [fuzzy] flag first: the flags are put out
    as the occurrences of [fuzzy] followed by the other flags in their
    order; for flags without repetition, as the elements of a set are,
    this is [fuzzy] followed by the others when [fuzzy] is among them, and
    the flags as they come otherwise. *)
Theorem flags_fuzzy_first_spec (flags : list string) :
  flags_fuzzy_first flags
  = filter (fun fl => fl = "fuzzy") flags ++ filter (fun fl => fl <> "fuzzy") flags
  /\ (NoDup flags ->
      flags_fuzzy_first flags
      = if bool_decide ("fuzzy" ∈ flags)
        then "fuzzy" :: filter (fun fl => fl <> "fuzzy") flags
        else flags).
Proof.
  assert (H : flags_fuzzy_first flags
              = filter (fun fl => fl = "fuzzy") flags
                ++ filter (fun fl => fl <> "fuzzy") flags).
  { unfold flags_fuzzy_first. by rewrite flags_fold. }
  split; [exact H|]. intros Hnd. rewrite H. clear H.
  induction Hnd as [|x l Hx Hnd IH]; [done|].
  destruct (decide (x = "fuzzy")) as [->|Hne].
  - rewrite bool_decide_eq_true_2 by left.
    rewrite filter_cons_True by done. rewrite filter_cons_False by (intros H; by apply H).
    rewrite bool_decide_eq_false_2 in IH by done.
    assert (filter (fun fl => fl <> "fuzzy") l = l) as Hl.
    { clear -Hx. induction l as [|y l IHl]; [done|].
      rewrite filter_cons_True by (intros ->; apply Hx; left).
      f_equal. apply IHl. intros H. apply Hx. by right. }
    assert (filter (fun fl => fl = "fuzzy") l = []) as ->; [|done].
    rewrite Hl in IH. by apply app_inv_tail with (l := l).
  - rewrite filter_cons_False by done. rewrite filter_cons_True by done.
    destruct (decide ("fuzzy" ∈ l)) as [Hin|Hin'].
    + rewrite bool_decide_eq_true_2 by (by right).
      rewrite bool_decide_eq_true_2 in IH by done.
      assert (Hf : filter (fun fl => fl = "fuzzy") l = ["fuzzy"]).
      { apply app_inv_tail with (l := filter (fun fl => fl <> "fuzzy") l). exact IH. }
      by rewrite Hf.
    + rewrite bool_decide_eq_false_2
        by (intros H; apply elem_of_cons in H as [H|H]; [by apply Hne | done]).
      rewrite bool_decide_eq_false_2 in IH by done.
      assert (filter (fun fl => fl <> "fuzzy") l = l) as Hl.
      { clear -Hin'. induction l as [|y l IHl]; [done|].
        rewrite filter_cons_True by (intros ->; apply Hin'; left).
        f_equal. apply IHl. intros H. apply Hin'. by right. }
      rewrite Hl in *.
      assert (filter (fun fl => fl = "fuzzy") l = []) as ->; [|done].
      by apply app_inv_tail with (l := l).
Qed.

Lemma flags_fuzzy_first_spec_witness :
  flags_fuzzy_first ["c-format"; "fuzzy"; "no-wrap"] = ["fuzzy"; "c-format"; "no-wrap"].
Proof.
  rewrite (proj2 (flags_fuzzy_first_spec ["c-format"; "fuzzy"; "no-wrap"])).
  - reflexivity.
  - repeat constructor; set_solver.
Defined.

Section RenderingFacts.

Variable wrapf : string -> string -> string -> list string.
Variable wrap_comment wrap_comment_unwrap : string -> string -> list string.
Variable escape : string -> string.

Local Abbreviation to_lines := (to_lines wrapf wrap_comment wrap_comment_unwrap escape).
Local Abbreviation _renew_lines :=
  (_renew_lines wrapf wrap_comment wrap_comment_unwrap escape).
Local Abbreviation _renew_lines_bymod :=
  (_renew_lines_bymod wrapf wrap_comment wrap_comment_unwrap escape).
Local Abbreviation renew_single := (renew_single wrapf escape).

(** [b] is [a] with other line caches. *)
Local Abbreviation only_lines a b := (b = with_lines (lines b) a).

Lemma only_lines_refl (a : Message) : only_lines a a.
Proof. by destruct a. Qed.

Lemma only_lines_trans (a b c : Message) :
  only_lines a b -> only_lines b c -> only_lines a c.
Proof. intros Hb Hc. rewrite Hc at 1. rewrite Hb at 1. reflexivity. Qed.

Lemma only_lines_if (c : bool) (name : string) (l : list string) (a : Message) :
  only_lines a (if c then set_cache name l a else a).
Proof. destruct c; [reflexivity | apply only_lines_refl]. Qed.

Lemma only_lines_renew_single mod_ force pc pp (a : Message) (att : string) :
  only_lines a (renew_single mod_ force pc pp a att).
Proof.
  unfold Message.renew_single.
  destruct (renewed mod_ force att a); [|apply only_lines_refl].
  destruct (is_set (single_field att a) || bool_decide (att ∈ _Message_mandatory_fields));
    [|reflexivity].
  by destruct (endswith att "_previous").
Qed.

Lemma only_lines_fold mod_ force pc pp (atts : list string) (a : Message) :
  only_lines a (fold_left (renew_single mod_ force pc pp) atts a).
Proof.
  revert a. induction atts as [|att atts IH]; intros a; simpl; [apply only_lines_refl|].
  eapply only_lines_trans; [apply only_lines_renew_single | apply IH].
Qed.

Lemma ensure_last_line_last (l l' : list string) :
  ensure_last_line l = Ok l' -> last l' = Some nl.
Proof.
  unfold ensure_last_line. destruct (last l) as [x|] eqn:E; [|done].
  destruct (String.eqb x nl) eqn:Ex; intros [= <-].
  - apply String.eqb_eq in Ex. by subst x.
  - by rewrite last_snoc.
Qed.

Lemma cache_set_cache (name : string) (l : list string) (m : Message) :
  cache name (set_cache name l m) = l.
Proof. unfold cache, set_cache. simpl. by rewrite lookup_insert_eq. Qed.

Lemma renew_bymod_frame mod_ force (m m' : Message) :
  _renew_lines_bymod mod_ force m = Ok m' ->
  only_lines m m' /\ last (cache "all" m') = Some nl.
Proof.
  unfold Message._renew_lines_bymod. cbv zeta.
  match goal with
  | |- (x ← ensure_last_line ?l; Ok (set_cache "all" x ?M)) = _ -> _ =>
      set (lins := l); set (M6 := M)
  end.
  destruct (ensure_last_line lins) as [l'|e] eqn:E; simpl; [|done].
  intros [= <-]. split.
  - eapply only_lines_trans; [|reflexivity]. unfold M6.
    eapply only_lines_trans; [|apply only_lines_if].
    eapply only_lines_trans; [|apply only_lines_fold].
    eapply only_lines_trans; [|apply only_lines_if].
    eapply only_lines_trans; [|apply only_lines_if].
    eapply only_lines_trans; [|apply only_lines_if].
    apply only_lines_if.
  - rewrite cache_set_cache. by apply ensure_last_line_last in E.
Qed.

Lemma renew_frame force (m m' : Message) :
  _renew_lines force m = Ok m' ->
  only_lines m m' /\ last (cache "all" m') = Some nl.
Proof.
  unfold Message._renew_lines.
  destruct (kind m); [destruct (negb (counted "obsolete" m))|]; apply renew_bymod_frame.
Qed.

(** X6.  [to_lines] returns the lines it has cached as the image of the
    whole entry, at least one, and changes nothing in the entry but the
    line caches: no field and no counter.  Whenever it renders anew
    (forced, or a modified entry, or one without cached image), the image
    ends with an empty line. *)
Theorem to_lines_frame (force : bool) (m m' : Message) (ls : list string) :
  to_lines force m = Ok (ls, m') ->
  ls = cache "all" m' /\ ls <> []
  /\ m' = with_lines (lines m') m
  /\ (force = true \/ modcount m <> 0%nat \/ cache "all" m = [] -> last ls = Some nl).
Proof.
  unfold Message.to_lines.
  destruct (force || negb (Nat.eqb (modcount m) 0) || is_empty (cache "all" m)) eqn:C.
  - destruct (_renew_lines force m) as [m1|e] eqn:E; simpl; [|done].
    intros [= <- <-]. apply renew_frame in E as [Hf Hl].
    repeat split; auto. intros H. by rewrite H in Hl.
  - intros [= <- <-].
    apply orb_false_iff in C as [C1 C3]. apply orb_false_iff in C1 as [C1 C2].
    apply negb_false_iff, Nat.eqb_eq in C2.
    repeat split.
    + intros H. by rewrite H in C3.
    + apply only_lines_refl.
    + intros [H | [H | H]]; [congruence | done | by rewrite H in C3].
Qed.

Lemma msgstr_lines_nonempty (pc : string) (i : Z) (l : list string) :
  (forall f t p, wrapf f t p <> []) -> l <> [] -> msgstr_lines wrapf escape pc i l <> [].
Proof.
  intros Hw Hl. destruct l as [|x l]; [done|]. simpl.
  intros H. apply app_eq_nil in H as [H _]. by apply Hw in H.
Qed.

Lemma renew_bymod_returns mod_ force (m : Message) :
  (forall f t p, wrapf f t p <> []) ->
  exists m', _renew_lines_bymod mod_ force m = Ok m'.
Proof.
  intros Hw. unfold Message._renew_lines_bymod. cbv zeta.
  match goal with
  | |- context [fold_left ?f ?l ?x] => set (M5 := fold_left f l x)
  end.
  match goal with
  | |- exists m', (x ← ensure_last_line _; Ok (set_cache "all" x ?M)) = _ =>
      set (M6 := M)
  end.
  match goal with
  | |- exists m', (x ← ensure_last_line ?l; _) = _ => set (lins := l)
  end.
  assert (Hne : cache "msgstr" M6 <> []).
  { unfold M6.
    match goal with |- cache _ (if ?c then _ else _) <> [] => destruct c eqn:C end.
    - rewrite cache_set_cache.
      destruct (is_set (msgid_plural (body M5))).
      + apply msgstr_lines_nonempty; [done|]. by destruct (msgstr (body M5)).
      + apply Hw.
    - apply orb_false_iff in C as [C _]. apply orb_false_iff in C as [C _].
      apply orb_false_iff in C as [_ C]. by destruct (cache "msgstr" M5). }
  assert (Hl : exists x, last lins = Some x).
  { unfold lins. rewrite !app_assoc.
    destruct (cache "msgstr" M6) as [|y r] using rev_ind; [done|].
    rewrite app_assoc, last_snoc. eauto. }
  destruct Hl as [x Hx]. unfold ensure_last_line. rewrite Hx.
  destruct (String.eqb x nl); simpl; eauto.
Qed.

(** X7.  With a field wrapper that never gives an empty list of lines,
    [to_lines] always returns and never raises: the [msgstr] lines are
    there whatever else the entry has, so the test on the last line of the
    image finds a line. *)
Theorem to_lines_returns (force : bool) (m : Message) :
  (forall f t p, wrapf f t p <> []) ->
  exists ls m', to_lines force m = Ok (ls, m').
Proof.
  intros Hw. unfold Message.to_lines.
  destruct (force || negb (Nat.eqb (modcount m) 0) || is_empty (cache "all" m));
    [|eauto].
  assert (H : exists m', _renew_lines force m = Ok m').
  { unfold Message._renew_lines.
    destruct (kind m); [destruct (negb (counted "obsolete" m))|];
      by apply renew_bymod_returns. }
  destruct H as [m' ->]. simpl. eauto.
Qed.

End RenderingFacts.

Lemma to_lines_frame_witness :
  exists ls m',
    Message.to_lines one_line_wrapf one_line_comment one_line_comment same_text
      true (sample None "open" false) = Ok (ls, m')
    /\ last ls = Some nl /\ body m' = body (sample None "open" false).
Proof.
  destruct (Message.to_lines one_line_wrapf one_line_comment one_line_comment same_text
              true (sample None "open" false)) as [[ls m']|e] eqn:E;
    [|exfalso; revert E; vm_compute; congruence].
  exists ls, m'. split; [reflexivity|].
  destruct (to_lines_frame one_line_wrapf one_line_comment one_line_comment same_text
              true _ _ _ E) as (_ & _ & Hm & Hl).
  split; [apply Hl; by left | by rewrite Hm].
Defined.

Lemma to_lines_returns_witness :
  exists ls m',
    Message.to_lines one_line_wrapf one_line_comment one_line_comment same_text
      false (empty_header MessageUnsafe) = Ok (ls, m').
Proof.
  apply (to_lines_returns one_line_wrapf one_line_comment one_line_comment same_text
           false (empty_header MessageUnsafe)).
  intros f t p. unfold one_line_wrapf. discriminate.
Defined.

End MessageMore.
(** * Further properties of the text resolvers *)

(** ** Positions found by [find], lengths of slices *)

Module PyMore.
Import Py PyFacts.

Lemma length_substring (s : string) (n m : nat) :
  String.length (substring n m s) = Nat.min m (String.length s - n).
Proof.
  revert n m. induction s as [|c s IH]; intros n m.
  - destruct n, m; reflexivity.
  - destruct n as [|n]; simpl.
    + destruct m as [|m]; simpl; [done|]. rewrite IH. simpl. lia.
    + rewrite IH. lia.
Qed.

Lemma len_slice (s : string) (a b : Z) :
  0 <= a <= b -> b <= len s -> len (slice s a b) = b - a.
Proof.
  intros Ha Hb. unfold slice. rewrite !bound_inside by lia.
  unfold len in *. rewrite length_substring. lia.
Qed.

Lemma len_slice_from (s : string) (a : Z) :
  0 <= a <= len s -> len (slice_from s a) = len s - a.
Proof. intros Ha. unfold slice_from. apply len_slice; lia. Qed.

Lemma prefix_length (p s : string) :
  String.prefix p s = true -> (String.length p <= String.length s)%nat.
Proof.
  revert s. induction p as [|c p IH]; intros s H; simpl; [lia|].
  destruct s as [|d s]; simpl in *; [done|].
  destruct (ascii_dec c d); [|done]. apply IH in H. lia.
Qed.

Lemma find_in_range (sub s : string) (i : Z) :
  find_in sub s i = -1
  \/ (i <= find_in sub s i /\ find_in sub s i + len sub <= i + len s).
Proof.
  revert i. induction s as [|c s IH]; intros i.
  - unfold find_in. destruct (String.prefix sub EmptyString) eqn:E; [|by left].
    right. apply prefix_length in E. unfold len. simpl in *. lia.
  - change (find_in sub (String c s) i)
      with (if String.prefix sub (String c s) then i else find_in sub s (i + 1)).
    destruct (String.prefix sub (String c s)) eqn:E.
    + right. apply prefix_length in E. unfold len. simpl in *. lia.
    + destruct (IH (i + 1)) as [H | H]; [by left | right].
      unfold len in *. simpl. lia.
Qed.

Lemma find_range (s sub : string) (start : Z) :
  0 <= start ->
  find s sub start = -1
  \/ (start <= find s sub start /\ find s sub start + len sub <= len s).
Proof.
  intros Hs. unfold find. destruct (Z.ltb_spec start 0); [lia|].
  destruct (Z.ltb_spec (len s) start); [by left|].
  pose proof (find_in_range sub (slice_from s start) start) as Hf.
  rewrite len_slice_from in Hf by lia.
  destruct Hf as [Hf | Hf]; [by left | right; lia].
Qed.

End PyMore.

Module ResolveMore.
Import Py PyFacts PyMore Resolve ResolveProps.

(** ** [resolve_alternatives_simple] *)

(** X8.  [resolve_alternatives_simple] returns the text as it is when the
    directive head does not occur in it; and whenever
    [resolve_alternatives] reports a malformed directive, the text it
    returns is the original one and the number of resolved directives is
    zero, so that the simple variant returns the original text too. *)
Theorem resolve_alternatives_simple_identity (select : positive) (total : nat)
    (fmtstr : option (string -> string)) (condf : option (list string -> bool))
    (althead : string) (rounds : nat) (text : string) :
  (find text althead 0 = -1 ->
   resolve_alternatives select total fmtstr condf althead (S rounds) text
   = Some (text, 0, false)
   /\ resolve_alternatives_simple select total fmtstr condf althead (S rounds) text
      = Some text)
  /\ (forall t n,
        resolve_alternatives select total fmtstr condf althead rounds text
        = Some (t, n, true) ->
        t = text /\ n = 0
        /\ resolve_alternatives_simple select total fmtstr condf althead rounds text
           = Some text).
Proof.
  split.
  - intros H. unfold resolve_alternatives_simple.
    by rewrite resolve_alternatives_no_directive.
  - intros t n H. unfold resolve_alternatives_simple. rewrite H.
    by apply resolve_alternatives_malformed_result in H as [-> ->].
Qed.

Lemma resolve_alternatives_simple_identity_witness :
  resolve_alternatives_simple 1 2 None None "~@" 1 "plain" = Some "plain"
  /\ resolve_alternatives_simple 1 2 None None "~@" 3 "see ~@/" = Some "see ~@/".
Proof.
  split.
  - apply (proj1 (resolve_alternatives_simple_identity 1 2 None None "~@" 0 "plain")).
    reflexivity.
  - apply (proj2 (resolve_alternatives_simple_identity 1 2 None None "~@" 3 "see ~@/")
             "see ~@/" 0).
    reflexivity.
Defined.

(** ** [remove_accelerator] *)

Lemma accel_each_no_marker (rounds : nat) (accels : list string) (text : string) :
  Forall (fun a => find text a 0 = -1) accels ->
  accel_each (S rounds) accels text = Some text.
Proof.
  induction 1 as [|a l Ha _ IH]; [done|].
  change (accel_each (S rounds) (a :: l) text)
    with (match accel_loop (S rounds) a text 0 with
          | Some text' => accel_each (S rounds) l text'
          | None => None
          end).
  assert (accel_loop (S rounds) a text 0 = Some text) as ->; [|exact IH].
  simpl. by rewrite Ha.
Qed.

(** X9.  A text in which none of the markers occurs is returned as it is,
    whatever the markers (those given, or the usual ones in greedy mode)
    and whatever the mode. *)
Theorem remove_accelerator_no_marker (rounds : nat) (text : string)
    (accels : option (list string)) (greedy : bool) :
  Forall (fun a => find text a 0 = -1)
    (match accels with
     | Some l => l
     | None => if greedy then _usual_accels else []
     end) ->
  remove_accelerator (S rounds) text accels greedy = Some text.
Proof.
  intros H. unfold remove_accelerator.
  destruct accels as [l|]; [by apply accel_each_no_marker|].
  destruct greedy; [by apply accel_each_no_marker | done].
Qed.

Lemma remove_accelerator_no_marker_witness :
  remove_accelerator 1 "Foo Bar" None true = Some "Foo Bar".
Proof.
  apply (remove_accelerator_no_marker 0 "Foo Bar" None true).
  repeat constructor.
Defined.

(** ** [resolve_entities] *)

Section Names.

Variable entities : gmap string string.
Variable ignored_entities : gset string.
Variable fcap : bool.
Variable nalts : Z.
Variable althead : string.

Local Abbreviation scan_loop := (scan_loop entities ignored_entities fcap nalts althead).
Local Abbreviation known := (fun n : string => is_Some (entities !! n)).
Local Abbreviation unknown := (fun n : string => entities !! n = None).

Lemma scan_loop_names (k : nat) :
  forall (text : string) (acc : Scan),
    Forall known (sc_resolved acc) -> Forall unknown (sc_unknown acc) ->
    Forall known (sc_resolved (scan_loop k text acc))
    /\ Forall unknown (sc_unknown (scan_loop k text acc)).
Proof.
  induction k as [|k IH]; intros text acc Hr Hu; [done|].
  simpl. destruct (find text "&" 0 <? 0); [done|].
  destruct (entity_tail _) as [[name rest]|]; [|by apply IH].
  destruct (bool_decide (name ∈ ignored_entities)); [by apply IH|].
  destruct (entities !! lookup_name entities fcap name) as [v|] eqn:E.
  - apply IH; simpl; [|done]. apply Forall_app. split; [done|].
    repeat constructor. by rewrite E.
  - apply IH; simpl; [done|]. apply Forall_app. split; [done|].
    by repeat constructor.
Qed.

(** X10.  Whatever [resolve_entities] returns, the names it reports as
    resolved are all defined in the entity map, and the names it reports as
    unknown are not; this holds with the capitalization fallback too,
    where the names reported are those looked up. *)
Theorem resolve_entities_names (depth : nat) :
  forall (text t : string) (r u : list string),
    resolve_entities entities ignored_entities fcap nalts althead depth text
    = Some (t, r, u) ->
    Forall (fun n => is_Some (entities !! n)) r
    /\ Forall (fun n => entities !! n = None) u.
Proof.
  induction depth as [|d IH]; intros text t r u H; [done|].
  simpl in H.
  destruct (scan_loop_names (S (String.length text)) text (mkScan EmptyString [] []))
    as [Hr Hu]; [done | done |].
  fold (scan entities ignored_entities fcap nalts althead text) in Hr, Hu.
  destruct (0 <? length (sc_resolved _))%nat.
  - destruct (resolve_entities _ _ _ _ _ d _) as [[[t' r'] u']|] eqn:E; [|done].
    injection H as <- <- <-. apply IH in E as [Hr' Hu'].
    split; apply Forall_app; done.
  - by injection H as <- <- <-.
Qed.

End Names.

Lemma resolve_entities_names_witness :
  exists t r u,
    resolve_entities nested_entities ∅ false 0 DEFAULT_ALTHEAD 3 "p &a; &c; q"
    = Some (t, r, u)
    /\ Forall (fun n => is_Some (nested_entities !! n)) r
    /\ Forall (fun n => nested_entities !! n = None) u.
Proof.
  destruct (resolve_entities nested_entities ∅ false 0 DEFAULT_ALTHEAD 3 "p &a; &c; q")
    as [[[t r] u]|] eqn:E; [|exfalso; revert E; vm_compute; congruence].
  exists t, r, u. split; [reflexivity|].
  exact (resolve_entities_names nested_entities ∅ false 0 DEFAULT_ALTHEAD 3 _ _ _ _ E).
Defined.

(** ** [expand_vars] *)

Lemma join_one (s : string) : join EmptyString [s] = s.
Proof. reflexivity. Qed.

(** X11.  A text in which the directive head does not occur is returned as
    it is, whatever the variables. *)
Theorem expand_vars_no_head (text : string) (varmap : gmap string string)
    (head : string) :
  find text head 0 = -1 -> expand_vars text varmap head = Some (Expanded text).
Proof.
  intros H. unfold expand_vars.
  change (expand_loop (S (String.length text)) text varmap head 0 [])
    with (if 0 <? len text
          then
            let p := find text head 0 in
            if p <? 0 then Some (Expanded (join EmptyString ([] ++ [slice_from text 0])))
            else
              let ntext := [] ++ [slice text 0 p] in
              let p := p + len head in
              if (p <? len text) && String.eqb (slice text p (p + len head)) head then
                expand_loop (String.length text) text varmap head (p + len head)
                  (ntext ++ [head])
              else if p =? len text then
                Some (NameError "trailing-off expansion directive" (p - len head))
              else
                let braced :=
                  match index text p with Some c => Ascii.eqb c "{" | None => false end in
                let p := if braced then p + 1 else p in
                let pp := p in
                let p := name_end (String.length text) text braced p in
                if braced && (p =? len text) then
                  Some (NameError "unclosed expansion directive" (pp - 1 - len head))
                else
                  let varname := slice text pp p in
                  let p := if braced then p + 1 else p in
                  match varmap !! varname with
                  | None => Some (NameError ("unknown variable " +:+ varname) pp)
                  | Some varvalue =>
                      expand_loop (String.length text) text varmap head p
                        (ntext ++ [varvalue])
                  end
          else Some (Expanded (join EmptyString []))).
  destruct (Z.ltb_spec 0 (len text)) as [Hl|Hl].
  - cbv zeta. rewrite H. simpl. by rewrite slice_from_start.
  - destruct text; [done|]. unfold len in Hl. simpl in Hl. lia.
Qed.

Lemma expand_vars_no_head_witness :
  expand_vars "Mary had a little lamb." {["mammal" := "lamb"]} "%"
  = Some (Expanded "Mary had a little lamb.").
Proof. apply expand_vars_no_head. reflexivity. Defined.

Lemma name_end_ge (k : nat) (text : string) (braced : bool) :
  forall p, p <= name_end k text braced p.
Proof.
  induction k as [|k IH]; intros p; simpl; [lia|].
  destruct (p <? len text); [|lia].
  destruct (index text p) as [c|]; [|lia].
  destruct (_ || _); [lia|]. specialize (IH (p + 1)). lia.
Qed.

Lemma expand_loop_returns (varmap : gmap string string) (head text : string) (k : nat) :
  0 < len head ->
  forall (p : Z) (ntext : list string),
    0 <= p -> (Z.to_nat (len text - p) < k)%nat ->
    exists r, expand_loop k text varmap head p ntext = Some r.
Proof.
  intros Hh. induction k as [|k IH]; intros p ntext Hp Hk; [lia|].
  cbn [expand_loop]. cbv zeta.
  destruct (Z.ltb_spec p (len text)) as [Hlt|]; [|eauto].
  destruct (find_range text head p Hp) as [Hf | [Hf1 Hf2]].
  { rewrite Hf. simpl. eauto. }
  destruct (Z.ltb_spec (find text head p) 0); [eauto|].
  set (q := find text head p) in *.
  destruct (_ && _).
  { apply IH; lia. }
  destruct (q + len head =? len text); [eauto|].
  set (braced := match index text (q + len head) with
                 | Some c => Ascii.eqb c "{"
                 | None => false
                 end).
  set (p1 := if braced then q + len head + 1 else q + len head).
  pose proof (name_end_ge (String.length text) text braced p1) as Hn.
  destruct (braced && _); [eauto|].
  destruct (varmap !! _); [|eauto].
  apply IH; destruct braced; unfold p1 in *; lia.
Qed.

(** X12.  With a directive head that is not empty, [expand_vars] always
    comes to an end, with the expanded text or with a [NameError]: every
    round of its loop moves on in the text by at least the length of the
    head. *)
Theorem expand_vars_returns (text : string) (varmap : gmap string string)
    (head : string) :
  head <> EmptyString ->
  exists r, expand_vars text varmap head = Some r.
Proof.
  intros Hh. unfold expand_vars. apply expand_loop_returns.
  - destruct head; [done|]. unfold len. simpl. lia.
  - lia.
  - unfold len. lia.
Qed.

Lemma expand_vars_returns_witness :
  exists r, expand_vars "Quite a %{critic}esque play." {["critic" := "burl"]} "%" = Some r.
Proof. apply expand_vars_returns. discriminate. Defined.

End ResolveMore.
(** * Case change of the first letter *)

Module ResolveCase.
Import Py PyFacts PyMore Resolve.

Lemma len_str_map (f : ascii -> ascii) (s : string) : len (str_map f s) = len s.
Proof. unfold len. f_equal. induction s as [|c s IH]; simpl; [done | by rewrite IH]. Qed.

Lemma index_inside (s : string) (i : Z) :
  0 <= i < len s -> exists c, index s i = Some c.
Proof.
  intros [Hi Hl]. unfold index. destruct (Z.ltb_spec i 0); [lia|].
  destruct (Z.ltb_spec i 0); [lia|].
  unfold len in Hl. assert (Hn : (Z.to_nat i < String.length s)%nat) by lia.
  revert Hn. generalize (Z.to_nat i). clear.
  induction s as [|c s IH]; intros n Hn; simpl in *; [lia|].
  destruct n as [|n]; [eauto|]. apply IH. lia.
Qed.

(** The text assembled so far is as long as the part of the text that has
    been gone through. *)
Local Abbreviation in_step text st :=
  (0 <= cs_i st <= len text /\ len (cs_textcc st) = cs_i st).

Lemma first_to_case_step_length (text : string) (upper_case : bool) (nalts : Z)
    (althead : string) (st : CaseState) (c : ascii) :
  in_step text st -> cs_i st < len text ->
  match first_to_case_step text upper_case nalts althead st c with
  | inl r => len r = len text
  | inr st' => in_step text st' /\ cs_i st < cs_i st'
  end.
Proof.
  intros [Hi Hl] Hlt. unfold first_to_case_step. cbv zeta.
  repeat match goal with
         | |- context [if ?b then _ else _] => destruct b eqn:?
         | |- context [match index ?t ?i with _ => _ end] => destruct (index t i) eqn:?
         end;
    repeat match goal with
           | H : (_ <=? _) = false |- _ => apply Z.leb_gt in H
           | H : (_ <=? _) = true |- _ => apply Z.leb_le in H
           end;
    cbn [cs_i cs_textcc];
    rewrite ?len_app, ?len_str_map, ?len_slice_from, ?len_slice by lia;
    try lia.
Qed.

Lemma first_to_case_loop_length (text : string) (upper_case : bool) (nalts : Z)
    (althead : string) (rounds : nat) :
  forall st,
    in_step text st ->
    (Z.to_nat (len text - cs_i st) <= rounds)%nat ->
    len (first_to_case_loop rounds text upper_case nalts althead st) = len text.
Proof.
  induction rounds as [|k IH]; intros st [Hi Hl] Hk; simpl.
  - lia.
  - destruct (Z.ltb_spec (cs_i st) (len text)) as [Hlt|]; [|lia].
    destruct (index_inside text (cs_i st)) as [c ->]; [lia|].
    pose proof (first_to_case_step_length text upper_case nalts althead st c
                  (conj Hi Hl) Hlt) as Hstep.
    destruct (first_to_case_step text upper_case nalts althead st c) as [r|st'];
      [done|].
    destruct Hstep as [Hin Hgt]. apply IH; [done | lia].
Qed.

(** X24.  [first_to_case] changes characters and never their number: the
    text it returns is as long as the text it was given, whatever the
    direction of the change, the number of alternatives and the directive
    head; so do [first_to_upper] and [first_to_lower]. *)
Theorem first_to_case_length (text : string) (upper_case : bool) (nalts : Z)
    (althead : string) :
  String.length (first_to_case text upper_case nalts althead) = String.length text
  /\ String.length (first_to_upper text nalts althead) = String.length text
  /\ String.length (first_to_lower text nalts althead) = String.length text.
Proof.
  assert (H : forall u, String.length (first_to_case text u nalts althead)
                        = String.length text).
  { intros u. apply Nat2Z.inj. fold (len (first_to_case text u nalts althead)).
    fold (len text). unfold first_to_case. apply first_to_case_loop_length.
    - simpl. pose proof (len_nonneg text). split; [lia | done].
    - simpl. unfold len. lia. }
  split; [apply H|]. split; apply H.
Qed.

(** ** The plain case: no markup, no alternatives *)




(** A character that is neither a letter nor the start or the end of a
    markup tag. *)
Local Abbreviation plain_char :=
  (fun ch : ascii => negb (isalpha ch) && negb (Ascii.eqb ch "<") && negb (Ascii.eqb ch ">")).







End ResolveCase.
(** * Further properties of the rule-file parser *)

Module RulesMore.
Import Py PyFacts Rules.

(** ** [_findEndQuote] *)

Lemma char_at_ok (line : string) (p : Z) (c : ascii) :
  0 <= p -> char_at line p = Ok c -> p < len line /\ index line p = Some c.
Proof.
  intros Hp. unfold char_at. destruct (index line p) as [c'|] eqn:E; [|done].
  intros [= <-]. split; [|done].
  unfold index in E. destruct (Z.ltb_spec p 0); [lia|].
  destruct (Z.ltb_spec p 0); [lia|].
  destruct (Z.ltb_spec p (len line)); [done|].
  assert (String.get (Z.to_nat p) line = None); [|congruence].
  clear E. unfold len in *.
  assert (Hn : (String.length line <= Z.to_nat p)%nat) by lia.
  revert Hn. generalize (Z.to_nat p). clear.
  induction line as [|c line IH]; intros n Hn; [by destruct n|].
  destruct n as [|n]; simpl in *; [lia|]. apply IH. lia.
Qed.

Lemma end_quote_loop_spec (line : string) (quote : ascii) (k : nat) :
  forall (epos : Z) (s : string) (e : Z) (s' : string),
    0 <= epos <= len line ->
    (Z.to_nat (len line - epos) <= k)%nat ->
    end_quote_loop k line quote epos s = Ok (e, s') ->
    epos <= e <= len line /\ (e < len line -> index line e = Some quote).
Proof.
  induction k as [|k IH]; intros epos s e s' Hb Hk.
  - simpl. intros [= <- <-]. split; [lia|]. lia.
  - cbn [end_quote_loop].
    destruct (Z.ltb_spec epos (len line)) as [Hlt|];
      [|intros [= <- <-]; split; lia].
    destruct (char_at line epos) as [c|err] eqn:Ec; simpl; [|done].
    apply char_at_ok in Ec as [_ Ec]; [|lia].
    destruct (Ascii.eqb c "\") eqn:Eb.
    + destruct (char_at line (epos + 1)) as [c2|err] eqn:Ec2; simpl; [|done].
      apply char_at_ok in Ec2 as [Hlt2 _]; [|lia].
      intros H. apply IH in H; [|lia|lia]. split; [lia | tauto].
    + destruct (Ascii.eqb c quote) eqn:Eq.
      * intros [= <- <-]. apply Ascii.eqb_eq in Eq. subst c. split; [lia | done].
      * intros H. apply IH in H; [|lia|lia]. split; [lia | tauto].
Qed.

(** X13.  When [_findEndQuote] returns, the position it gives lies inside
    the line, after the opening quote, and holds the same character as the
    position of the opening quote. *)
Theorem findEndQuote_position (line : string) (pos e : Z) :
  0 <= pos ->
  _findEndQuote line pos = Ok e ->
  pos < e < len line /\ index line e = index line pos.
Proof.
  intros Hp. unfold _findEndQuote.
  destruct (char_at line pos) as [quote|err] eqn:Eq; simpl; [|done].
  apply char_at_ok in Eq as [Hlt Hq]; [|done].
  destruct (end_quote_loop _ line quote (pos + 1) EmptyString) as [[epos s]|err] eqn:El;
    simpl; [|done].
  apply end_quote_loop_spec in El as [Hr He]; [|lia|unfold len; lia].
  destruct (Z.eqb_spec epos (len line)); [done|].
  intros [= <-]. split; [lia|]. rewrite Hq. apply He. lia.
Qed.

Lemma findEndQuote_position_witness :
  3 < 8 < len "id='open' hint" /\ index "id='open' hint" 8 = index "id='open' hint" 3.
Proof.
  apply (findEndQuote_position "id='open' hint" 3 8); [lia | reflexivity].
Defined.

(** ** [_checkFields] *)

Lemma size_names (l : list string) :
  (size (list_to_set l : gset string) <= length l)%nat
  /\ (size (list_to_set l : gset string) = length l <-> NoDup l).
Proof.
  induction l as [|x l [IH1 IH2]].
  - rewrite list_to_set_nil, size_empty. split; [done|]. split; [constructor | done].
  - rewrite list_to_set_cons. cbn [length].
    destruct (decide (x ∈ l)) as [Hin|Hin].
    + assert (({[x]} ∪ list_to_set l : gset string) = list_to_set l) as ->.
      { apply set_eq. intros y. rewrite elem_of_union, elem_of_singleton,
          elem_of_list_to_set. split; [intros [->|]; done | auto]. }
      split; [lia|]. split; [lia|]. intros Hnd. by apply NoDup_cons in Hnd as [? _].
    + rewrite size_union by (rewrite disjoint_singleton_l, elem_of_list_to_set; done).
      rewrite size_singleton. split; [lia|]. split.
      * intros H. apply NoDup_cons. split; [done|]. apply IH2. lia.
      * intros Hnd. apply NoDup_cons in Hnd as [_ Hnd]. apply IH2 in Hnd. lia.
Qed.

(** X14.  [_checkFields] passes exactly when the field names are distinct
    (if asked for), all known, and include the mandatory ones.  Repeated
    names are refused with the [StandardError] about duplicate fields; an
    unknown name or a missing mandatory one ends in a [TypeError], which
    comes from building the message and not from the [raise] written
    there. *)
Theorem checkFields_spec (directive : string) (fields : list field)
    (knownFields mandatoryFields : list string) (unique : bool) :
  let names := map fst fields in
  let distinct := unique = true -> NoDup names in
  let known := forall n, n ∈ names -> n ∈ knownFields in
  let complete := forall n, n ∈ mandatoryFields -> n ∈ names in
  (_checkFields directive fields knownFields mandatoryFields unique = Ok tt
   <-> distinct /\ known /\ complete)
  /\ (~ distinct ->
      _checkFields directive fields knownFields mandatoryFields unique
      = Raise (StandardError ("Duplicate fields in '" +:+ directive +:+ "' directive")))
  /\ (distinct -> ~ (known /\ complete) ->
      _checkFields directive fields knownFields mandatoryFields unique = Raise TypeError).
Proof.
  intros names distinct known complete.
  destruct (size_names names) as [_ Hsize].
  assert (Hlen : length fields = length names) by (unfold names; by rewrite length_map).
  assert (Hd : unique && negb (Nat.eqb (size (list_to_set names : gset string))
                                 (length fields)) = false <-> distinct).
  { unfold distinct. destruct unique; simpl; [|by split].
    rewrite negb_false_iff, Nat.eqb_eq, Hlen, Hsize. split; auto. }
  assert (Hk : bool_decide ((list_to_set names : gset string) ∖ list_to_set knownFields = ∅)
               = true <-> known).
  { rewrite bool_decide_eq_true. unfold known. split.
    - intros H n Hn. destruct (decide (n ∈ knownFields)) as [|Hnk]; [done|].
      assert (Hin : n ∈ (list_to_set names : gset string) ∖ list_to_set knownFields).
      { apply elem_of_difference. rewrite !elem_of_list_to_set. done. }
      rewrite H in Hin. by apply not_elem_of_empty in Hin.
    - intros H. apply set_eq. intros n. rewrite elem_of_difference, !elem_of_list_to_set.
      split; [intros [Hn Hnk]; by apply H in Hn | intros Hn; by apply not_elem_of_empty in Hn]. }
  assert (Hc : forallb (fun name => bool_decide (name ∈ (list_to_set names : gset string)))
                 mandatoryFields = true <-> complete).
  { rewrite forallb_forall. unfold complete. split.
    - intros H n Hn. apply list_elem_of_In, H, bool_decide_eq_true in Hn.
      by apply elem_of_list_to_set in Hn.
    - intros H n Hn. apply bool_decide_eq_true, elem_of_list_to_set, H.
      by apply list_elem_of_In. }
  unfold _checkFields. fold names. cbv zeta.
  destruct (unique && _) eqn:E1.
  - assert (~ distinct) by (intros Hx; apply Hd in Hx; congruence).
    split; [split; [done | tauto]|]. split; [done | tauto].
  - assert (distinct) by (by apply Hd).
    destruct (bool_decide (_ = ∅)) eqn:E2; simpl.
    + assert known by (by apply Hk).
      destruct (forallb _ mandatoryFields) eqn:E3.
      * assert complete by (by apply Hc).
        split; [tauto|]. split; [tauto|]. tauto.
      * assert (~ complete) by (intros Hx; apply Hc in Hx; congruence).
        split; [split; [done | tauto]|]. split; [tauto | done].
    + assert (~ known) by (intros Hx; apply Hk in Hx; congruence).
      split; [split; [done | tauto]|]. split; [tauto | done].
Qed.

Lemma checkFields_spec_witness :
  _checkFields "include" [("file", Some "a.rules"); ("file", Some "b.rules")]
    ["file"] ["file"] true
  = Raise (StandardError "Duplicate fields in 'include' directive")
  /\ _checkFields "include" [("path", Some "a.rules")] ["file"] ["file"] true
     = Raise TypeError.
Proof.
  split.
  - apply (proj1 (proj2 (checkFields_spec "include"
             [("file", Some "a.rules"); ("file", Some "b.rules")] ["file"] ["file"] true))).
    intros H. specialize (H eq_refl). apply NoDup_cons in H as [H _]. apply H. left.
  - apply (proj2 (proj2 (checkFields_spec "include" [("path", Some "a.rules")]
             ["file"] ["file"] true))).
    + intros _. repeat constructor. set_solver.
    + intros [H _]. specialize (H "path"). simpl in H.
      assert (Hin : "path" ∈ ["file"]) by (apply H; left).
      apply list_elem_of_singleton in Hin. discriminate.
Defined.

End RulesMore.
(** * Further properties of catalogs *)

Module CatalogMore.
Import Py PyFacts Message MessageProps MessageMore Catalog CatalogProps.

(** ** The parser and its line cache *)



(** ** Reading *)

Section ReadingFacts.

Variable enc_search : string -> option string.
Variable decode : string -> string -> option string.

Lemma find_encoding_some (lines : list string) (enc : string) :
  find_encoding enc_search lines = Some enc ->
  enc <> EmptyString /\ enc <> "CHARSET".
Proof.
  induction lines as [|line rest IH]; [done|]. simpl.
  destruct (startswith (strip line) "#:"); [done|].
  destruct (enc_search line) as [g|]; [|exact IH].
  destruct (negb (truthy (strip g)) || String.eqb (strip g) "CHARSET") eqn:E; [done|].
  intros [= <-]. apply orb_false_iff in E as [E1 E2].
  apply negb_false_iff in E1. apply String.eqb_neq in E2.
  split; [by destruct (strip g) | done].
Qed.

Lemma decode_lines_length (enc : string) (lines : list string) :
  forall n out, decode_lines decode enc lines n = Ok out -> length out = length lines.
Proof.
  induction lines as [|l rest IH]; intros n out; simpl; [by intros [= <-]|].
  destruct (decode enc l); [|done].
  destruct (decode_lines decode enc rest (n + 1)) as [r|] eqn:E; simpl; [|done].
  intros [= <-]. simpl. f_equal. by eapply IH.
Qed.

(** X16.  The encoding that [_read_lines_and_encoding] settles on is never
    empty and never the placeholder [CHARSET]: in those cases, as when no
    charset is named before the first source reference, it is [UTF-8]; and
    the decoded lines are as many as the lines of the file. *)
Theorem read_lines_encoding (fstr : string) (lines : list string) (enc : string) :
  _read_lines_and_encoding enc_search decode fstr = Ok (lines, enc) ->
  enc <> EmptyString /\ enc <> "CHARSET"
  /\ (find_encoding enc_search (split_lines fstr) = None -> enc = "UTF-8")
  /\ length lines = length (split_lines fstr).
Proof.
  unfold _read_lines_and_encoding. cbv zeta.
  destruct (decode_lines _ _ _ _) as [out|] eqn:E; simpl; [|done].
  intros [= <- <-]. apply decode_lines_length in E.
  destruct (find_encoding enc_search (split_lines fstr)) as [e|] eqn:Ef; simpl.
  - apply find_encoding_some in Ef as [? ?]. done.
  - done.
Qed.

End ReadingFacts.

Lemma read_lines_encoding_witness :
  exists lines,
    _read_lines_and_encoding no_charset same_bytes po_double_blank = Ok (lines, "UTF-8")
    /\ length lines = length (split_lines po_double_blank).
Proof.
  destruct (_read_lines_and_encoding no_charset same_bytes po_double_blank)
    as [[lines enc]|e] eqn:E; [|exfalso; revert E; vm_compute; congruence].
  destruct (read_lines_encoding no_charset same_bytes _ _ _ E) as (_ & _ & Hu & Hl).
  assert (Hn : find_encoding no_charset (split_lines po_double_blank) = None)
    by (vm_compute; reflexivity).
  rewrite (Hu Hn). exists lines. split; [reflexivity | exact Hl].
Defined.

(** ** [obspos] and [sync_map] *)

Lemma frontier_unique (msgs : list Message) (k : nat) :
  (k <= length msgs)%nat ->
  Forall (fun m => obsolete (body m) = true) (drop k msgs) ->
  (forall j m, k = S j -> msgs !! j = Some m -> obsolete (body m) = false) ->
  obsolete_frontier msgs = k.
Proof.
  intros Hk Hobs Hlive.
  destruct (obsolete_frontier_spec msgs) as (Hk' & Hobs' & Hlive').
  set (k' := obsolete_frontier msgs) in *.
  destruct (Nat.lt_trichotomy k' k) as [Hlt | [-> | Hgt]]; [|done|].
  - destruct k as [|j]; [lia|].
    destruct (lookup_lt_is_Some_2 msgs j) as [m Hm]; [lia|].
    pose proof (Hlive j m eq_refl Hm) as Hl.
    rewrite Forall_forall in Hobs'.
    assert (Hin : m ∈ drop k' msgs).
    { apply list_elem_of_lookup. exists (j - k')%nat. rewrite lookup_drop.
      replace (k' + (j - k'))%nat with j by lia. done. }
    apply Hobs' in Hin. congruence.
  - destruct k' as [|j]; [lia|].
    destruct (lookup_lt_is_Some_2 msgs j) as [m Hm]; [lia|].
    pose proof (Hlive' j m eq_refl Hm) as Hl.
    rewrite Forall_forall in Hobs.
    assert (Hin : m ∈ drop k msgs).
    { apply list_elem_of_lookup. exists (j - k)%nat. rewrite lookup_drop.
      replace (k + (j - k))%nat with j by lia. done. }
    apply Hobs in Hin. congruence.
Qed.

(** X17.  [obspos] is the one position from which on all entries are
    obsolete while the entry before it is not; it is the number of entries
    when there are none or when the last one is not obsolete. *)
Theorem obspos_spec (cat : Catalog) :
  let msgs := messages cat in
  (obspos cat <= length msgs)%nat
  /\ (forall k,
        obspos cat = k <->
        (k <= length msgs)%nat
        /\ Forall (fun m => obsolete (body m) = true) (drop k msgs)
        /\ (forall j m, k = S j -> msgs !! j = Some m -> obsolete (body m) = false))
  /\ (match last msgs with
      | Some m => obsolete (body m) = false
      | None => True
      end -> obspos cat = length msgs).
Proof.
  intros msgs. unfold obspos. fold msgs.
  destruct (obsolete_frontier_spec msgs) as (Hk & Hobs & Hlive).
  split; [exact Hk|]. split.
  - intros k. split; [by intros <- | intros (? & ? & ?); by apply frontier_unique].
  - intros Hlast. apply frontier_unique; [lia | by rewrite drop_all |].
    intros j m Hj Hm. rewrite last_lookup in Hlast.
    replace (Nat.pred (length msgs)) with j in Hlast by lia.
    by rewrite Hm in Hlast.
Qed.

Lemma obspos_spec_witness : obspos three_entries = 3%nat.
Proof. apply (proj2 (proj2 (obspos_spec three_entries))). reflexivity. Defined.

(** X18.  After [sync_map] no entry is marked for removal, the entries are
    those that were not marked, the ones that are not obsolete followed by
    the obsolete ones, each group in its former order, so that [obspos]
    is the number of entries that are not obsolete; the header, the file
    name and the counter of the catalog are as before. *)
Theorem sync_map_groups (cat : Catalog) :
  let cat' := sync_map cat in
  let kept := filter (fun m => remove_on_sync m = false) (messages cat) in
  let live := filter (fun m => obsolete (body m) = false) kept in
  messages cat' = live ++ filter (fun m => obsolete (body m) = true) kept
  /\ Forall (fun m => remove_on_sync m = false) (messages cat')
  /\ obspos cat' = length live
  /\ msgpos cat' = index_keys (messages cat') 0 ∅
  /\ header cat' = header cat /\ filename cat' = filename cat
  /\ own_modcount cat' = own_modcount cat.
Proof.
  intros cat' kept live. unfold cat', sync_map, obspos. cbn [messages msgpos header
    filename own_modcount]. unfold sync_map_list. fold kept. fold live.
  split; [done|]. split.
  { apply Forall_app. split; apply Forall_filter_keep; unfold kept;
      apply Forall_forall; intros m Hm; by apply list_elem_of_filter in Hm as [? _]. }
  split; [|done].
  apply frontier_unique.
  - rewrite length_app. lia.
  - rewrite drop_app_length. apply Forall_forall. intros m Hm.
    by apply list_elem_of_filter in Hm as [? _].
  - intros j m Hj Hm. rewrite lookup_app_l in Hm by lia.
    assert (Hin : m ∈ live) by (by eapply list_elem_of_lookup_2).
    by apply list_elem_of_filter in Hin as [? _].
Qed.

(** ** The key-position links *)

Lemma index_keys_cases (msgs : list Message) :
  forall (i : Z) (pos : gmap string Z) (k : string),
    (index_keys msgs i pos !! k = pos !! k /\ forall m, m ∈ msgs -> key m <> k)
    \/ (exists n m,
          msgs !! n = Some m /\ key m = k
          /\ index_keys msgs i pos !! k = Some (i + Z.of_nat n)
          /\ forall n' m', (n < n')%nat -> msgs !! n' = Some m' -> key m' <> k).
Proof.
  induction msgs as [|m rest IH]; intros i pos k.
  - left. split; [done|]. intros m Hm. by apply elem_of_nil in Hm.
  - cbn [index_keys].
    destruct (IH (i + 1) (<[key m := i]> pos) k) as [[Hl Hno] | (n & m0 & Hn & Hk & Hl & Hlast)].
    + destruct (decide (key m = k)) as [Hk|Hk].
      * right. exists 0%nat, m. split; [done|]. split; [done|].
        split; [rewrite Hl, Hk, lookup_insert_eq; f_equal; lia|].
        intros n' m' Hn' Hm'. destruct n' as [|n']; [lia|].
        apply Hno. by eapply list_elem_of_lookup_2.
      * left. split; [by rewrite Hl, lookup_insert_ne|].
        intros m' Hm'. apply elem_of_cons in Hm' as [-> | Hm']; [done | by apply Hno].
    + right. exists (S n), m0. split; [done|]. split; [done|].
      split; [rewrite Hl; f_equal; lia|].
      intros n' m' Hn' Hm'. destruct n' as [|n']; [lia|].
      apply (Hlast n' m'); [lia | done].
Qed.

(** X19.  The key-position links, as the constructor and [sync_map] build
    them: every link leads to an entry with that key, the last one in the
    catalog that has it; every entry of the catalog has a link for its
    key; and when the keys of the entries are distinct, the link of every
    entry gives its position. *)
Theorem index_keys_links (msgs : list Message) :
  let pos := index_keys msgs 0 ∅ in
  (forall k i,
     pos !! k = Some i ->
     exists n m,
       i = Z.of_nat n /\ msgs !! n = Some m /\ key m = k
       /\ forall n' m', (n < n')%nat -> msgs !! n' = Some m' -> key m' <> k)
  /\ (forall m, m ∈ msgs -> is_Some (pos !! key m))
  /\ (NoDup (map key msgs) ->
      forall n m, msgs !! n = Some m -> pos !! key m = Some (Z.of_nat n)).
Proof.
  intros pos. unfold pos. split; [|split].
  - intros k i H.
    destruct (index_keys_cases msgs 0 ∅ k) as [[Hl _] | (n & m & Hn & Hk & Hl & Hlast)].
    + rewrite H in Hl. by rewrite lookup_empty in Hl.
    + exists n, m. rewrite H in Hl. injection Hl as ->. repeat split; auto.
  - intros m Hm.
    destruct (index_keys_cases msgs 0 ∅ (key m)) as [[_ Hno] | (n & m0 & _ & _ & Hl & _)].
    + by apply Hno in Hm.
    + by rewrite Hl.
  - intros Hnd n m Hn.
    destruct (index_keys_cases msgs 0 ∅ (key m)) as [[_ Hno] | (n0 & m0 & Hn0 & Hk & Hl & _)].
    + exfalso. apply (Hno m); [by eapply list_elem_of_lookup_2 | done].
    + rewrite Hl. f_equal.
      assert (n0 = n); [|lia].
      eapply NoDup_lookup; [exact Hnd| |].
      * rewrite list_lookup_fmap, Hn0. simpl. by rewrite Hk.
      * by rewrite list_lookup_fmap, Hn.
Qed.

Lemma index_keys_links_witness :
  msgpos three_entries !! key (entry "M2" true) = Some 1.
Proof.
  apply (proj2 (proj2 (index_keys_links (messages three_entries))) ltac:(vm_compute;
    repeat constructor; set_solver) 1%nat (entry "M2" true)).
  reflexivity.
Defined.

Lemma index_keys_insert (l : list Message) :
  forall (i : Z) (pos : gmap string Z) (k : string) (v : Z),
    (forall m, m ∈ l -> key m <> k) ->
    index_keys l i (<[k := v]> pos) = <[k := v]> (index_keys l i pos).
Proof.
  induction l as [|m r IH]; intros i pos k v Hno; [done|].
  cbn [index_keys]. rewrite insert_insert_ne by (apply Hno; left).
  apply IH. intros m' Hm'. apply Hno. by right.
Qed.

Lemma index_keys_twice (l : list Message) :
  NoDup (map key l) ->
  forall (i j : Z) (pos : gmap string Z),
    index_keys l i (index_keys l j pos) = index_keys l i pos.
Proof.
  induction l as [|m r IH]; intros Hnd i j pos; [done|].
  apply NoDup_cons in Hnd as [Hm Hnd]. cbn [index_keys].
  assert (Hno : forall m', m' ∈ r -> key m' <> key m).
  { intros m' Hm' Hk. apply Hm. rewrite <- Hk. by apply list_elem_of_fmap_2. }
  rewrite (index_keys_insert r (j + 1)) by done.
  rewrite insert_insert_eq.
  rewrite (index_keys_insert r (i + 1) (index_keys r (j + 1) pos)) by done.
  rewrite (index_keys_insert r (i + 1) pos) by done.
  by rewrite IH.
Qed.

Lemma index_keys_app (a b : list Message) :
  forall (i : Z) (pos : gmap string Z),
    index_keys (a ++ b) i pos = index_keys b (i + Z.of_nat (length a)) (index_keys a i pos).
Proof.
  induction a as [|m a IH]; intros i pos.
  - simpl. f_equal. lia.
  - cbn [app index_keys length]. rewrite IH. f_equal. lia.
Qed.

Lemma relink_spec (msgs : list Message) (l2 : list Message) :
  forall (i : Z) (pos : gmap string Z),
    0 <= i -> drop (Z.to_nat i) msgs = l2 ->
    relink (length l2) msgs i pos = Ok (index_keys l2 (i - 1) pos).
Proof.
  induction l2 as [|m r IH]; intros i pos Hi Hd; [done|].
  cbn [length relink index_keys].
  assert (Hm : msgs !! Z.to_nat i = Some m).
  { rewrite <- (Nat.add_0_r (Z.to_nat i)), <- lookup_drop, Hd. done. }
  unfold py_nth. destruct (Z.ltb_spec i 0); [lia|].
  destruct (Z.ltb_spec i 0); [lia|]. rewrite Hm.
  rewrite IH; [|lia|].
  - do 2 f_equal. lia.
  - replace (drop (Z.to_nat (i + 1)) msgs) with (drop 1 (drop (Z.to_nat i) msgs))
      by (rewrite drop_drop; f_equal; lia).
    by rewrite Hd.
Qed.

(** X20.  In a catalog whose entries have distinct keys and whose links
    are those of the constructor, [remove] of the entry at a position,
    given by the position or by an entry with its key, takes that entry
    out of the sequence and leaves links that are again those of the
    constructor for the new sequence: the step by step update of the
    links comes to a rebuild.  The catalog counts one change. *)
Theorem remove_relinks (cat : Catalog) (ip : nat) (x : Message) :
  _assert_headonly cat = Ok tt ->
  NoDup (map key (messages cat)) ->
  msgpos cat = index_keys (messages cat) 0 ∅ ->
  messages cat !! ip = Some x ->
  exists cat',
    remove (ByPos (Z.of_nat ip)) cat = Ok cat'
    /\ remove (ByMsg x) cat = Ok cat'
    /\ messages cat' = delete ip (messages cat)
    /\ msgpos cat' = index_keys (messages cat') 0 ∅
    /\ NoDup (map key (messages cat'))
    /\ own_modcount cat' = S (own_modcount cat).
Proof.
  intros Hho Hnd Hpos Hx.
  pose proof (lookup_lt_Some _ _ _ Hx) as Hlt.
  assert (Hsplit : messages cat = take ip (messages cat) ++ x :: drop (S ip) (messages cat)).
  { rewrite <- (take_drop_middle _ _ _ Hx) at 1. done. }
  set (l1 := take ip (messages cat)) in *. set (l2 := drop (S ip) (messages cat)) in *.
  assert (Hl1 : length l1 = ip) by (unfold l1; rewrite length_take; lia).
  assert (Hnd' := Hnd). rewrite Hsplit, fmap_app, fmap_cons in Hnd'.
  apply NoDup_app in Hnd' as (Hnd1 & Hdisj & Hnd2).
  apply NoDup_cons in Hnd2 as [Hx2 Hnd2].
  assert (Hx1 : forall m, m ∈ l1 -> key m <> key x).
  { intros m Hm Hk. apply (Hdisj (key m)); [by apply list_elem_of_fmap_2|].
    rewrite Hk. left. }
  assert (Hx2' : forall m, m ∈ l2 -> key m <> key x).
  { intros m Hm Hk. apply Hx2. rewrite <- Hk. by apply list_elem_of_fmap_2. }
  assert (Hlink : msgpos cat !! key x = Some (Z.of_nat ip)).
  { rewrite Hpos. by apply (proj2 (proj2 (index_keys_links (messages cat)))). }
  assert (Hrel : relink (Z.to_nat (Z.of_nat (length (messages cat)) - (Z.of_nat ip + 1)))
                   (messages cat) (Z.of_nat ip + 1) (msgpos cat)
                 = Ok (index_keys l2 (Z.of_nat ip) (msgpos cat))).
  { replace (Z.to_nat (Z.of_nat (length (messages cat)) - (Z.of_nat ip + 1)))
      with (length l2) by (unfold l2; rewrite length_drop; lia).
    rewrite (relink_spec (messages cat) l2); [|lia|].
    - do 2 f_equal. lia.
    - unfold l2. f_equal. lia. }
  assert (Hnew : delete (key x) (index_keys l2 (Z.of_nat ip) (msgpos cat))
                 = index_keys (l1 ++ l2) 0 ∅).
  { rewrite Hpos, Hsplit, !index_keys_app. cbn [index_keys]. rewrite Hl1.
    replace (0 + Z.of_nat ip) with (Z.of_nat ip) by lia.
    rewrite index_keys_twice by done.
    rewrite (index_keys_insert l2) by done.
    rewrite delete_insert_eq. apply delete_id.
    destruct (index_keys_cases l2 (Z.of_nat ip) (index_keys l1 0 ∅) (key x))
      as [[-> _] | (n & m & Hn & Hk & _)].
    - destruct (index_keys_cases l1 0 ∅ (key x)) as [[-> _] | (n & m & Hn & Hk & _)];
        [done|].
      exfalso. apply (Hx1 m); [by eapply list_elem_of_lookup_2 | done].
    - exfalso. apply (Hx2' m); [by eapply list_elem_of_lookup_2 | done]. }
  assert (Hdel : delete ip (messages cat) = l1 ++ l2).
  { rewrite Hsplit at 1. rewrite <- Hl1. by rewrite delete_middle. }
  assert (Hsome : is_Some (index_keys l2 (Z.of_nat ip) (msgpos cat) !! key x)).
  { destruct (index_keys_cases l2 (Z.of_nat ip) (msgpos cat) (key x))
      as [[-> _] | (n & m & Hn & Hk & _)]; [by rewrite Hlink|].
    exfalso. apply (Hx2' m); [by eapply list_elem_of_lookup_2 | done]. }
  destruct Hsome as [v Hv].
  assert (Hneg : (Z.of_nat ip <? 0) = false) by (apply Z.ltb_ge; lia).
  assert (Hle : (Z.of_nat (length (messages cat)) <=? Z.of_nat ip) = false)
    by (apply Z.leb_gt; lia).
  eexists. split; [|split; [|split; [|split; [|split]]]].
  - unfold remove. rewrite Hho. simpl.
    unfold py_nth at 1. cbv zeta. rewrite Hneg. rewrite Hneg.
    rewrite Nat2Z.id, Hx. simpl. rewrite Hrel. simpl.
    rewrite Hneg. cbv iota. rewrite Hneg, Hle. simpl. rewrite Hv, Nat2Z.id. reflexivity.
  - unfold remove. rewrite Hho. simpl. rewrite Hlink. simpl. rewrite Hrel. simpl.
    rewrite Hneg. cbv iota. rewrite Hneg, Hle. simpl. rewrite Hv, Nat2Z.id. reflexivity.
  - reflexivity.
  - cbn [messages msgpos]. by rewrite Hnew, Hdel.
  - cbn [messages]. rewrite Hdel, fmap_app. apply NoDup_app. split; [done|].
    split; [|done]. intros k Hk1 Hk2. apply (Hdisj k Hk1). by right.
  - reflexivity.
Qed.

Lemma remove_relinks_witness :
  exists cat',
    remove (ByPos 1) three_entries = Ok cat'
    /\ remove (ByMsg (entry "M2" true)) three_entries = Ok cat'
    /\ messages cat' = [entry "M1" false; entry "M3" false]
    /\ msgpos cat' = index_keys (messages cat') 0 ∅.
Proof.
  destruct (remove_relinks three_entries 1 (entry "M2" true)) as (cat' & H1 & H2 & H3 & H4 & _).
  - reflexivity.
  - vm_compute. repeat constructor; set_solver.
  - reflexivity.
  - reflexivity.
  - exists cat'. split; [exact H1|]. split; [exact H2|]. split; [|exact H4].
    rewrite H3. reflexivity.
Defined.

(** ** [sync] *)

Section SyncFacts.

Variable wrapf : string -> string -> string -> list string.
Variable wrap_comment wrap_comment_unwrap : string -> string -> list string.
Variable escape : string -> string.
Variable encode : string -> string -> option string.
Variable get_field_value : Message -> string -> option string.

Local Abbreviation sync :=
  (sync wrapf wrap_comment wrap_comment_unwrap escape encode get_field_value).

Lemma modcount_reset_all (l : list Message) :
  foldr (fun m n => (modcount m + n)%nat) 0%nat
    (map (fun m => with_committed true (reset_modcount m)) l) = 0%nat.
Proof. induction l as [|m l IH]; simpl; [done | exact IH]. Qed.

(** X21.  After a [sync] that wrote the catalog, nothing is left to write:
    no counter of the catalog, of its header or of its entries is set, all
    entries are committed and none is marked for removal, and the catalog
    no longer counts as created from scratch; so a further [sync] of a
    monitored catalog, not forced, writes nothing and returns [False]. *)
Theorem sync_settles (force noobsend fitplural : bool) (cat cat' : Catalog)
    (out : option (list string)) :
  sync force noobsend fitplural cat = Ok (true, cat', out) ->
  cat_modcount cat' = 0%nat
  /\ committed (header cat') = true
  /\ Forall (fun m => committed m = true /\ modcount m = 0%nat
                     /\ remove_on_sync m = false) (messages cat')
  /\ created_from_scratch cat' = false
  /\ filename cat' = filename cat
  /\ (monitored cat = true ->
      forall noobsend', sync false noobsend' false cat' = Ok (false, cat', None)).
Proof.
  unfold Catalog.sync at 1.
  destruct (negb (truthy (strip (filename cat)))) eqn:Hname; [done|].
  apply negb_false_iff in Hname. cbv zeta.
  cbn [filename monitored header messages encoding cat_tail own_modcount msgpos
       created_from_scratch].
  destruct (_ && Nat.eqb _ 0); [done|].
  destruct (sync_loop _ _ _ _ _ _ _ _ _ _ _ _ _) as [[msgs flines]|] eqn:El; simpl; [|done].
  destruct msgs as [|hdr rest]; [done|].
  destruct (encode_lines _ _ _ _) as [enclines|]; simpl; [|done].
  intros [= <- <-].
  assert (Hmod : cat_modcount
            (mkCatalog (filename cat) (monitored cat)
               (with_committed true (reset_modcount hdr))
               (map (fun m => with_committed true (reset_modcount m)) (sync_map_list rest))
               (encoding cat) (cat_tail cat) 0 (index_keys (sync_map_list rest) 0 ∅) false)
            = 0%nat).
  { unfold cat_modcount. cbn [own_modcount header messages].
    by rewrite modcount_reset_all. }
  split; [exact Hmod|]. split; [done|]. split.
  { cbn [messages]. apply List.Forall_map. apply Forall_forall. intros m Hm.
    split; [done|]. split; [done|]. simpl.
    unfold sync_map_list in Hm. apply elem_of_app in Hm as [Hm|Hm];
      apply list_elem_of_filter in Hm as [_ Hm];
      by apply list_elem_of_filter in Hm as [? _]. }
  split; [done|]. split; [done|].
  intros Hmon noobsend'. by apply sync_unmodified.
Qed.

Local Abbreviation write_in_order :=
  (write_in_order wrapf wrap_comment wrap_comment_unwrap escape).

(** [b] is [a] with other line caches. *)
Local Abbreviation relined := (fun a b : Message => b = with_lines (lines b) a).

Lemma write_in_order_frame (force : bool) (l : list Message) :
  forall flines l' flines',
    write_in_order force l flines = Ok (l', flines') -> Forall2 relined l l'.
Proof.
  induction l as [|m rest IH]; intros flines l' flines'.
  - simpl. intros [= <- <-]. constructor.
  - rewrite write_in_order_cons. destruct (remove_on_sync m).
    + destruct (write_in_order force rest flines) as [[r f]|] eqn:E; simpl; [|done].
      intros [= <- <-]. constructor; [by destruct m | by eapply IH].
    + destruct (to_lines _ _ _ _ _ m) as [[lins m']|] eqn:Et; simpl; [|done].
      destruct (ensure_last_line _) as [fl|]; simpl; [|done].
      destruct (write_in_order force rest fl) as [[r f]|] eqn:E; simpl; [|done].
      intros [= <- <-]. constructor; [|by eapply IH].
      by apply to_lines_frame in Et as (_ & _ & ? & _).
Qed.

Lemma filter_relined (P : Message -> Prop) `{forall m, Decision (P m)}
    (a b : list Message) :
  (forall x y, relined x y -> P x <-> P y) ->
  Forall2 relined a b -> Forall2 relined (filter P a) (filter P b).
Proof.
  intros HP. induction 1 as [|x y a b Hxy _ IH]; [constructor|].
  rewrite !filter_cons. pose proof (HP x y Hxy) as Hiff.
  destruct (decide (P x)), (decide (P y)); try tauto. by constructor.
Qed.

Lemma sync_map_list_relined (a b : list Message) :
  Forall2 relined a b -> map body (sync_map_list b) = map body (sync_map_list a).
Proof.
  intros H. unfold sync_map_list.
  assert (Hk : Forall2 relined (filter (fun m => remove_on_sync m = false) a)
                 (filter (fun m => remove_on_sync m = false) b)).
  { apply filter_relined; [|done]. intros x y ->. done. }
  assert (Hbody : forall u v, Forall2 relined u v -> map body v = map body u).
  { induction 1 as [|x y u v Hxy _ IH]; [done|]. simpl. rewrite IH. f_equal.
    by rewrite Hxy. }
  rewrite !map_app. f_equal; apply Hbody; (apply filter_relined; [|done]);
    intros x y ->; done.
Qed.

Lemma filter_none {A : Type} (P : A -> Prop) `{forall x, Decision (P x)} (l : list A) :
  (forall x, ~ P x) -> filter P l = [].
Proof.
  intros HP. induction l as [|x l IH]; [done|]. by rewrite filter_cons_False.
Qed.

Lemma sync_map_list_hoist (msgs : list Message) :
  sync_map_list (hoist_obsolete msgs) = sync_map_list msgs.
Proof.
  unfold hoist_obsolete. set (k := obsolete_frontier msgs).
  rewrite <- (take_drop k msgs) at 4.
  set (T := take k msgs). set (C := drop k msgs).
  unfold sync_map_list. rewrite !filter_app, !list_filter_filter.
  assert (filter (fun m => (obsolete (body m) = false /\ remove_on_sync m = false)
                           /\ stays m = true) T
          = filter (fun m => obsolete (body m) = false /\ remove_on_sync m = false) T) as ->.
  { apply list_filter_iff. intros m. unfold stays.
    destruct (remove_on_sync m), (obsolete (body m)); simpl; intuition congruence. }
  assert (filter (fun m => (obsolete (body m) = false /\ remove_on_sync m = false)
                           /\ stays m = false) T = []) as ->.
  { apply filter_none. intros m. unfold stays.
    destruct (remove_on_sync m), (obsolete (body m)); simpl; intuition congruence. }
  assert (filter (fun m => (obsolete (body m) = true /\ remove_on_sync m = false)
                           /\ stays m = true) T = []) as ->.
  { apply filter_none. intros m. unfold stays.
    destruct (remove_on_sync m), (obsolete (body m)); simpl; intuition congruence. }
  assert (filter (fun m => (obsolete (body m) = true /\ remove_on_sync m = false)
                           /\ stays m = false) T
          = filter (fun m => obsolete (body m) = true /\ remove_on_sync m = false) T) as ->.
  { apply list_filter_iff. intros m. unfold stays.
    destruct (remove_on_sync m), (obsolete (body m)); simpl; intuition congruence. }
  simpl. by rewrite <- !app_assoc.
Qed.

Lemma sync_map_list_cons_live (h : Message) (l : list Message) :
  remove_on_sync h = false -> obsolete (body h) = false ->
  sync_map_list (h :: l) = h :: sync_map_list l.
Proof.
  intros Hr Ho. unfold sync_map_list.
  rewrite (filter_cons_True (fun m => remove_on_sync m = false)) by done.
  rewrite (filter_cons_True (fun m => obsolete (body m) = false)) by done.
  rewrite (filter_cons_False (fun m => obsolete (body m) = true)) by congruence.
  done.
Qed.

Lemma hoist_head (h : Message) (l : list Message) :
  remove_on_sync h = false -> obsolete (body h) = false ->
  exists l', hoist_obsolete (h :: l) = h :: l'.
Proof.
  intros Hr Ho. unfold hoist_obsolete.
  destruct (obsolete_frontier_spec (h :: l)) as (_ & Hobs & _).
  destruct (obsolete_frontier (h :: l)) as [|k].
  - simpl in Hobs. inversion Hobs; congruence.
  - cbn [take]. rewrite filter_cons_True; [eauto|].
    unfold stays. by rewrite Ho, orb_true_r.
Qed.

(** X22.  A [sync] that writes, without fitting of plurals, leaves the
    contents of the header and of the entries as they were: what comes
    out in the catalog are the entries that were not marked for removal,
    those that are not obsolete before the obsolete ones, each group in
    its former order, whether the obsolete entries were moved while
    writing or not. *)
Theorem sync_keeps_contents (force noobsend : bool) (cat cat' : Catalog)
    (out : option (list string)) :
  obsolete (body (header cat)) = false ->
  sync force noobsend false cat = Ok (true, cat', out) ->
  body (header cat') = body (header cat)
  /\ map body (messages cat') = map body (sync_map_list (messages cat)).
Proof.
  intros Hobs. unfold Catalog.sync.
  destruct (negb (truthy (strip (filename cat)))); [done|]. cbv zeta.
  cbn [filename monitored header messages encoding cat_tail own_modcount msgpos
       created_from_scratch].
  destruct (_ && Nat.eqb _ 0); [done|].
  set (h0 := with_remove_on_sync false (header cat)).
  assert (Hr0 : remove_on_sync h0 = false) by done.
  assert (Ho0 : obsolete (body h0) = false) by done.
  set (force' := force || negb (monitored cat)).
  assert (Hloop : exists l, h0 :: l = written_order noobsend (h0 :: messages cat)
            /\ sync_map_list l = sync_map_list (messages cat)
            /\ Catalog.sync_loop wrapf wrap_comment wrap_comment_unwrap escape
                 (2 * length (h0 :: messages cat)) force' noobsend
                 (length (h0 :: messages cat)) (obsolete_frontier (h0 :: messages cat))
                 (h0 :: messages cat) 0 (obsolete_frontier (h0 :: messages cat)) []
               = write_in_order force' (h0 :: l) []).
  { destruct noobsend.
    - exists (messages cat). split; [done|]. split; [done|]. apply sync_loop_noobsend.
    - destruct (hoist_head h0 (messages cat) Hr0 Ho0) as [l Hl].
      exists l. split; [by rewrite <- Hl|]. split.
      + pose proof (sync_map_list_hoist (h0 :: messages cat)) as Hs.
        rewrite Hl, !sync_map_list_cons_live in Hs by done. by injection Hs.
      + rewrite <- Hl. apply sync_loop_hoist. }
  destruct Hloop as (l & _ & Hsml & ->).
  destruct (write_in_order force' (h0 :: l) []) as [[msgs flines]|] eqn:Ew; simpl; [|done].
  apply write_in_order_frame in Ew.
  inversion Ew as [|? hdr ? rest Hh Hrest]; subst.
  destruct (encode_lines _ _ _ _) as [enclines|]; simpl; [|done].
  intros [= <- <-]. cbn [header messages]. split.
  - by rewrite Hh.
  - rewrite <- Hsml, <- (sync_map_list_relined l rest Hrest).
    rewrite map_map. done.
Qed.

End SyncFacts.

Lemma sync_keeps_contents_witness :
  body (header written_catalog) = body (header (set_filename "copy.po" sample_catalog))
  /\ map body (messages written_catalog)
     = map body (sync_map_list (messages (set_filename "copy.po" sample_catalog))).
Proof.
  assert (E : sync one_line_wrapf one_line_comment one_line_comment same_text
                same_bytes no_field false false false
                (set_filename "copy.po" sample_catalog)
              = Ok (true, written_catalog, written_lines))
    by (vm_compute; reflexivity).
  assert (Ho : obsolete (body (header (set_filename "copy.po" sample_catalog))) = false)
    by (vm_compute; reflexivity).
  exact (sync_keeps_contents one_line_wrapf one_line_comment one_line_comment same_text
           same_bytes no_field false false _ _ _ Ho E).
Defined.

Lemma sync_settles_witness :
  sample_sync false false (set_filename "copy.po" sample_catalog)
  = Ok (true, written_catalog, written_lines)
  /\ cat_modcount written_catalog = 0%nat
  /\ sample_sync false false written_catalog = Ok (false, written_catalog, None).
Proof.
  unfold sample_sync.
  assert (E : sync one_line_wrapf one_line_comment one_line_comment same_text
                same_bytes no_field false false false
                (set_filename "copy.po" sample_catalog)
              = Ok (true, written_catalog, written_lines))
    by (vm_compute; reflexivity).
  assert (Hmon : monitored (set_filename "copy.po" sample_catalog) = true)
    by (vm_compute; reflexivity).
  destruct (sync_settles one_line_wrapf one_line_comment one_line_comment same_text
              same_bytes no_field false false false _ _ _ E) as (Hm & _ & _ & _ & _ & Hs).
  split; [exact E|]. split; [exact Hm | exact (Hs Hmon false)].
Defined.

End CatalogMore.
(** * Delayed removal *)

Module CatalogRemoval.
Import Py PyFacts Message Catalog CatalogProps CatalogMore.

Lemma kept_alter (l : list Message) :
  forall ip,
    filter (fun m => remove_on_sync m = false) (alter (with_remove_on_sync true) ip l)
    = filter (fun m => remove_on_sync m = false) (delete ip l).
Proof.
  induction l as [|x l IH]; intros ip; [by destruct ip|].
  destruct ip as [|ip]; cbn [alter list_alter delete list_delete].
  - by rewrite filter_cons_False.
  - by rewrite !filter_cons, IH.
Qed.

Lemma sync_map_list_marked (l : list Message) (ip : nat) :
  sync_map_list (alter (with_remove_on_sync true) ip l) = sync_map_list (delete ip l).
Proof. unfold sync_map_list. by rewrite kept_alter. Qed.

Lemma body_alter_mark (l : list Message) :
  forall ip, map body (alter (with_remove_on_sync true) ip l) = map body l.
Proof.
  induction l as [|x l IH]; intros ip; [by destruct ip|].
  destruct ip as [|ip]; cbn [alter list_alter map]; [done | by rewrite IH].
Qed.

(** X23.  Delayed removal: marking an entry with [remove_on_sync], by a
    position that is in range, leaves the sequence as it is, contents
    included; after the next [sync] that writes, the catalog holds what
    [sync_map] gives for the sequence without that entry, so the marked
    entry is gone and the others are all there. *)
Theorem remove_on_sync_then_sync
    (wrapf : string -> string -> string -> list string)
    (wrap_comment wrap_comment_unwrap : string -> string -> list string)
    (escape : string -> string) (encode : string -> string -> option string)
    (get_field_value : Message -> string -> option string)
    (force noobsend : bool) (ip : nat) (cat cat1 cat' : Catalog)
    (out : option (list string)) :
  obsolete (body (header cat)) = false ->
  remove_on_sync_at (Z.of_nat ip) cat = Ok cat1 ->
  sync wrapf wrap_comment wrap_comment_unwrap escape encode get_field_value
    force noobsend false cat1 = Ok (true, cat', out) ->
  length (messages cat1) = length (messages cat)
  /\ (ip < length (messages cat))%nat
  /\ map body (messages cat1) = map body (messages cat)
  /\ map body (messages cat')
     = map body (sync_map_list (delete ip (messages cat)))
  /\ body (header cat') = body (header cat).
Proof.
  intros Hobs Hrm Hsync. unfold remove_on_sync_at in Hrm.
  destruct (_assert_headonly cat); simpl in Hrm; [|done].
  destruct (Z.ltb_spec (Z.of_nat ip) 0); [lia|].
  destruct (_ || _) eqn:Hrange; [done|].
  apply orb_false_iff in Hrange as [_ Hrange]. apply Z.leb_gt in Hrange.
  injection Hrm as <-. rewrite Nat2Z.id in *. cbn [messages header] in *.
  split; [by rewrite length_alter|]. split; [lia|]. split.
  { apply body_alter_mark. }
  apply sync_keeps_contents in Hsync as [Hh Hm]; [|done]. cbn [messages header] in *.
  split; [|done]. by rewrite Hm, sync_map_list_marked.
Qed.

Lemma remove_on_sync_then_sync_witness :
  remove_on_sync_at (Z.of_nat 0) sample_catalog = Ok marked_catalog
  /\ map body (messages swept_catalog)
     = map body (sync_map_list (delete 0%nat (messages sample_catalog))).
Proof.
  assert (E1 : remove_on_sync_at (Z.of_nat 0) sample_catalog = Ok marked_catalog)
    by (vm_compute; reflexivity).
  assert (E2 : sync one_line_wrapf one_line_comment one_line_comment same_text
                 same_bytes no_field false false false marked_catalog
               = Ok (true, swept_catalog, swept_lines))
    by (vm_compute; reflexivity).
  assert (Ho : obsolete (body (header sample_catalog)) = false) by (vm_compute; reflexivity).
  split; [exact E1|].
  exact (proj1 (proj2 (proj2 (proj2
    (remove_on_sync_then_sync one_line_wrapf one_line_comment one_line_comment same_text
       same_bytes no_field false false 0 sample_catalog marked_catalog swept_catalog
       swept_lines Ho E1 E2))))).
Defined.

End CatalogRemoval.
